(** * preference-injector: conflict resolution, LRU cache and injector core

    A shallow embedding of [src/utils/conflict-resolver.ts],
    [src/utils/cache.ts] and [src/core/injector.ts], together with the
    properties of the specification that concern them.

    Conventions of the embedding:
    - a JavaScript [number] that the code only compares, adds or subtracts
      (priorities, [Date] instants in milliseconds, TTLs) is a [Z];
    - a plain object is the list of its own enumerable entries in
      [Object.entries] order; the keys of an object are pairwise distinct, a
      fact the properties assume where they need it; the object that
      [deepMerge] builds has a prototype as well, which the key [__proto__]
      reads and replaces;
    - a function that can [throw] (or a promise that can reject) returns a
      [Result]. *)

From Stdlib Require Import ZArith NArith Ascii Lia.
From stdpp Require Import base option list strings gmap sorting.

Set Default Proof Using "Type".
Local Set Warnings "-register-all".

(** ** Shared types ([src/types/index.ts], [src/errors/index.ts]) *)

Inductive PreferenceValue : Type :=
| VString (s : string)
| VNumber (n : Z)
| VBool (b : bool)
| VNull
| VObject (entries : list (string * PreferenceValue))
| VArray (items : list PreferenceValue).

Record PreferenceMetadata : Type := mkMetadata {
  key : string;
  value : PreferenceValue;
  priority : Z;
  source : string;
  timestamp : Z;
  encrypted : option bool;
  validated : option bool;
  ttl : option Z
}.

Inductive ConflictResolution : Type :=
| HIGHEST_PRIORITY
| LOWEST_PRIORITY
| MERGE
| OVERRIDE
| ERROR
| UnrecognizedStrategy (name : string).

(** One entry of [ValidationResult.errors]. *)
Record ValidationError : Type := mkValidationError {
  rule : string;
  message : string;
  rejected : PreferenceValue
}.

(** The errors the modelled code raises.  [PlainError] is JavaScript's
    built-in [Error]; [ValidationFailed errors] is the built-in [Error] whose
    message is ["Validation failed: "] followed by [JSON.stringify(errors)];
    the others are the classes of [src/errors]. *)
Inductive PreferenceError : Type :=
| PlainError (message : string)
| ValidationFailed (errors : list ValidationError)
| TypeError (message : string)
| PreferenceNotFoundError (k : string)
| ConflictError (k : string) (providers : list string)
| ProviderError (provider operation : string)
| ProviderInitializationError (provider : string)
| EncryptionError (message : string).

Inductive Result (A : Type) : Type :=
| Ok (a : A)
| Err (e : PreferenceError).
Arguments Ok {A} a.
Arguments Err {A} e.

#[global] Instance Result_ret : MRet Result := λ A a, Ok a.
#[global] Instance Result_bind : MBind Result := λ A B f r,
  match r with
  | Ok a => f a
  | Err e => Err e
  end.

(** [Array.prototype.join]. *)
Fixpoint join (sep : string) (l : list string) : string :=
  match l with
  | [] => ""
  | [s] => s
  | s :: l' => s +:+ sep +:+ join sep l'
  end.

(** [Array.prototype.reduce] without an initial value. *)
Definition reduce {A} (f : A → A → A) (l : list A) : Result A :=
  match l with
  | [] => Err (TypeError "Reduce of empty array with no initial value")
  | x :: l' => Ok (foldl f x l')
  end.

(** ** ConflictResolver *)

Module ConflictResolver.

Local Open Scope Z_scope.

(** The callback of [resolveByHighestPriority]. *)
Definition pickHighest (highest current : PreferenceMetadata) : PreferenceMetadata :=
  if priority current >? priority highest then current
  else if (priority current =? priority highest) && (timestamp current >? timestamp highest)
       then current
       else highest.

Definition resolveByHighestPriority (conflicts : list PreferenceMetadata)
  : Result PreferenceMetadata :=
  reduce pickHighest conflicts.

(** The callback of [resolveByLowestPriority]. *)
Definition pickLowest (lowest current : PreferenceMetadata) : PreferenceMetadata :=
  if priority current <? priority lowest then current
  else if (priority current =? priority lowest) && (timestamp current <? timestamp lowest)
       then current
       else lowest.

Definition resolveByLowestPriority (conflicts : list PreferenceMetadata)
  : Result PreferenceMetadata :=
  reduce pickLowest conflicts.

(** The callback of [resolveByOverride]. *)
Definition pickLatest (latest current : PreferenceMetadata) : PreferenceMetadata :=
  if timestamp current >? timestamp latest then current else latest.

Definition resolveByOverride (conflicts : list PreferenceMetadata)
  : Result PreferenceMetadata :=
  reduce pickLatest conflicts.

(** [Array.prototype.sort] with a comparator.  The sort is stable, and for a
    comparator that is a total preorder every stable sort returns the same
    array; it is modelled by stable insertion. *)
Fixpoint insertBy {A} (cmp : A → A → Z) (x : A) (l : list A) : list A :=
  match l with
  | [] => [x]
  | y :: l' => if cmp x y <=? 0 then x :: y :: l' else y :: insertBy cmp x l'
  end.

Definition sortBy {A} (cmp : A → A → Z) (l : list A) : list A :=
  foldr (insertBy cmp) [] l.

(** The comparator of [resolveByMerge]. *)
Definition byPriorityThenTimestamp (a b : PreferenceMetadata) : Z :=
  if negb (priority a =? priority b) then priority a - priority b
  else timestamp a - timestamp b.

(** [c] ranks no higher than [r] in the order (priority, then timestamp). *)
Definition rank_le (c r : PreferenceMetadata) : Prop :=
  priority c < priority r ∨ (priority c = priority r ∧ timestamp c ≤ timestamp r).

(** [typeof v === 'object' && v !== null && !Array.isArray(v)] *)
Definition isPlainObject (v : PreferenceValue) : bool :=
  match v with
  | VObject _ => true
  | _ => false
  end.

(** *** Objects as [deepMerge] sees them

    [deepMerge] builds its result in an object that starts as [{}], reads
    it with [result[key]] and writes it with [result[key] = val].  Both go
    through the prototype chain: the key [__proto__] is an accessor of
    [Object.prototype] that reads and replaces the prototype of the object,
    and [Object.entries] lists the own properties with the array indices
    first.  An object under construction is therefore its own entries and
    its prototype.

    A [VObject] is an object with the prototype [Object.prototype], as
    [JSON.parse] and object literals build it, given by its own entries in
    [Object.entries] order (an own property named [__proto__], which
    [JSON.parse] can create, is an entry like any other).  The prototype of
    the object [deepMerge] returns is not part of the value: the modelled
    code reads a prototype only on the object under construction. *)

(** The number that a string of decimal digits writes, read after [acc]. *)
Fixpoint digits (s : string) (acc : N) : option N :=
  match s with
  | EmptyString => Some acc
  | String c s' =>
      let n := N_of_ascii c in
      if ((48 <=? n) && (n <=? 57))%N then digits s' (10 * acc + (n - 48))%N
      else None
  end.

(** The array index that a property key writes, if it writes one: a
    canonical decimal numeral below [2^32 - 1]. *)
Definition arrayIndex (k : string) : option N :=
  match k with
  | EmptyString => None
  | String "0"%char EmptyString => Some 0%N
  | String "0"%char _ => None
  | _ => n ← digits k 0%N; if (n <? 4294967295)%N then Some n else None
  end.

(** An own property; [None] is [undefined]. *)
Fixpoint ownProp (o : list (string * PreferenceValue)) (k : string)
  : option PreferenceValue :=
  match o with
  | [] => None
  | (k', v) :: o' => if String.eqb k' k then Some v else ownProp o' k
  end.

(** Assignment to an own property that exists: it keeps its place. *)
Fixpoint assignOwn (k : string) (v : PreferenceValue)
    (o : list (string * PreferenceValue)) : list (string * PreferenceValue) :=
  match o with
  | [] => []
  | (k', v') :: o' =>
      if String.eqb k' k then (k', v) :: o' else (k', v') :: assignOwn k v o'
  end.

(** A new own property whose key is the array index [n]: it is listed
    after the indices up to [n] (two keys never write the same index) and
    before every other property. *)
Fixpoint insertIndexed (n : N) (k : string) (v : PreferenceValue)
    (o : list (string * PreferenceValue)) : list (string * PreferenceValue) :=
  match o with
  | [] => [(k, v)]
  | (k', v') :: o' =>
      match arrayIndex k' with
      | Some m => if (m <=? n)%N then (k', v') :: insertIndexed n k v o'
                  else (k, v) :: o
      | None => (k, v) :: o
      end
  end.

(** A new own property: array indices in ascending order first, then the
    other keys in the order of their creation. *)
Definition createOwn (k : string) (v : PreferenceValue)
    (o : list (string * PreferenceValue)) : list (string * PreferenceValue) :=
  match arrayIndex k with
  | Some n => insertIndexed n k v o
  | None => o ++ [(k, v)]
  end.

(** Assignment that ends on the object itself. *)
Definition storeOwn (k : string) (v : PreferenceValue)
    (o : list (string * PreferenceValue)) : list (string * PreferenceValue) :=
  match ownProp o k with
  | Some _ => assignOwn k v o
  | None => createOwn k v o
  end.

(** What the prototype of an object can be: [Object.prototype], [null], an
    array (whose own prototype is [Array.prototype]) or an object with its
    own entries and prototype. *)
Inductive Prototype : Type :=
| ObjectPrototype
| NoPrototype
| ArrayObject (items : list PreferenceValue)
| PlainObject (own : list (string * PreferenceValue)) (parent : Prototype).

Record JsObject : Type := mkObject {
  ownProps : list (string * PreferenceValue);
  prototype : Prototype
}.

(** The prototype as the getter of [__proto__] returns it.
    [Object.prototype] has no enumerable property of its own. *)
Definition protoValue (p : Prototype) : option PreferenceValue :=
  match p with
  | ObjectPrototype => Some (VObject [])
  | NoPrototype => None
  | ArrayObject items => Some (VArray items)
  | PlainObject own _ => Some (VObject own)
  end.

(** A property read along the prototype chain [p] of an object whose
    prototype is [receiver].  [None] is [undefined] or one of the functions
    of [Object.prototype] and [Array.prototype], none of which is an
    object for [typeof]. *)
Fixpoint inherited (p receiver : Prototype) (k : string) : option PreferenceValue :=
  match p with
  | ObjectPrototype => if String.eqb k "__proto__" then protoValue receiver else None
  | NoPrototype => None
  | ArrayObject items =>
      match arrayIndex k ≫= λ n, items !! N.to_nat n with
      | Some item => Some item
      | None =>
          if String.eqb k "length" then Some (VNumber (Z.of_nat (length items)))
          else if String.eqb k "__proto__" then protoValue receiver
          else None
      end
  | PlainObject own parent =>
      match ownProp own k with
      | Some v => Some v
      | None => inherited parent receiver k
      end
  end.

(** Whether an assignment to [k] finds, along the chain, the setter of
    [__proto__] rather than a data property or nothing. *)
Fixpoint reachesSetter (p : Prototype) (k : string) : bool :=
  match p with
  | ObjectPrototype | ArrayObject _ => String.eqb k "__proto__"
  | NoPrototype => false
  | PlainObject own parent =>
      match ownProp own k with
      | Some _ => false
      | None => reachesSetter parent k
      end
  end.

(** [result[key]] *)
Definition getProp (o : JsObject) (k : string) : option PreferenceValue :=
  match ownProp (ownProps o) k with
  | Some v => Some v
  | None => inherited (prototype o) (prototype o) k
  end.

(** [result[key] = val], where [vproto] is the prototype of [val] when it
    is an object.  An own property is assigned; the setter of [__proto__]
    replaces the prototype by an object or [null] and ignores anything
    else; in every other case a new own property is created. *)
Definition setProp (k : string) (v : PreferenceValue) (vproto : Prototype)
    (o : JsObject) : JsObject :=
  match ownProp (ownProps o) k with
  | Some _ => {| ownProps := assignOwn k v (ownProps o); prototype := prototype o |}
  | None =>
      if reachesSetter (prototype o) k then
        match v with
        | VObject es => {| ownProps := ownProps o; prototype := PlainObject es vproto |}
        | VArray items => {| ownProps := ownProps o; prototype := ArrayObject items |}
        | VNull => {| ownProps := ownProps o; prototype := NoPrototype |}
        | _ => o
        end
      else {| ownProps := createOwn k v (ownProps o); prototype := prototype o |}
  end.

(** A [for ... of] loop whose body may run out of fuel. *)
Fixpoint forOf {A B} (body : B → A → option B) (acc : B) (l : list A) : option B :=
  match l with
  | [] => Some acc
  | x :: l' => acc' ← body acc x; forOf body acc' l'
  end.

(** The body of the inner loop of [deepMerge]; [rec] is the recursive call,
    which returns the merged object and its prototype. *)
Definition propBody (rec : list PreferenceValue → option (PreferenceValue * Prototype))
    (result : JsObject) (entry : string * PreferenceValue) : option JsObject :=
  let '(k, val) := entry in
  match val, getProp result k with
  | VObject _, Some (VObject r) =>
      '(merged, mproto) ← rec [VObject r; val];
      Some (setProp k merged mproto result)
  | _, _ => Some (setProp k val ObjectPrototype result)
  end.

(** The body of the outer loop of [deepMerge]. *)
Definition valueBody (rec : list PreferenceValue → option (PreferenceValue * Prototype))
    (result : JsObject) (v : PreferenceValue) : option JsObject :=
  match v with
  | VObject entries => forOf (propBody rec) result entries
  | _ => Some result
  end.

(** [deepMerge], with the prototype of the object it returns.  The
    recursive call is on [[result[key], val]], whose first component is not
    a part of the argument, so the recursion is bounded by a fuel; [None]
    means the fuel ran out.  [deepMerge] below supplies a fuel that is
    always enough ([deepMerge_fuel_total]). *)
Fixpoint deepMerge_fuel (fuel : nat) (values : list PreferenceValue)
  : option (PreferenceValue * Prototype) :=
  match fuel with
  | O => None
  | S fuel' =>
      if forallb isPlainObject values then
        result ← forOf (valueBody (deepMerge_fuel fuel')) (mkObject [] ObjectPrototype)
                   values;
        Some (VObject (ownProps result), prototype result)
      else
        (* values[values.length - 1]; [values] is not empty here *)
        Some (default VNull (last values), ObjectPrototype)
  end.

(** Nesting depth of objects, through arrays. *)
Fixpoint depth (v : PreferenceValue) : nat :=
  match v with
  | VObject entries =>
      S ((fix go (es : list (string * PreferenceValue)) : nat :=
            match es with
            | [] => O
            | (_, x) :: es' => Nat.max (depth x) (go es')
            end) entries)
  | VArray items =>
      (fix go (xs : list PreferenceValue) : nat :=
         match xs with
         | [] => O
         | x :: xs' => Nat.max (depth x) (go xs')
         end) items
  | _ => O
  end.

Definition depths (values : list PreferenceValue) : nat :=
  foldr (λ v n, Nat.max (depth v) n) O values.

(** [deepMerge]: the fuel is one more than the deepest nesting of its
    arguments. *)
Definition deepMerge (values : list PreferenceValue) : PreferenceValue :=
  (default (VNull, ObjectPrototype) (deepMerge_fuel (S (depths values)) values)).1.

Definition entriesDepth (entries : list (string * PreferenceValue)) : nat :=
  foldr (λ e n, Nat.max (depth e.2) n) O entries.

Fixpoint protoDepth (p : Prototype) : nat :=
  match p with
  | ObjectPrototype | NoPrototype => O
  | ArrayObject items => depths items
  | PlainObject own parent => Nat.max (S (entriesDepth own)) (protoDepth parent)
  end.

(** No mapping of the value, at any depth of mappings, has an own property
    named [__proto__]. *)
Fixpoint protoFree (v : PreferenceValue) : Prop :=
  match v with
  | VObject entries =>
      "__proto__" ∉ entries.*1 ∧
      (fix go (es : list (string * PreferenceValue)) : Prop :=
         match es with
         | [] => True
         | (_, x) :: es' => protoFree x ∧ go es'
         end) entries
  | _ => True
  end.

(** The order of [Object.entries]: array indices in ascending order first,
    then the other keys. *)
Definition keyOrder (k k' : string) : Prop :=
  match arrayIndex k, arrayIndex k' with
  | Some n, Some m => (n ≤ m)%N
  | Some _, None => True
  | None, Some _ => False
  | None, None => True
  end.

Definition ownOrdered (entries : list (string * PreferenceValue)) : Prop :=
  StronglySorted keyOrder entries.*1.

(** The loops of [deepMerge] on an object that keeps the prototype
    [Object.prototype] and is given no key [__proto__], written without
    fuel in terms of [deepMerge] itself ([deepMerge_unfold] proves that they
    are what [deepMerge] computes on values that are [protoFree]). *)
Definition mergeProp (result : list (string * PreferenceValue))
    (entry : string * PreferenceValue) : list (string * PreferenceValue) :=
  let '(k, val) := entry in
  match val, ownProp result k with
  | VObject _, Some (VObject r) => storeOwn k (deepMerge [VObject r; val]) result
  | _, _ => storeOwn k val result
  end.

Definition mergeEntries (result entries : list (string * PreferenceValue))
  : list (string * PreferenceValue) :=
  foldl mergeProp result entries.

Definition mergeValue (result : list (string * PreferenceValue))
    (v : PreferenceValue) : list (string * PreferenceValue) :=
  match v with
  | VObject entries => mergeEntries result entries
  | _ => result
  end.

Definition mergeValues (values : list PreferenceValue)
  : list (string * PreferenceValue) :=
  foldl mergeValue [] values.

Definition deepMerge_unfolded (values : list PreferenceValue) : PreferenceValue :=
  if forallb isPlainObject values then VObject (mergeValues values)
  else default VNull (last values).


(** [resolveByMerge].  [resolve] calls it with two or more records; with
    none, [sorted[sorted.length - 1]] is [undefined] and the source would
    build an object that lacks the fields of a metadata record, which is
    reported here as an error. *)
Definition resolveByMerge (conflicts : list PreferenceMetadata)
  : Result PreferenceMetadata :=
  let sorted := sortBy byPriorityThenTimestamp conflicts in
  let mergedValue := deepMerge (value <$> sorted) in
  match last sorted with
  | None => Err (TypeError "resolveByMerge: no record to copy")
  | Some highestPriority =>
      Ok {| key := key highestPriority;
            value := mergedValue;
            priority := priority highestPriority;
            source := "merged[" +:+ join "," (source <$> sorted) +:+ "]";
            timestamp := timestamp highestPriority;
            encrypted := encrypted highestPriority;
            validated := validated highestPriority;
            ttl := ttl highestPriority |}
  end.

(** [ConflictResolver.resolve] *)
Definition resolve (conflicts : list PreferenceMetadata) (strategy : ConflictResolution)
  : Result PreferenceMetadata :=
  match conflicts with
  | [] => Err (ConflictError "unknown" (source <$> conflicts))
  | [only] => Ok only
  | first :: _ =>
      match strategy with
      | HIGHEST_PRIORITY => resolveByHighestPriority conflicts
      | LOWEST_PRIORITY => resolveByLowestPriority conflicts
      | MERGE => resolveByMerge conflicts
      | OVERRIDE => resolveByOverride conflicts
      | ERROR => Err (ConflictError (key first) (source <$> conflicts))
      | UnrecognizedStrategy name =>
          Err (PlainError ("Unknown conflict resolution strategy: " +:+ name))
      end
  end.

(** The strategies that pick or build a record, as opposed to ERROR and the
    unrecognized ones. *)
Definition resolves (strategy : ConflictResolution) : bool :=
  match strategy with
  | HIGHEST_PRIORITY | LOWEST_PRIORITY | MERGE | OVERRIDE => true
  | _ => false
  end.

(** The strategies that return one of the records. *)
Definition selects (strategy : ConflictResolution) : bool :=
  match strategy with
  | HIGHEST_PRIORITY | LOWEST_PRIORITY | OVERRIDE => true
  | _ => false
  end.

(** The value is one that [JSON.parse] builds with no own property named
    [__proto__]: in every mapping inside it, the keys are pairwise distinct,
    none is [__proto__], and they come in [Object.entries] order. *)
Fixpoint wfValue (v : PreferenceValue) : Prop :=
  match v with
  | VObject entries =>
      NoDup entries.*1 ∧ "__proto__" ∉ entries.*1 ∧
      StronglySorted keyOrder entries.*1 ∧
      (fix go (es : list (string * PreferenceValue)) : Prop :=
         match es with
         | [] => True
         | (_, x) :: es' => wfValue x ∧ go es'
         end) entries
  | _ => True
  end.

(** Records used to exercise the resolver. *)
Definition record (src : string) (prio stamp : Z) (v : PreferenceValue)
  : PreferenceMetadata :=
  {| key := "theme"; value := v; priority := prio; source := src;
     timestamp := stamp; encrypted := None; validated := None; ttl := None |}.

Definition lowFirst : list PreferenceMetadata :=
  [ record "a" 25 1000 (VObject [("a", VNumber 1)]);
    record "b" 75 1000 (VObject [("b", VNumber 2)]) ].

Definition highFirst : list PreferenceMetadata :=
  [ record "a" 75 1000 (VObject [("a", VNumber 1)]);
    record "b" 25 1000 (VObject [("b", VNumber 2)]) ].

Definition samePriority : list PreferenceMetadata :=
  [ record "new" 50 2000 (VString "dark");
    record "old" 50 1000 (VString "light") ].

End ConflictResolver.

(** ** Cache ([src/utils/cache.ts]) *)

Record CacheEntry : Type := mkEntry {
  entryValue : PreferenceMetadata;
  expiresAt : Z
}.

Module LRUCache.

Local Open Scope Z_scope.

(** The object: [cache] is the [Map], [accessOrder] the recency array, least
    recently used first. *)
Record t : Type := mk {
  cache : gmap string CacheEntry;
  accessOrder : list string;
  maxSize : nat;
  defaultTTL : Z
}.

Definition new (maxSize : nat) (defaultTTL : Z) : t :=
  {| cache := ∅; accessOrder := []; maxSize := maxSize; defaultTTL := defaultTTL |}.

(** [indexOf] followed by [splice(index, 1)]: the first occurrence goes. *)
Fixpoint removeFirst (key : string) (order : list string) : list string :=
  match order with
  | [] => []
  | k :: order' => if String.eqb k key then order' else k :: removeFirst key order'
  end.

Definition removeFromAccessOrder (key : string) (c : t) : t :=
  {| cache := cache c; accessOrder := removeFirst key (accessOrder c);
     maxSize := maxSize c; defaultTTL := defaultTTL c |}.

Definition updateAccessOrder (key : string) (c : t) : t :=
  let c := removeFromAccessOrder key c in
  {| cache := cache c; accessOrder := accessOrder c ++ [key];
     maxSize := maxSize c; defaultTTL := defaultTTL c |}.

(** [delete]: the answer of [Map.delete] and the cache afterwards. *)
Definition delete (key : string) (c : t) : bool * t :=
  let c := removeFromAccessOrder key c in
  (bool_decide (is_Some (cache c !! key)),
   {| cache := base.delete key (cache c); accessOrder := accessOrder c;
      maxSize := maxSize c; defaultTTL := defaultTTL c |}).

Definition evictOldest (c : t) : t :=
  match accessOrder c with
  | [] => c
  | oldestKey :: _ => (delete oldestKey c).2
  end.

(** [get]; [now] is the reading of [Date.now()]. *)
Definition get (now : Z) (key : string) (c : t) : option PreferenceMetadata * t :=
  match cache c !! key with
  | None => (None, c)
  | Some entry =>
      if now >? expiresAt entry then (None, (delete key c).2)
      else (Some (entryValue entry), updateAccessOrder key c)
  end.

(** [ttl || this.defaultTTL] *)
Definition ttlOrDefault (ttl : option Z) (c : t) : Z :=
  match ttl with
  | Some n => if n =? 0 then defaultTTL c else n
  | None => defaultTTL c
  end.

Definition set (now : Z) (key : string) (value : PreferenceMetadata)
    (ttl : option Z) (c : t) : t :=
  let expiresAt := now + ttlOrDefault ttl c in
  let c := if bool_decide (is_Some (cache c !! key))
           then removeFromAccessOrder key c else c in
  let c := {| cache := <[key := mkEntry value expiresAt]> (cache c);
              accessOrder := accessOrder c ++ [key];
              maxSize := maxSize c; defaultTTL := defaultTTL c |} in
  if (maxSize c <? base.size (cache c))%nat then evictOldest c else c.

Definition has (now : Z) (key : string) (c : t) : bool * t :=
  match cache c !! key with
  | None => (false, c)
  | Some entry =>
      if now >? expiresAt entry then (false, (delete key c).2) else (true, c)
  end.

Definition clear (c : t) : t :=
  {| cache := ∅; accessOrder := []; maxSize := maxSize c; defaultTTL := defaultTTL c |}.

Definition size (c : t) : nat := base.size (cache c).

(** One call of [set], with the clock reading at the call. *)
Record SetCall : Type := mkSetCall {
  callNow : Z;
  callKey : string;
  callValue : PreferenceMetadata;
  callTtl : option Z
}.

Definition doSet (c : t) (call : SetCall) : t :=
  set (callNow call) (callKey call) (callValue call) (callTtl call) c.

(** The recency array lists each cached key once. *)
Definition consistent (c : t) : Prop :=
  NoDup (accessOrder c) ∧ ∀ k, k ∈ accessOrder c ↔ is_Some (cache c !! k).

(** A call of a method of the cache, and the cache it leaves. *)
Inductive Call : Type :=
| CallSet (call : SetCall)
| CallGet (now : Z) (key : string)
| CallHas (now : Z) (key : string)
| CallDelete (key : string)
| CallClear.

Definition perform (c : t) (call : Call) : t :=
  match call with
  | CallSet call => doSet c call
  | CallGet now key => (get now key c).2
  | CallHas now key => (has now key c).2
  | CallDelete key => (delete key c).2
  | CallClear => clear c
  end.

End LRUCache.

(** [TTLCache]: the same entries with no bound and no recency order.  Its
    periodic sweep runs on a timer and is not part of the embedding. *)
Module TTLCache.

Local Open Scope Z_scope.

Record t : Type := mk {
  cache : gmap string CacheEntry;
  defaultTTL : Z
}.

Definition new (defaultTTL : Z) : t := {| cache := ∅; defaultTTL := defaultTTL |}.

Definition delete (key : string) (c : t) : bool * t :=
  (bool_decide (is_Some (cache c !! key)),
   {| cache := base.delete key (cache c); defaultTTL := defaultTTL c |}).

Definition get (now : Z) (key : string) (c : t) : option PreferenceMetadata * t :=
  match cache c !! key with
  | None => (None, c)
  | Some entry =>
      if now >? expiresAt entry then (None, (delete key c).2)
      else (Some (entryValue entry), c)
  end.

Definition set (now : Z) (key : string) (value : PreferenceMetadata)
    (ttl : option Z) (c : t) : t :=
  let expiresAt :=
    now + match ttl with
          | Some n => if n =? 0 then defaultTTL c else n
          | None => defaultTTL c
          end in
  {| cache := <[key := mkEntry value expiresAt]> (cache c);
     defaultTTL := defaultTTL c |}.

Definition has (now : Z) (key : string) (c : t) : bool * t :=
  match cache c !! key with
  | None => (false, c)
  | Some entry =>
      if now >? expiresAt entry then (false, (delete key c).2) else (true, c)
  end.

Definition clear (c : t) : t := {| cache := ∅; defaultTTL := defaultTTL c |}.

Definition size (c : t) : nat := base.size (cache c).

End TTLCache.

(** The two implementations of the [Cache] interface the injector uses. *)
Inductive Cache : Type :=
| LRU (c : LRUCache.t)
| NoOpCache.

(** ** Collaborators of the injector *)

Record GetOptions : Type := mkGetOptions {
  defaultValue : option PreferenceValue;
  decrypt : option bool;
  useCache : option bool
}.

Record SetOptions : Type := mkSetOptions {
  optPriority : option Z;
  optTtl : option Z;
  encrypt : option bool;
  validate : option bool
}.

(** An optional boolean used as a condition, and [b !== false]. *)
Definition truthy (b : option bool) : bool :=
  match b with
  | Some true => true
  | _ => false
  end.

Definition notFalse (b : option bool) : bool :=
  match b with
  | Some false => false
  | _ => true
  end.

(** [Cache] methods, dispatched on the implementation. *)
Definition Cache_get (now : Z) (k : string) (c : Cache)
  : option PreferenceMetadata * Cache :=
  match c with
  | LRU l => let '(r, l') := LRUCache.get now k l in (r, LRU l')
  | NoOpCache => (None, NoOpCache)
  end.

Definition Cache_set (now : Z) (k : string) (m : PreferenceMetadata)
    (ttl : option Z) (c : Cache) : Cache :=
  match c with
  | LRU l => LRU (LRUCache.set now k m ttl l)
  | NoOpCache => NoOpCache
  end.

Definition Cache_delete (k : string) (c : Cache) : Cache :=
  match c with
  | LRU l => LRU (LRUCache.delete k l).2
  | NoOpCache => NoOpCache
  end.

(** *** Providers

    A provider is outside the core.  It is modelled as the in-memory
    provider of [src/providers/memory-provider.ts], to which are added the
    ways a file or remote provider can fail: each operation may reject, and
    [initialize] settles at some instant.  A write that rejects does so
    either after the provider has changed its own records
    ([FileProvider] updates its map and then fails to write the file) or
    before ([ApiProvider] fails to reach the server and leaves its records
    alone); [writesFirst] tells which. *)
Record PreferenceProvider : Type := mkProvider {
  name : string;
  providerPriority : Z;
  preferences : gmap string PreferenceMetadata;
  initSettles : nat;
  initFault : option PreferenceError;
  getFault : string → option PreferenceError;
  setFault : string → option PreferenceError;
  deleteFault : string → option PreferenceError;
  writesFirst : bool
}.

Module Provider.

Definition get (p : PreferenceProvider) (k : string)
  : Result (option PreferenceMetadata) :=
  match getFault p k with
  | Some e => Err e
  | None => Ok (preferences p !! k)
  end.

Definition withPreferences (p : PreferenceProvider)
    (prefs : gmap string PreferenceMetadata) : PreferenceProvider :=
  {| name := name p; providerPriority := providerPriority p;
     preferences := prefs;
     initSettles := initSettles p; initFault := initFault p;
     getFault := getFault p; setFault := setFault p;
     deleteFault := deleteFault p; writesFirst := writesFirst p |}.

(** [set]: the provider it leaves when it resolves, or the error it rejects
    with; the provider that a rejected [set] leaves is [rejectedSet] below. *)
Definition set (now : Z) (p : PreferenceProvider) (k : string)
    (v : PreferenceValue) (options : SetOptions) : Result PreferenceProvider :=
  match setFault p k with
  | Some e => Err e
  | None =>
      let metadata :=
        {| key := k; value := v;
           priority := match optPriority options with
                       | Some n => if (n =? 0)%Z then providerPriority p else n
                       | None => providerPriority p
                       end;
           source := name p; timestamp := now;
           encrypted := encrypt options; validated := validate options;
           ttl := optTtl options |} in
      Ok (withPreferences p (<[k := metadata]> (preferences p)))
  end.

(** [delete]: its answer and the provider it leaves when it resolves, or the
    error it rejects with; the provider that a rejected [delete] leaves is
    [rejectedDelete] below. *)
Definition delete (p : PreferenceProvider) (k : string)
  : Result (bool * PreferenceProvider) :=
  match deleteFault p k with
  | Some e => Err e
  | None =>
      Ok (bool_decide (is_Some (preferences p !! k)),
          withPreferences p (base.delete k (preferences p)))
  end.

(** The record that [set] stores. *)
Definition stored (now : Z) (p : PreferenceProvider) (k : string)
    (v : PreferenceValue) (options : SetOptions) : PreferenceMetadata :=
  {| key := k; value := v;
     priority := match optPriority options with
                 | Some n => if (n =? 0)%Z then providerPriority p else n
                 | None => providerPriority p
                 end;
     source := name p; timestamp := now;
     encrypted := encrypt options; validated := validate options;
     ttl := optTtl options |}.

(** The provider after a [set] that did not reject. *)
Definition written (now : Z) (k : string) (v : PreferenceValue)
    (options : SetOptions) (p : PreferenceProvider) : PreferenceProvider :=
  withPreferences p (<[k := stored now p k v options]> (preferences p)).

(** The provider after a [delete] that did not reject. *)
Definition deleted (k : string) (p : PreferenceProvider) : PreferenceProvider :=
  withPreferences p (base.delete k (preferences p)).

(** The provider after a [set] that rejected: it holds the record when it
    stores before the step that fails. *)
Definition rejectedSet (now : Z) (k : string) (v : PreferenceValue)
    (options : SetOptions) (p : PreferenceProvider) : PreferenceProvider :=
  if writesFirst p then written now k v options p else p.

(** The provider after a [delete] that rejected. *)
Definition rejectedDelete (k : string) (p : PreferenceProvider) : PreferenceProvider :=
  if writesFirst p then deleted k p else p.

(** [has], [getAll] and [clear], as in the in-memory provider. *)
Definition has (p : PreferenceProvider) (k : string) : bool :=
  bool_decide (is_Some (preferences p !! k)).

Definition getAll (p : PreferenceProvider) : gmap string PreferenceMetadata :=
  preferences p.

Definition clear (p : PreferenceProvider) : PreferenceProvider :=
  withPreferences p ∅.

(** [new MemoryProvider(priority)] with the given contents; it never
    rejects. *)
Definition memory (prio : Z) (prefs : gmap string PreferenceMetadata)
  : PreferenceProvider :=
  {| name := "memory"; providerPriority := prio; preferences := prefs;
     initSettles := 0; initFault := None;
     getFault := λ _, None; setFault := λ _, None; deleteFault := λ _, None;
     writesFirst := false |}.

(** A file provider whose file cannot be written: [set] and [delete] change
    the records and then reject. *)
Definition unwritableFile (prefs : gmap string PreferenceMetadata)
  : PreferenceProvider :=
  {| name := "file"; providerPriority := 50; preferences := prefs;
     initSettles := 0; initFault := None;
     getFault := λ _, None;
     setFault := λ _, Some (ProviderError "file" "set");
     deleteFault := λ _, Some (ProviderError "file" "delete");
     writesFirst := true |}.

(** A remote provider whose server cannot be reached for writing: [set] and
    [delete] reject and leave the records alone. *)
Definition unreachableApi (prefs : gmap string PreferenceMetadata)
  : PreferenceProvider :=
  {| name := "api"; providerPriority := 50; preferences := prefs;
     initSettles := 0; initFault := None;
     getFault := λ _, None;
     setFault := λ _, Some (ProviderError "api" "set");
     deleteFault := λ _, Some (ProviderError "api" "delete");
     writesFirst := false |}.

(** A provider whose [initialize] rejects at instant [t] and whose reads
    reject. *)
Definition broken (src : string) (t : nat) : PreferenceProvider :=
  {| name := src; providerPriority := 50; preferences := ∅;
     initSettles := t;
     initFault := Some (ProviderInitializationError src);
     getFault := λ _, Some (ProviderError src "get");
     setFault := λ _, None; deleteFault := λ _, None; writesFirst := false |}.

End Provider.

(** *** Validator ([src/utils/validator.ts]) *)

Inductive RuleOutcome : Type :=
| Passes
| Fails
| Throws (message : string).

Record ValidationRule : Type := mkRule {
  ruleName : string;
  ruleValidate : PreferenceValue → RuleOutcome;
  ruleMessage : option string
}.

Record ValidationResult : Type := mkValidationResult {
  valid : bool;
  errors : list ValidationError
}.

Record PreferenceValidator : Type := mkValidator {
  rules : gmap string (list ValidationRule)
}.

Module Validator.

Definition new : PreferenceValidator := {| rules := ∅ |}.

Definition addRule (k : string) (r : ValidationRule) (v : PreferenceValidator)
  : PreferenceValidator :=
  {| rules := <[k := default [] (rules v !! k) ++ [r]]> (rules v) |}.

Definition checkRule (v : PreferenceValue) (r : ValidationRule)
  : list ValidationError :=
  match ruleValidate r v with
  | Passes => []
  | Fails =>
      [ {| rule := ruleName r;
           message := match ruleMessage r with
                      | Some m => if String.eqb m "" then "Validation failed for rule: " +:+ ruleName r else m
                      | None => "Validation failed for rule: " +:+ ruleName r
                      end;
           rejected := v |} ]
  | Throws m =>
      [ {| rule := ruleName r; message := "Validation error: " +:+ m; rejected := v |} ]
  end.

Definition validate (vd : PreferenceValidator) (k : string) (v : PreferenceValue)
  : ValidationResult :=
  match rules vd !! k with
  | None | Some [] => {| valid := true; errors := [] |}
  | Some rs =>
      let errs := rs ≫= checkRule v in
      {| valid := bool_decide (length errs = 0%nat); errors := errs |}
  end.

(** [getRules] *)
Definition getRules (k : string) (vd : PreferenceValidator) : list ValidationRule :=
  default [] (rules vd !! k).

(** [removeRule] *)
Definition removeRule (k : string) (ruleName' : string) (vd : PreferenceValidator)
  : PreferenceValidator :=
  match rules vd !! k with
  | None => vd
  | Some rs =>
      let filtered := List.filter (λ r, negb (String.eqb (ruleName r) ruleName')) rs in
      match filtered with
      | [] => {| rules := base.delete k (rules vd) |}
      | _ => {| rules := <[k := filtered]> (rules vd) |}
      end
  end.

(** [removeAllRules] and [clear] *)
Definition removeAllRules (k : string) (vd : PreferenceValidator) : PreferenceValidator :=
  {| rules := base.delete k (rules vd) |}.

Definition clear (vd : PreferenceValidator) : PreferenceValidator := {| rules := ∅ |}.

(** The rule accepts the value. *)
Definition passes (r : ValidationRule) (v : PreferenceValue) : bool :=
  match ruleValidate r v with
  | Passes => true
  | _ => false
  end.

End Validator.

(** *** Audit log ([src/utils/audit.ts]) *)

Inductive AuditAction : Type := GET | SET | DELETE | CLEAR | VALIDATE | ENCRYPT | DECRYPT.

Record AuditLogEntry : Type := mkAudit {
  auditTimestamp : Z;
  action : AuditAction;
  auditKey : string;
  auditValue : option PreferenceValue;
  auditOldValue : option PreferenceValue;
  auditProvider : string
}.

Inductive AuditLogger : Type :=
| InMemoryAuditLogger (entries : list AuditLogEntry) (maxEntries : nat)
| NoOpAuditLogger.

Module Audit.

(** [entries.slice(-n)]; [slice(-0)] is the whole array. *)
Definition sliceLast {A} (n : nat) (l : list A) : list A :=
  match n with
  | O => l
  | _ => drop (length l - n) l
  end.

Definition log (entry : AuditLogEntry) (a : AuditLogger) : AuditLogger :=
  match a with
  | InMemoryAuditLogger entries maxEntries =>
      let entries := entries ++ [entry] in
      InMemoryAuditLogger
        (if (maxEntries <? length entries)%nat then sliceLast maxEntries entries
         else entries)
        maxEntries
  | NoOpAuditLogger => NoOpAuditLogger
  end.

(** [getEntries()] with no filter, [count] and [clear]. *)
Definition entriesOf (a : AuditLogger) : list AuditLogEntry :=
  match a with
  | InMemoryAuditLogger entries _ => entries
  | NoOpAuditLogger => []
  end.

Definition count (a : AuditLogger) : nat := length (entriesOf a).

Definition clear (a : AuditLogger) : AuditLogger :=
  match a with
  | InMemoryAuditLogger _ maxEntries => InMemoryAuditLogger [] maxEntries
  | NoOpAuditLogger => NoOpAuditLogger
  end.

End Audit.

(** *** Encryption service and events *)

Record EncryptionService : Type := mkEncryption {
  encryptString : string → Result string;
  decryptString : string → Result string;
  isEncrypted : string → bool
}.

Definition NoOpEncryptionService : EncryptionService :=
  {| encryptString := λ v, Ok v;
     decryptString := λ v, Ok v;
     isEncrypted := λ _, false |}.

Inductive PreferenceEvent : Type := CHANGED | ADDED | REMOVED | CLEARED.

Record PreferenceChangeEvent : Type := mkEvent {
  eventType : PreferenceEvent;
  eventKey : string;
  newValue : option PreferenceValue;
  oldValue : option PreferenceValue;
  eventProvider : string;
  eventTimestamp : Z
}.

Record InjectorConfig : Type := mkConfig {
  configProviders : option (list PreferenceProvider);
  configConflictResolution : option ConflictResolution;
  enableCache : option bool;
  cacheTTL : option Z;
  enableValidation : option bool;
  enableEncryption : option bool;
  enableAudit : option bool;
  encryptionKey : option string
}.

(** ** PreferenceInjector ([src/core/injector.ts]) *)

Record PreferenceInjector : Type := mkInjector {
  providers : list PreferenceProvider;
  conflictResolution : ConflictResolution;
  cache : Cache;
  validator : PreferenceValidator;
  auditLogger : AuditLogger;
  encryptionService : EncryptionService;
  initialized : bool
}.

(** What a method does besides changing the injector: the entries it hands to
    [auditLogger.log], the events it hands to [emitEvent] (which passes them
    to the listeners of that type and swallows what they throw), and its
    calls of [validator.validate]. *)
Inductive Effect : Type :=
| Logged (entry : AuditLogEntry)
| Emitted (event : PreferenceChangeEvent)
| ValidatorCalled (k : string) (v : PreferenceValue).

(** A run of an asynchronous method: how it settled, the injector it left
    and its effects in order.  A rejected run keeps the changes made before
    the rejection. *)
Record Run (A : Type) : Type := mkRun {
  result : Result A;
  after : PreferenceInjector;
  effects : list Effect
}.
Arguments mkRun {A} result after effects.
Arguments result {A} r.
Arguments after {A} r.
Arguments effects {A} r.

Definition Method (A : Type) : Type := PreferenceInjector → Run A.

#[global] Instance Method_ret : MRet Method := λ A a s, mkRun (Ok a) s [].
#[global] Instance Method_bind : MBind Method := λ A B f m s,
  let r := m s in
  match result r with
  | Ok a =>
      let r' := f a (after r) in
      mkRun (result r') (after r') (effects r ++ effects r')
  | Err e => mkRun (Err e) (after r) (effects r)
  end.

(** The methods take [now], the reading of the clock ([new Date()],
    [Date.now()]) during the call. *)
Module Injector.

Local Open Scope Z_scope.

Definition throw {A} (e : PreferenceError) : Method A := λ s, mkRun (Err e) s [].

(** [await] of something that does not touch the injector. *)
Definition await {A} (r : Result A) : Method A := λ s, mkRun r s [].

(** [promise.catch(() => undefined)] *)
Definition catchUndefined {A} (m : Method A) : Method (option A) := λ s,
  let r := m s in
  mkRun (Ok (match result r with Ok a => Some a | Err _ => None end))
        (after r) (effects r).

Definition read {A} (f : PreferenceInjector → A) : Method A := λ s, mkRun (Ok (f s)) s [].

Definition withProviders (s : PreferenceInjector) (ps : list PreferenceProvider)
  : PreferenceInjector :=
  {| providers := ps; conflictResolution := conflictResolution s;
     cache := cache s; validator := validator s; auditLogger := auditLogger s;
     encryptionService := encryptionService s; initialized := initialized s |}.

Definition withCache (s : PreferenceInjector) (c : Cache) : PreferenceInjector :=
  {| providers := providers s; conflictResolution := conflictResolution s;
     cache := c; validator := validator s; auditLogger := auditLogger s;
     encryptionService := encryptionService s; initialized := initialized s |}.

Definition withAuditLogger (s : PreferenceInjector) (a : AuditLogger)
  : PreferenceInjector :=
  {| providers := providers s; conflictResolution := conflictResolution s;
     cache := cache s; validator := validator s; auditLogger := a;
     encryptionService := encryptionService s; initialized := initialized s |}.

Definition withInitialized (s : PreferenceInjector) (b : bool) : PreferenceInjector :=
  {| providers := providers s; conflictResolution := conflictResolution s;
     cache := cache s; validator := validator s; auditLogger := auditLogger s;
     encryptionService := encryptionService s; initialized := b |}.

(** [this.auditLogger.log(entry)] *)
Definition log (entry : AuditLogEntry) : Method () := λ s,
  mkRun (Ok ()) (withAuditLogger s (Audit.log entry (auditLogger s))) [Logged entry].

Definition emitEvent (event : PreferenceChangeEvent) : Method () := λ s,
  mkRun (Ok ()) s [Emitted event].

Definition cacheGet (now : Z) (k : string) : Method (option PreferenceMetadata) := λ s,
  let '(r, c) := Cache_get now k (cache s) in mkRun (Ok r) (withCache s c) [].

Definition cacheSet (now : Z) (k : string) (m : PreferenceMetadata) (ttl : option Z)
  : Method () := λ s,
  mkRun (Ok ()) (withCache s (Cache_set now k m ttl (cache s))) [].

Definition cacheDelete (k : string) : Method () := λ s,
  mkRun (Ok ()) (withCache s (Cache_delete k (cache s))) [].

(** [await this.validator.validate(key, value)] *)
Definition callValidator (k : string) (v : PreferenceValue) : Method ValidationResult :=
  λ s, mkRun (Ok (Validator.validate (validator s) k v)) s [ValidatorCalled k v].

(** [new PreferenceInjector(config)] *)
Definition constructor (config : option InjectorConfig) : PreferenceInjector :=
  {| conflictResolution :=
       match config ≫= configConflictResolution with
       | Some (UnrecognizedStrategy "") | None => HIGHEST_PRIORITY
       | Some strategy => strategy
       end;
     cache :=
       if truthy (config ≫= enableCache)
       then LRU (LRUCache.new 1000
                   match config ≫= cacheTTL with
                   | Some n => if n =? 0 then 3600000 else n
                   | None => 3600000
                   end)
       else NoOpCache;
     validator :=
       if truthy (config ≫= enableValidation) then Validator.new else Validator.new;
     auditLogger :=
       if truthy (config ≫= enableAudit) then InMemoryAuditLogger [] 10000
       else NoOpAuditLogger;
     encryptionService := NoOpEncryptionService;
     providers := default [] (config ≫= configProviders);
     initialized := false |}.

(** [Promise.all] over the [initialize] promises: it rejects with the
    rejection that settles first (the earlier provider at equal instants). *)
Fixpoint firstRejection (ps : list PreferenceProvider)
  : option (nat * PreferenceError) :=
  match ps with
  | [] => None
  | p :: ps' =>
      match initFault p, firstRejection ps' with
      | Some e, Some (t, e') =>
          if (initSettles p <=? t)%nat then Some (initSettles p, e) else Some (t, e')
      | Some e, None => Some (initSettles p, e)
      | None, later => later
      end
  end.

Definition promiseAllInitialize (ps : list PreferenceProvider) : Result () :=
  match firstRejection ps with
  | Some (_, e) => Err e
  | None => Ok ()
  end.

Definition initialize : Method () := λ s,
  if initialized s then mkRun (Ok ()) s []
  else
    match promiseAllInitialize (providers s) with
    | Err e => mkRun (Err e) s []
    | Ok _ => mkRun (Ok ()) (withInitialized s true) []
    end.

(** The loop of [get] over the providers. *)
Fixpoint gather (k : string) (ps : list PreferenceProvider)
    (results : list PreferenceMetadata) : Result (list PreferenceMetadata) :=
  match ps with
  | [] => Ok results
  | p :: ps' =>
      match Provider.get p k with
      | Err e => Err e
      | Ok (Some metadata) => gather k ps' (results ++ [metadata])
      | Ok None => gather k ps' results
      end
  end.

(** The array [results] of a run of [get] at the test
    [results.length === 0]; [None] when the run does not get there, because
    it returned the cached value or because a provider rejected. *)
Definition collected (now : Z) (k : string) (options : option GetOptions)
    (s : PreferenceInjector) : option (list PreferenceMetadata) :=
  match (if notFalse (options ≫= useCache)
         then (Cache_get now k (cache s)).1 else None) with
  | Some _ => None
  | None =>
      match gather k (providers s) [] with
      | Ok results => Some results
      | Err _ => None
      end
  end.

Definition withValue (m : PreferenceMetadata) (v : PreferenceValue) : PreferenceMetadata :=
  {| key := key m; value := v; priority := priority m; source := source m;
     timestamp := timestamp m; encrypted := encrypted m;
     validated := validated m; ttl := ttl m |}.

Definition get (now : Z) (k : string) (options : option GetOptions)
  : Method PreferenceValue :=
  let useCache := notFalse (options ≫= useCache) in
  cached ← (if useCache then cacheGet now k else mret None);
  match cached with
  | Some m =>
      log {| auditTimestamp := now; action := GET; auditKey := k;
             auditValue := Some (value m); auditOldValue := None;
             auditProvider := "cache" |};;
      mret (value m)
  | None =>
      ps ← read providers;
      results ← await (gather k ps []);
      match results with
      | [] =>
          match options ≫= defaultValue with
          | Some d => mret d
          | None => throw (PreferenceNotFoundError k)
          end
      | _ =>
          strategy ← read conflictResolution;
          resolved ← await (ConflictResolver.resolve results strategy);
          service ← read encryptionService;
          v ← match value resolved with
              | VString str =>
                  if truthy (options ≫= decrypt) && isEncrypted service str then
                    plain ← await (decryptString service str);
                    log {| auditTimestamp := now; action := DECRYPT; auditKey := k;
                           auditValue := None; auditOldValue := None;
                           auditProvider := source resolved |};;
                    mret (VString plain)
                  else mret (value resolved)
              | other => mret other
              end;
          (if useCache then cacheSet now k (withValue resolved v) (ttl resolved)
           else mret ());;
          log {| auditTimestamp := now; action := GET; auditKey := k;
                 auditValue := Some v; auditOldValue := None;
                 auditProvider := source resolved |};;
          mret v
      end
  end.

(** The loop of [set] over the providers: the providers written so far are
    kept when one rejects, and the one that rejects is as its own [set] left
    it. *)
Fixpoint setAll (now : Z) (k : string) (v : PreferenceValue)
    (options : SetOptions) (ps : list PreferenceProvider)
  : list PreferenceProvider * option PreferenceError :=
  match ps with
  | [] => ([], None)
  | p :: ps' =>
      match Provider.set now p k v options with
      | Err e => (Provider.rejectedSet now k v options p :: ps', Some e)
      | Ok p' =>
          let '(rest, failure) := setAll now k v options ps' in
          (p' :: rest, failure)
      end
  end.

Definition writeProviders (now : Z) (k : string) (v : PreferenceValue)
    (options : SetOptions) : Method () := λ s,
  let '(ps, failure) := setAll now k v options (providers s) in
  mkRun (match failure with Some e => Err e | None => Ok () end)
        (withProviders s ps) [].

(** [set] after the capture of the old value. *)
Definition setWithOld (now : Z) (k : string) (v : PreferenceValue)
    (options : option SetOptions) (old : option PreferenceValue) : Method () :=
  (if notFalse (options ≫= validate) then
     validationResult ← callValidator k v;
     if negb (valid validationResult)
     then throw (ValidationFailed (errors validationResult))
     else log {| auditTimestamp := now; action := VALIDATE; auditKey := k;
                 auditValue := Some v; auditOldValue := None;
                 auditProvider := "validator" |}
   else mret ());;
  service ← read encryptionService;
  finalValue ← match v with
               | VString str =>
                   if truthy (options ≫= encrypt) then
                     secret ← await (encryptString service str);
                     log {| auditTimestamp := now; action := ENCRYPT; auditKey := k;
                            auditValue := None; auditOldValue := None;
                            auditProvider := "encryption" |};;
                     mret (VString secret)
                   else mret v
               | _ => mret v
               end;
  writeProviders now k finalValue
    (default (mkSetOptions None None None None) options);;
  cacheDelete k;;
  log {| auditTimestamp := now; action := SET; auditKey := k;
         auditValue := Some finalValue; auditOldValue := old;
         auditProvider := "injector" |};;
  emitEvent {| eventType := match old with None => ADDED | Some _ => CHANGED end;
               eventKey := k; newValue := Some v; oldValue := old;
               eventProvider := "injector"; eventTimestamp := now |}.

Definition noCache : option GetOptions :=
  Some {| defaultValue := None; decrypt := None; useCache := Some false |}.

Definition set (now : Z) (k : string) (v : PreferenceValue)
    (options : option SetOptions) : Method () :=
  old ← catchUndefined (get now k noCache);
  setWithOld now k v options old.

(** The loop of [delete] over the providers. *)
Fixpoint deleteAll (k : string) (ps : list PreferenceProvider) (deleted : bool)
  : list PreferenceProvider * Result bool :=
  match ps with
  | [] => ([], Ok deleted)
  | p :: ps' =>
      match Provider.delete p k with
      | Err e => (Provider.rejectedDelete k p :: ps', Err e)
      | Ok (answer, p') =>
          let '(rest, r) := deleteAll k ps' (deleted || answer) in
          (p' :: rest, r)
      end
  end.

Definition deleteWithOld (now : Z) (k : string) (old : option PreferenceValue)
  : Method bool :=
  deleted ← (λ s, let '(ps, r) := deleteAll k (providers s) false in
                  mkRun r (withProviders s ps) []);
  (if deleted : bool then
     cacheDelete k;;
     log {| auditTimestamp := now; action := DELETE; auditKey := k;
            auditValue := None; auditOldValue := old;
            auditProvider := "injector" |};;
     emitEvent {| eventType := REMOVED; eventKey := k; newValue := None;
                  oldValue := old; eventProvider := "injector";
                  eventTimestamp := now |}
   else mret ());;
  mret deleted.

Definition delete (now : Z) (k : string) : Method bool :=
  old ← catchUndefined (get now k noCache);
  deleteWithOld now k old.

(** [addProvider] *)
Definition addProvider (p : PreferenceProvider) : Method () := λ s,
  mkRun (Ok ()) (withProviders s (providers s ++ [p])) [].

(** [findIndex] by name followed by [splice(index, 1)]. *)
Fixpoint removeNamed (providerName : string) (ps : list PreferenceProvider)
  : option (list PreferenceProvider) :=
  match ps with
  | [] => None
  | p :: ps' =>
      if String.eqb (name p) providerName then Some ps'
      else cons p <$> removeNamed providerName ps'
  end.

(** [removeProvider] *)
Definition removeProvider (providerName : string) : Method bool := λ s,
  match removeNamed providerName (providers s) with
  | Some ps => mkRun (Ok true) (withProviders s ps) []
  | None => mkRun (Ok false) s []
  end.

Definition withEncryptionService (s : PreferenceInjector) (service : EncryptionService)
  : PreferenceInjector :=
  {| providers := providers s; conflictResolution := conflictResolution s;
     cache := cache s; validator := validator s; auditLogger := auditLogger s;
     encryptionService := service; initialized := initialized s |}.

(** [setEncryptionService] *)
Definition setEncryptionService (service : EncryptionService) : Method () := λ s,
  mkRun (Ok ()) (withEncryptionService s service) [].

(** [getTyped] is [get]; the type argument leaves no trace at run time. *)
Definition getTyped (now : Z) (k : string) (options : option GetOptions)
  : Method PreferenceValue :=
  get now k options.

(** [has]: the first provider that has the key ends the loop. *)
Definition has (k : string) : Method bool := λ s,
  mkRun (Ok (existsb (λ p, Provider.has p k) (providers s))) s [].

(** The value [set] hands to the providers: the value itself, or its
    encryption when the options ask for it and the value is a string. *)
Definition storedValue (service : EncryptionService) (options : option SetOptions)
    (v : PreferenceValue) : Result PreferenceValue :=
  match v with
  | VString str =>
      if truthy (options ≫= encrypt) then
        match encryptString service str with
        | Ok secret => Ok (VString secret)
        | Err e => Err e
        end
      else Ok v
  | _ => Ok v
  end.

(** What [get] returns for the resolved record: its value, or the decrypted
    string when the options ask for it and the service recognises the value
    as encrypted. *)
Definition returnedValue (service : EncryptionService) (options : option GetOptions)
    (resolved : PreferenceMetadata) : Result PreferenceValue :=
  match value resolved with
  | VString str =>
      if truthy (options ≫= decrypt) && isEncrypted service str then
        match decryptString service str with
        | Ok plain => Ok (VString plain)
        | Err e => Err e
        end
      else Ok (value resolved)
  | other => Ok other
  end.

(** The options [set] passes to the providers. *)
Definition providerOptions (options : option SetOptions) : SetOptions :=
  default (mkSetOptions None None None None) options.

(** The effect is neither an event nor a SET audit entry. *)
Definition notWritten (eff : Effect) : Prop :=
  match eff with
  | Emitted _ => False
  | Logged entry => action entry ≠ SET
  | ValidatorCalled _ _ => True
  end.

(** The method leaves [f] of the injector as it was. *)
Definition keeps {A B} (f : PreferenceInjector → B) (m : Method A) : Prop :=
  ∀ s, f (after (m s)) = f s.

(** Every effect of the method satisfies [P], whatever the injector. *)
Definition emits {A} (P : Effect → Prop) (m : Method A) : Prop :=
  ∀ s, Forall P (effects (m s)).

(** If the method succeeds, the effect is among its effects. *)
Definition onSuccess {A} (eff : Effect) (m : Method A) : Prop :=
  ∀ s a, result (m s) = Ok a → eff ∈ effects (m s).

(** The VALIDATE entry [set] writes. *)
Definition validateEntry (now : Z) (k : string) (v : PreferenceValue) : AuditLogEntry :=
  {| auditTimestamp := now; action := VALIDATE; auditKey := k;
     auditValue := Some v; auditOldValue := None; auditProvider := "validator" |}.

(** The effect is not a VALIDATE audit entry. *)
Definition notValidateLog (eff : Effect) : Prop :=
  match eff with
  | Logged entry => action entry ≠ VALIDATE
  | _ => True
  end.

(** The effect is neither a call of the validator nor a VALIDATE entry. *)
Definition noValidation (eff : Effect) : Prop :=
  match eff with
  | Logged entry => action entry ≠ VALIDATE
  | ValidatorCalled _ _ => False
  | Emitted _ => True
  end.

(** The effect is an audit entry of a read. *)
Definition readLog (eff : Effect) : Prop :=
  match eff with
  | Logged entry => action entry = GET ∨ action entry = DECRYPT
  | _ => False
  end.

(** If the effect is an event, it is an ADDED event with no old value. *)
Definition addedOnly (eff : Effect) : Prop :=
  match eff with
  | Emitted event => eventType event = ADDED ∧ oldValue event = None
  | _ => True
  end.

(** If the effect is an event, it carries no old value. *)
Definition noOldValue (eff : Effect) : Prop :=
  match eff with
  | Emitted event => oldValue event = None
  | _ => True
  end.

Definition withEnableValidation (config : InjectorConfig) (flag : option bool)
  : InjectorConfig :=
  {| configProviders := configProviders config;
     configConflictResolution := configConflictResolution config;
     enableCache := enableCache config; cacheTTL := cacheTTL config;
     enableValidation := flag;
     enableEncryption := enableEncryption config;
     enableAudit := enableAudit config;
     encryptionKey := encryptionKey config |}.

(** Injectors used to exercise the methods. *)
Definition stored (v : PreferenceValue) (prio : Z) : gmap string PreferenceMetadata :=
  {[ "theme" := {| key := "theme"; value := v; priority := prio;
                   source := "memory"; timestamp := 0; encrypted := None;
                   validated := None; ttl := None |} ]}.

(** Two providers hold the key and the strategy is ERROR. *)
Definition conflicted : PreferenceInjector :=
  constructor (Some (mkConfig
    (Some [Provider.memory 25 (stored (VString "light") 25);
           Provider.memory 75 (stored (VString "dark") 75)])
    (Some ERROR) None None None None (Some true) None)).

(** One healthy provider and one that rejects. *)
Definition halfBroken : PreferenceInjector :=
  constructor (Some (mkConfig
    (Some [Provider.memory 50 ∅; Provider.broken "file" 3])
    None None None None None (Some true) None)).

(** A service that marks a string with the prefix of
    [AESEncryptionService] and refuses to decrypt a string without it. *)
Definition marking : EncryptionService :=
  {| encryptString := λ v, Ok ("encrypted:" +:+ v);
     decryptString := λ v,
       if String.prefix "encrypted:" v
       then Ok (String.substring 10 (String.length v - 10) v)
       else Err (EncryptionError "Failed to decrypt value");
     isEncrypted := String.prefix "encrypted:" |}.

(** A rule that rejects every value. *)
Definition rejectAll : ValidationRule :=
  {| ruleName := "never"; ruleValidate := λ _, Fails; ruleMessage := Some "rejected" |}.

(** An audited injector whose validator rejects every value of ["email"]. *)
Definition strict : PreferenceInjector :=
  let s := constructor (Some (mkConfig (Some [Provider.memory 50 ∅])
                                None None None (Some false) None (Some true) None)) in
  {| providers := providers s; conflictResolution := conflictResolution s;
     cache := cache s;
     validator := Validator.addRule "email" rejectAll (validator s);
     auditLogger := auditLogger s; encryptionService := encryptionService s;
     initialized := initialized s |}.

End Injector.

(** * Properties *)

(** ** ConflictResolver: selection strategies *)

Section resolver_selection.
Import ConflictResolver.
Local Open Scope Z_scope.

Lemma rank_le_trans a b c : rank_le a b → rank_le b c → rank_le a c.
Proof. unfold rank_le. lia. Qed.

Lemma pickHighest_cases h c :
  (pickHighest h c = h ∧ rank_le c h) ∨ (pickHighest h c = c ∧ rank_le h c).
Proof.
  unfold pickHighest, rank_le. rewrite !Z.gtb_ltb.
  destruct (Z.ltb_spec (priority h) (priority c)); [right; split; [done|lia]|].
  destruct (Z.eqb_spec (priority c) (priority h)); simpl; [|left; split; [done|lia]].
  destruct (Z.ltb_spec (timestamp h) (timestamp c)); [right|left]; (split; [done|lia]).
Qed.

Lemma pickLowest_cases l c :
  (pickLowest l c = l ∧ rank_le l c) ∨ (pickLowest l c = c ∧ rank_le c l).
Proof.
  unfold pickLowest, rank_le.
  destruct (Z.ltb_spec (priority c) (priority l)); [right; split; [done|lia]|].
  destruct (Z.eqb_spec (priority c) (priority l)); simpl; [|left; split; [done|lia]].
  destruct (Z.ltb_spec (timestamp c) (timestamp l)); [right|left]; (split; [done|lia]).
Qed.

Lemma foldl_pickHighest l : ∀ x,
  foldl pickHighest x l ∈ x :: l ∧
  ∀ c, c ∈ x :: l → rank_le c (foldl pickHighest x l).
Proof.
  induction l as [|y l IH]; intros x; simpl.
  - split; [set_solver|]. intros c ->%list_elem_of_singleton. unfold rank_le; lia.
  - destruct (IH (pickHighest x y)) as [Hin Hmax].
    assert (Hself : rank_le (pickHighest x y) (foldl pickHighest (pickHighest x y) l))
      by (apply Hmax; set_solver).
    destruct (pickHighest_cases x y) as [[E Hr]|[E Hr]]; rewrite E in *.
    + split; [set_solver|]. intros c Hc.
      apply elem_of_cons in Hc as [->|Hc]; [done|].
      apply elem_of_cons in Hc as [->|Hc]; [by eapply rank_le_trans|].
      apply Hmax; set_solver.
    + split; [set_solver|]. intros c Hc.
      apply elem_of_cons in Hc as [->|Hc]; [by eapply rank_le_trans|].
      apply Hmax; set_solver.
Qed.

Lemma foldl_pickLowest l : ∀ x,
  foldl pickLowest x l ∈ x :: l ∧
  ∀ c, c ∈ x :: l → rank_le (foldl pickLowest x l) c.
Proof.
  induction l as [|y l IH]; intros x; simpl.
  - split; [set_solver|]. intros c ->%list_elem_of_singleton. unfold rank_le; lia.
  - destruct (IH (pickLowest x y)) as [Hin Hmin].
    assert (Hself : rank_le (foldl pickLowest (pickLowest x y) l) (pickLowest x y))
      by (apply Hmin; set_solver).
    destruct (pickLowest_cases x y) as [[E Hr]|[E Hr]]; rewrite E in *.
    + split; [set_solver|]. intros c Hc.
      apply elem_of_cons in Hc as [->|Hc]; [done|].
      apply elem_of_cons in Hc as [->|Hc]; [by eapply rank_le_trans|].
      apply Hmin; set_solver.
    + split; [set_solver|]. intros c Hc.
      apply elem_of_cons in Hc as [->|Hc]; [by eapply rank_le_trans|].
      apply Hmin; set_solver.
Qed.

(** C1. With two or more records, HIGHEST_PRIORITY returns a record of the
    input whose priority is the greatest and whose timestamp is the greatest
    among the records of that priority; LOWEST_PRIORITY returns a record of
    the input whose priority is the smallest and whose timestamp is the
    smallest among the records of that priority. *)
Theorem C1_priority_strategies (conflicts : list PreferenceMetadata) :
  (2 ≤ length conflicts)%nat →
  (∃ r, resolve conflicts HIGHEST_PRIORITY = Ok r ∧ r ∈ conflicts ∧
        ∀ c, c ∈ conflicts →
          priority c ≤ priority r ∧
          (priority c = priority r → timestamp c ≤ timestamp r)) ∧
  (∃ r, resolve conflicts LOWEST_PRIORITY = Ok r ∧ r ∈ conflicts ∧
        ∀ c, c ∈ conflicts →
          priority r ≤ priority c ∧
          (priority c = priority r → timestamp r ≤ timestamp c)).
Proof.
  destruct conflicts as [|x [|y l]]; simpl; [lia..|]. intros _. split.
  - destruct (foldl_pickHighest (y :: l) x) as [Hin Hmax].
    eexists; split; [reflexivity|]. split; [exact Hin|].
    intros c Hc. specialize (Hmax c Hc). unfold rank_le in Hmax. simpl in *. lia.
  - destruct (foldl_pickLowest (y :: l) x) as [Hin Hmin].
    eexists; split; [reflexivity|]. split; [exact Hin|].
    intros c Hc. specialize (Hmin c Hc). unfold rank_le in Hmin. simpl in *. lia.
Qed.

Lemma C1_priority_strategies_witness :
  (2 ≤ length samePriority)%nat ∧
  (∃ r, resolve samePriority HIGHEST_PRIORITY = Ok r ∧ source r = "new") ∧
  (∃ r, resolve samePriority LOWEST_PRIORITY = Ok r ∧ source r = "old").
Proof.
  assert (2 ≤ length samePriority)%nat as Hlen by (simpl; lia).
  split; [exact Hlen|].
  destruct (C1_priority_strategies samePriority Hlen)
    as [(hi & Hhi & _ & _) (lo & Hlo & _ & _)].
  split.
  - exists hi. split; [exact Hhi|]. vm_compute in Hhi. by injection Hhi as <-.
  - exists lo. split; [exact Hlo|]. vm_compute in Hlo. by injection Hlo as <-.
Defined.

(** C6. A one-element collection is returned as it is under every strategy,
    ERROR and unrecognized strategies included. *)
Theorem C6_single_record_short_circuit (only : PreferenceMetadata)
    (strategy : ConflictResolution) :
  resolve [only] strategy = Ok only.
Proof. reflexivity. Qed.

End resolver_selection.

(** ** ConflictResolver: the MERGE strategy *)

Section resolver_merge.
Import ConflictResolver.

(** *** The fuel of [deepMerge] is enough *)

Lemma depth_VObject es : depth (VObject es) = S (entriesDepth es).
Proof.
  simpl. f_equal. induction es as [|[k v] es IH]; simpl; [done|].
  by rewrite IH.
Qed.

Lemma depth_VArray items : depth (VArray items) = depths items.
Proof.
  simpl. induction items as [|x items IH]; simpl; [done|]. by rewrite IH.
Qed.

Lemma depths_cons v vs : depths (v :: vs) = Nat.max (depth v) (depths vs).
Proof. reflexivity. Qed.

Lemma depths_lookup (items : list PreferenceValue) i x :
  items !! i = Some x → (depth x ≤ depths items)%nat.
Proof.
  revert i. induction items as [|y items IH]; intros [|i]; simpl; try done.
  - intros [= ->]. lia.
  - intros H%IH. lia.
Qed.

Lemma last_depth (vs : list PreferenceValue) :
  (depth (default VNull (last vs)) ≤ depths vs)%nat.
Proof.
  induction vs as [|v vs IH]; simpl; [lia|].
  destruct vs as [|w vs]; [simpl; lia|].
  rewrite last_cons_cons. simpl in *. lia.
Qed.

Lemma ownProp_depth o k v :
  ownProp o k = Some v → (depth v ≤ entriesDepth o)%nat.
Proof.
  induction o as [|[k' v'] o IH]; simpl; [done|].
  destruct (String.eqb k' k); [intros [= ->]; lia|].
  intros H%IH. lia.
Qed.

Lemma assignOwn_depth k v o b :
  (depth v ≤ b)%nat → (entriesDepth o ≤ b)%nat →
  (entriesDepth (assignOwn k v o) ≤ b)%nat.
Proof.
  intros Hv. induction o as [|[k' v'] o IH]; simpl; [lia|].
  destruct (String.eqb k' k); simpl; [lia|]. intros H.
  assert (entriesDepth (assignOwn k v o) ≤ b)%nat by (apply IH; lia). lia.
Qed.

Lemma insertIndexed_depth n k v o b :
  (depth v ≤ b)%nat → (entriesDepth o ≤ b)%nat →
  (entriesDepth (insertIndexed n k v o) ≤ b)%nat.
Proof.
  intros Hv. induction o as [|[k' v'] o IH]; simpl; [lia|]. intros H.
  destruct (arrayIndex k') as [m|]; [destruct (m <=? n)%N|]; simpl; lia.
Qed.

Lemma entriesDepth_app o o' :
  entriesDepth (o ++ o') = Nat.max (entriesDepth o) (entriesDepth o').
Proof. induction o as [|e o IH]; simpl; [done|]. rewrite IH. lia. Qed.

Lemma storeOwn_depth k v o b :
  (depth v ≤ b)%nat → (entriesDepth o ≤ b)%nat →
  (entriesDepth (storeOwn k v o) ≤ b)%nat.
Proof.
  intros Hv Ho. unfold storeOwn, createOwn.
  destruct (ownProp o k); [by apply assignOwn_depth|].
  destruct (arrayIndex k); [by apply insertIndexed_depth|].
  rewrite entriesDepth_app. simpl. lia.
Qed.

Lemma protoValue_depth p v :
  protoValue p = Some v → (depth v ≤ Nat.max 1 (protoDepth p))%nat.
Proof.
  destruct p as [| |items|own parent]; simpl; intros [= <-].
  - simpl. lia.
  - rewrite depth_VArray. lia.
  - rewrite depth_VObject. lia.
Qed.

Lemma inherited_depth p receiver k v :
  inherited p receiver k = Some v →
  (depth v ≤ Nat.max 1 (Nat.max (protoDepth p) (protoDepth receiver)))%nat.
Proof.
  induction p as [| |items|own parent IH]; cbn [inherited protoDepth].
  - destruct (String.eqb k "__proto__"); [|done].
    intros H%protoValue_depth. lia.
  - done.
  - destruct (arrayIndex k ≫= _) as [item|] eqn:Hitem.
    + intros [= <-]. destruct (arrayIndex k) as [n|]; [|done]. simpl in Hitem.
      apply depths_lookup in Hitem. lia.
    + destruct (String.eqb k "length"); [intros [= <-]; simpl; lia|].
      destruct (String.eqb k "__proto__"); [|done].
      intros H%protoValue_depth. lia.
  - destruct (ownProp own k) as [w|] eqn:Hown.
    + intros [= <-]. apply ownProp_depth in Hown. lia.
    + intros H%IH. lia.
Qed.

Lemma getProp_depth o k v b :
  (entriesDepth (ownProps o) ≤ b)%nat → (protoDepth (prototype o) ≤ b)%nat →
  getProp o k = Some v → (depth v ≤ Nat.max 1 b)%nat.
Proof.
  intros Ho Hp. unfold getProp. destruct (ownProp (ownProps o) k) as [w|] eqn:Hown.
  - intros [= <-]. apply ownProp_depth in Hown. lia.
  - intros H%inherited_depth. lia.
Qed.

Lemma setProp_depth k v vproto o b :
  (depth v ≤ b)%nat → (protoDepth vproto ≤ b)%nat →
  (entriesDepth (ownProps o) ≤ b)%nat → (protoDepth (prototype o) ≤ b)%nat →
  (entriesDepth (ownProps (setProp k v vproto o)) ≤ b)%nat ∧
  (protoDepth (prototype (setProp k v vproto o)) ≤ b)%nat.
Proof.
  intros Hv Hvp Ho Hp. unfold setProp.
  destruct (ownProp (ownProps o) k) eqn:Hown; cbn [ownProps prototype].
  { split; [by apply assignOwn_depth|done]. }
  destruct (reachesSetter (prototype o) k); cbn [ownProps prototype].
  - destruct v as [| | | |es|items]; cbn [ownProps prototype protoDepth]; try done.
    rewrite depth_VObject in Hv. split; [done|lia].
  - split; [|done]. unfold createOwn.
    destruct (arrayIndex k); [by apply insertIndexed_depth|].
    rewrite entriesDepth_app. simpl. lia.
Qed.

(** Whatever the values, the recursion ends: a fuel above the deepest
    nesting gives a result. *)
Section loops_total.
Context (fuel b : nat).
Context (rec_ok : ∀ ws, (depths ws ≤ b)%nat →
  ∃ v p, deepMerge_fuel fuel ws = Some (v, p) ∧
         (depth v ≤ Nat.max 1 (depths ws))%nat ∧
         (protoDepth p ≤ Nat.max 1 (depths ws))%nat).

Lemma propBody_total result entry :
  (depth entry.2 ≤ b)%nat →
  (entriesDepth (ownProps result) ≤ b)%nat → (protoDepth (prototype result) ≤ b)%nat →
  ∃ result', propBody (deepMerge_fuel fuel) result entry = Some result' ∧
    (entriesDepth (ownProps result') ≤ b)%nat ∧
    (protoDepth (prototype result') ≤ b)%nat.
Proof using rec_ok.
  destruct entry as [k val]; cbn [snd propBody]. intros Hval Ho Hp.
  assert (∃ result', Some (setProp k val ObjectPrototype result) = Some result' ∧
            (entriesDepth (ownProps result') ≤ b)%nat ∧
            (protoDepth (prototype result') ≤ b)%nat) as Hplain.
  { eexists. split; [done|]. apply setProp_depth; simpl; (done || lia). }
  destruct val as [| | | |es|]; try exact Hplain.
  destruct (getProp result k) as [cur|] eqn:Hcur; [|exact Hplain].
  apply (getProp_depth _ _ _ b) in Hcur; [|done..].
  destruct cur as [| | | |r|]; try exact Hplain.
  pose proof (depth_VObject es) as Hes.
  destruct (rec_ok [VObject r; VObject es]) as (v & p & -> & Hv & Hvp).
  { rewrite !depths_cons. change (depths []) with O. lia. }
  rewrite !depths_cons in Hv, Hvp. change (depths []) with O in Hv, Hvp.
  cbn [mbind option_bind]. eexists. split; [done|].
  apply setProp_depth; (done || lia).
Qed.

Lemma entries_loop_total entries : ∀ result,
  (entriesDepth entries ≤ b)%nat →
  (entriesDepth (ownProps result) ≤ b)%nat → (protoDepth (prototype result) ≤ b)%nat →
  ∃ result', forOf (propBody (deepMerge_fuel fuel)) result entries = Some result' ∧
    (entriesDepth (ownProps result') ≤ b)%nat ∧
    (protoDepth (prototype result') ≤ b)%nat.
Proof using rec_ok.
  induction entries as [|e entries IH]; intros result He Ho Hp; [by eexists|].
  simpl in He.
  destruct (propBody_total result e) as (result1 & Hb & Ho1 & Hp1); [lia|done..|].
  simpl. rewrite Hb. simpl. apply IH; [lia|done..].
Qed.

Lemma values_loop_total values : ∀ result,
  (depths values ≤ S b)%nat →
  (entriesDepth (ownProps result) ≤ b)%nat → (protoDepth (prototype result) ≤ b)%nat →
  ∃ result', forOf (valueBody (deepMerge_fuel fuel)) result values = Some result' ∧
    (entriesDepth (ownProps result') ≤ b)%nat ∧
    (protoDepth (prototype result') ≤ b)%nat.
Proof using rec_ok.
  induction values as [|v values IH]; intros result Hv Ho Hp; [by eexists|].
  simpl in Hv.
  assert (∃ result1, valueBody (deepMerge_fuel fuel) result v = Some result1 ∧
            (entriesDepth (ownProps result1) ≤ b)%nat ∧
            (protoDepth (prototype result1) ≤ b)%nat) as (result1 & Hb & Ho1 & Hp1).
  { destruct v as [| | | |es|]; try by eexists.
    rewrite depth_VObject in Hv. apply entries_loop_total; [lia|done..]. }
  simpl. rewrite Hb. simpl. apply IH; [lia|done..].
Qed.
End loops_total.

Lemma deepMerge_fuel_total fuel : ∀ values,
  (depths values < fuel)%nat →
  ∃ v p, deepMerge_fuel fuel values = Some (v, p) ∧
         (depth v ≤ Nat.max 1 (depths values))%nat ∧
         (protoDepth p ≤ Nat.max 1 (depths values))%nat.
Proof.
  induction (lt_wf fuel) as [fuel _ IH]. intros values Hlt.
  destruct fuel as [|fuel]; [lia|].
  cbn [deepMerge_fuel].
  destruct (forallb isPlainObject values) eqn:Hall.
  2:{ eexists _, _. split; [done|]. pose proof (last_depth values). simpl. lia. }
  destruct values as [|v values].
  { simpl. eexists _, _. split; [done|]. simpl. lia. }
  assert (1 ≤ depths (v :: values))%nat as Hpos.
  { simpl in Hall. destruct v; try done. rewrite depths_cons, depth_VObject. lia. }
  destruct (values_loop_total fuel (pred (depths (v :: values)))) with
    (values := v :: values) (result := mkObject [] ObjectPrototype)
    as (result & -> & Ho & Hp).
  - intros ws Hws. apply IH; lia.
  - lia.
  - simpl; lia.
  - simpl; lia.
  - cbn [mbind option_bind]. eexists _, _. split; [done|].
    rewrite depth_VObject. lia.
Qed.

(** [deepMerge] is what the fuelled function returns: the fuel it is given
    does not run out. *)
Lemma deepMerge_total values :
  ∃ p, deepMerge_fuel (S (depths values)) values = Some (deepMerge values, p).
Proof.
  unfold deepMerge.
  destruct (deepMerge_fuel_total (S (depths values)) values) as (v & p & -> & _); [lia|].
  by exists p.
Qed.

(** A new key that is an array index is listed before the other keys. *)
Example deepMerge_index_key_first :
  deepMerge [VObject [("b", VNumber 1)]; VObject [("1", VNumber 2)]] =
    VObject [("1", VNumber 2); ("b", VNumber 1)].
Proof. reflexivity. Qed.

(** An own property named [__proto__] is not copied: assigning it replaces
    the prototype of the result, through which later keys are read. *)
Example deepMerge_proto_key :
  deepMerge_fuel 3 [VObject [("__proto__", VObject [("b", VNumber 2)])]] =
    Some (VObject [], PlainObject [("b", VNumber 2)] ObjectPrototype) ∧
  deepMerge [VObject [("__proto__", VObject [("a", VObject [("x", VNumber 1)])])];
             VObject [("a", VObject [("y", VNumber 2)])]] =
    VObject [("a", VObject [("x", VNumber 1); ("y", VNumber 2)])].
Proof. split; reflexivity. Qed.

(** *** [deepMerge] on values without [__proto__] *)

Lemma protoFree_VObject es :
  protoFree (VObject es) ↔ "__proto__" ∉ es.*1 ∧ Forall (λ e, protoFree e.2) es.
Proof.
  cbn [protoFree]. apply and_iff_compat_l.
  induction es as [|[k v] es IH]; [by split; [constructor|]|].
  rewrite Forall_cons, <-IH. done.
Qed.

Lemma ownProp_elem o k v : ownProp o k = Some v → (k, v) ∈ o.
Proof.
  induction o as [|[k' v'] o IH]; simpl; [done|].
  destruct (String.eqb_spec k' k) as [->|Hne]; [intros [= ->]; set_solver|].
  intros H%IH. set_solver.
Qed.

Lemma ownProp_protoFree o k v :
  protoFree (VObject o) → ownProp o k = Some v → protoFree v.
Proof.
  intros [_ Hall]%protoFree_VObject Hk%ownProp_elem.
  rewrite Forall_forall in Hall. by apply (Hall (k, v)).
Qed.

Lemma assignOwn_elem k v o e : e ∈ assignOwn k v o → e ∈ o ∨ e = (k, v).
Proof.
  induction o as [|[k' v'] o IH]; simpl; [set_solver|].
  destruct (String.eqb_spec k' k) as [->|Hne]; [set_solver|].
  intros [->|H%IH]%elem_of_cons; set_solver.
Qed.

Lemma insertIndexed_perm n k v o : insertIndexed n k v o ≡ₚ (k, v) :: o.
Proof.
  induction o as [|[k' v'] o IH]; simpl; [done|].
  destruct (arrayIndex k') as [m|]; [destruct (m <=? n)%N|]; try done.
  rewrite IH. apply Permutation_swap.
Qed.

Lemma createOwn_perm k v o : createOwn k v o ≡ₚ (k, v) :: o.
Proof.
  unfold createOwn. destruct (arrayIndex k); [apply insertIndexed_perm|].
  by rewrite Permutation_app_comm.
Qed.

Lemma storeOwn_elem k v o e : e ∈ storeOwn k v o → e ∈ o ∨ e = (k, v).
Proof.
  unfold storeOwn. destruct (ownProp o k); [apply assignOwn_elem|].
  rewrite createOwn_perm. set_solver.
Qed.

Lemma storeOwn_protoFree k v o :
  protoFree (VObject o) → k ≠ "__proto__" → protoFree v →
  protoFree (VObject (storeOwn k v o)).
Proof.
  rewrite !protoFree_VObject. intros [Hkeys Hall] Hk Hv. split.
  - intros ([k' v'] & Heq & [Hin| [= -> ->]]%storeOwn_elem)%list_elem_of_fmap;
      simpl in Heq; [|done].
    apply Hkeys. apply list_elem_of_fmap. by exists (k', v').
  - apply Forall_forall. intros e [Hin| ->]%storeOwn_elem; [|done].
    rewrite Forall_forall in Hall. by apply Hall.
Qed.

Section loops.
Context (fuel b : nat).
Context (rec_ok : ∀ ws, (depths ws ≤ b)%nat → Forall protoFree ws →
  deepMerge_fuel fuel ws = Some (deepMerge ws, ObjectPrototype) ∧
  (depth (deepMerge ws) ≤ Nat.max 1 (depths ws))%nat ∧
  protoFree (deepMerge ws)).

Lemma propBody_ok own entry :
  entry.1 ≠ "__proto__" → protoFree entry.2 → protoFree (VObject own) →
  (depth entry.2 ≤ b)%nat → (entriesDepth own ≤ b)%nat →
  propBody (deepMerge_fuel fuel) (mkObject own ObjectPrototype) entry =
    Some (mkObject (mergeProp own entry) ObjectPrototype) ∧
  (entriesDepth (mergeProp own entry) ≤ b)%nat ∧
  protoFree (VObject (mergeProp own entry)).
Proof using rec_ok.
  destruct entry as [k val]; cbn [fst snd propBody mergeProp].
  intros Hk Hfree Hown Hval Hres.
  assert (getProp (mkObject own ObjectPrototype) k = ownProp own k) as Hget.
  { unfold getProp. cbn [ownProps prototype inherited].
    destruct (ownProp own k); [done|]. by apply String.eqb_neq in Hk as ->. }
  assert (∀ v vproto, setProp k v vproto (mkObject own ObjectPrototype) =
                      mkObject (storeOwn k v own) ObjectPrototype) as Hset.
  { intros v vproto. unfold setProp, storeOwn. cbn [ownProps prototype reachesSetter].
    destruct (ownProp own k); [done|]. by apply String.eqb_neq in Hk as ->. }
  rewrite Hget.
  assert (Some (setProp k val ObjectPrototype (mkObject own ObjectPrototype)) =
            Some (mkObject (storeOwn k val own) ObjectPrototype) ∧
          (entriesDepth (storeOwn k val own) ≤ b)%nat ∧
          protoFree (VObject (storeOwn k val own))) as Hplain.
  { rewrite Hset. split_and!; [done|by apply storeOwn_depth|by apply storeOwn_protoFree]. }
  destruct val as [| | | |es|]; try exact Hplain.
  destruct (ownProp own k) as [cur|] eqn:Hcur; [|exact Hplain].
  pose proof (ownProp_depth _ _ _ Hcur) as Hd.
  pose proof (ownProp_protoFree _ _ _ Hown Hcur) as Hcurfree.
  destruct cur as [| | | |r|]; try exact Hplain.
  destruct (rec_ok [VObject r; VObject es]) as (-> & Hmd & Hmfree).
  { rewrite !depths_cons. change (depths []) with O. lia. }
  { by apply Forall_cons_2; [|apply Forall_cons_2; [|apply Forall_nil_2]]. }
  cbn [mbind option_bind]. rewrite Hset.
  rewrite !depths_cons in Hmd. change (depths []) with O in Hmd.
  pose proof (depth_VObject es).
  split_and!; [done|apply storeOwn_depth; lia|by apply storeOwn_protoFree].
Qed.

Lemma entries_loop_ok entries : ∀ own,
  protoFree (VObject entries) → protoFree (VObject own) →
  (entriesDepth entries ≤ b)%nat → (entriesDepth own ≤ b)%nat →
  forOf (propBody (deepMerge_fuel fuel)) (mkObject own ObjectPrototype) entries =
    Some (mkObject (mergeEntries own entries) ObjectPrototype) ∧
  (entriesDepth (mergeEntries own entries) ≤ b)%nat ∧
  protoFree (VObject (mergeEntries own entries)).
Proof using rec_ok.
  induction entries as [|e entries IH]; intros own Hfree Hown He Hres; [done|].
  simpl in He. apply protoFree_VObject in Hfree as [Hkeys Hall].
  rewrite fmap_cons in Hkeys. apply Forall_cons in Hall as [Hefree Hall].
  destruct (propBody_ok own e) as (Hb & Hd & Hf); [set_solver|done|done|lia|done|].
  simpl. rewrite Hb. simpl. apply IH; [|done|lia|done].
  apply protoFree_VObject. split; [set_solver|done].
Qed.

Lemma values_loop_ok values : ∀ own,
  Forall protoFree values → protoFree (VObject own) →
  (depths values ≤ S b)%nat → (entriesDepth own ≤ b)%nat →
  forOf (valueBody (deepMerge_fuel fuel)) (mkObject own ObjectPrototype) values =
    Some (mkObject (foldl mergeValue own values) ObjectPrototype) ∧
  (entriesDepth (foldl mergeValue own values) ≤ b)%nat ∧
  protoFree (VObject (foldl mergeValue own values)).
Proof using rec_ok.
  induction values as [|v values IH]; intros own Hfree Hown Hv Hres; [done|].
  simpl in Hv. apply Forall_cons in Hfree as [Hvfree Hfree].
  assert (valueBody (deepMerge_fuel fuel) (mkObject own ObjectPrototype) v =
            Some (mkObject (mergeValue own v) ObjectPrototype) ∧
          (entriesDepth (mergeValue own v) ≤ b)%nat ∧
          protoFree (VObject (mergeValue own v))) as (Hb & Hd & Hf).
  { destruct v as [| | | |es|]; try done.
    rewrite depth_VObject in Hv. apply entries_loop_ok; [done|done|lia|done]. }
  simpl. rewrite Hb. simpl. apply IH; [done|done|lia|done].
Qed.
End loops.

Lemma last_protoFree (vs : list PreferenceValue) :
  Forall protoFree vs → protoFree (default VNull (last vs)).
Proof.
  intros Hall. destruct (last vs) as [v|] eqn:Hlast; [|done].
  rewrite Forall_forall in Hall. apply Hall. by eapply last_Some_elem_of.
Qed.

Lemma deepMerge_fuel_enough fuel : ∀ values,
  Forall protoFree values → (depths values < fuel)%nat →
  deepMerge_fuel fuel values = Some (deepMerge_unfolded values, ObjectPrototype) ∧
  (depth (deepMerge_unfolded values) ≤ Nat.max 1 (depths values))%nat ∧
  protoFree (deepMerge_unfolded values).
Proof.
  induction (lt_wf fuel) as [fuel _ IH]. intros values Hfree Hlt.
  destruct fuel as [|fuel]; [lia|].
  cbn [deepMerge_fuel]. unfold deepMerge_unfolded.
  destruct (forallb isPlainObject values) eqn:Hall.
  2:{ split_and!; [done|pose proof (last_depth values); lia|by apply last_protoFree]. }
  destruct values as [|v values].
  { simpl. split; [done|]. split; [lia|]. split; [set_solver|done]. }
  assert (1 ≤ depths (v :: values))%nat as Hpos.
  { simpl in Hall. destruct v; try done. rewrite depths_cons, depth_VObject. lia. }
  destruct (values_loop_ok fuel (pred (depths (v :: values)))) with
    (values := v :: values) (own := @nil (string * PreferenceValue))
    as (-> & Hd & Hf).
  - intros ws Hws Hwsfree.
    assert (deepMerge ws = deepMerge_unfolded ws) as ->.
    { unfold deepMerge.
      destruct (IH (S (depths ws))) with (values := ws) as [-> _]; [lia|done|lia|done]. }
    apply IH; [lia|done|lia].
  - done.
  - apply protoFree_VObject. split; [set_solver|done].
  - lia.
  - simpl; lia.
  - cbn [mbind option_bind ownProps prototype]. split_and!; [done| |done].
    rewrite depth_VObject. unfold mergeValues. lia.
Qed.

(** On values without [__proto__], [deepMerge] satisfies the equation of the
    source on own properties, with no fuel. *)
Lemma deepMerge_unfold values :
  Forall protoFree values →
  deepMerge values =
    if forallb isPlainObject values then VObject (mergeValues values)
    else default VNull (last values).
Proof.
  intros Hfree. unfold deepMerge.
  destruct (deepMerge_fuel_enough (S (depths values)) values) as [-> _]; [done|lia|done].
Qed.

Lemma deepMerge_protoFree values :
  Forall protoFree values → protoFree (deepMerge values).
Proof.
  intros Hfree. unfold deepMerge.
  destruct (deepMerge_fuel_enough (S (depths values)) values) as (-> & _ & Hf);
    [done|lia|done].
Qed.

(** When some value is not a mapping the result is the last value,
    whatever the values hold. *)
Lemma deepMerge_last values :
  forallb isPlainObject values = false → deepMerge values = default VNull (last values).
Proof. intros Hall. unfold deepMerge. cbn [deepMerge_fuel]. by rewrite Hall. Qed.

(** *** The sort of [resolveByMerge] *)

Lemma insertBy_perm {A} (cmp : A → A → Z) x l : insertBy cmp x l ≡ₚ x :: l.
Proof.
  induction l as [|y l IH]; simpl; [done|].
  destruct (cmp x y <=? 0)%Z; [done|]. rewrite IH. apply Permutation_swap.
Qed.

Lemma sortBy_perm {A} (cmp : A → A → Z) l : sortBy cmp l ≡ₚ l.
Proof.
  induction l as [|x l IH]; simpl; [done|].
  rewrite insertBy_perm. by constructor.
Qed.

Lemma byPriorityThenTimestamp_le a b :
  (byPriorityThenTimestamp a b ≤ 0)%Z ↔ rank_le a b.
Proof.
  unfold byPriorityThenTimestamp, rank_le.
  destruct (Z.eqb_spec (priority a) (priority b)); cbn [negb]; lia.
Qed.

Lemma byPriorityThenTimestamp_gt a b :
  (0 < byPriorityThenTimestamp a b)%Z → rank_le b a.
Proof.
  unfold byPriorityThenTimestamp, rank_le.
  destruct (Z.eqb_spec (priority a) (priority b)); cbn [negb]; lia.
Qed.

Lemma insertBy_sorted x l :
  StronglySorted rank_le l →
  StronglySorted rank_le (insertBy byPriorityThenTimestamp x l).
Proof.
  induction 1 as [|y l Hs IH Hy]; simpl; [repeat constructor|].
  destruct (Z.leb_spec (byPriorityThenTimestamp x y) 0) as [Hle|Hgt].
  - apply byPriorityThenTimestamp_le in Hle.
    constructor; [by constructor|]. constructor; [done|].
    eapply Forall_impl; [exact Hy|]. intros z Hz. by eapply rank_le_trans.
  - apply byPriorityThenTimestamp_gt in Hgt. constructor; [done|].
    rewrite insertBy_perm. by constructor.
Qed.

Lemma sortBy_sorted l :
  StronglySorted rank_le (sortBy byPriorityThenTimestamp l).
Proof.
  induction l as [|x l IH]; simpl; [constructor|]. by apply insertBy_sorted.
Qed.

(** *** Keys of merged mappings *)

Lemma ownProp_None o k : ownProp o k = None ↔ k ∉ o.*1.
Proof.
  induction o as [|[k' v] o IH]; simpl; [set_solver|].
  destruct (String.eqb_spec k' k) as [->|Hne]; [set_solver|].
  rewrite IH. set_solver.
Qed.

Lemma assignOwn_keys k v o : (assignOwn k v o).*1 = o.*1.
Proof.
  induction o as [|[k' v'] o IH]; [done|]. cbn [assignOwn].
  destruct (String.eqb k' k); rewrite !fmap_cons; [done|]. by rewrite IH.
Qed.




Lemma storeOwn_keys k v o :
  (storeOwn k v o).*1 ≡ₚ if bool_decide (k ∈ o.*1) then o.*1 else k :: o.*1.
Proof.
  unfold storeOwn. destruct (ownProp o k) eqn:Hk.
  - rewrite assignOwn_keys, bool_decide_eq_true_2; [done|].
    apply dec_stable. intros Hn%ownProp_None. congruence.
  - apply ownProp_None in Hk. rewrite bool_decide_eq_false_2 by done.
    by rewrite createOwn_perm.
Qed.

Lemma storeOwn_NoDup k v o : NoDup o.*1 → NoDup (storeOwn k v o).*1.
Proof.
  intros Hnd. rewrite storeOwn_keys. case_bool_decide; [done|]. by constructor.
Qed.

Lemma keyOrder_trans x y z : keyOrder x y → keyOrder y z → keyOrder x z.
Proof.
  unfold keyOrder.
  destruct (arrayIndex x), (arrayIndex y), (arrayIndex z); try done. lia.
Qed.

Lemma insertIndexed_sorted n k v o :
  arrayIndex k = Some n → ownOrdered o → ownOrdered (insertIndexed n k v o).
Proof.
  unfold ownOrdered. intros Hk. induction o as [|[k' v'] o IH]; intros Hs.
  { simpl. repeat constructor. }
  rewrite fmap_cons in Hs. apply StronglySorted_cons in Hs as [Hall Hs].
  cbn [insertIndexed fst].
  destruct (arrayIndex k') as [m|] eqn:Hk'.
  - destruct (N.leb_spec m n) as [Hle|Hgt].
    + rewrite fmap_cons. apply StronglySorted_cons. split; [|by apply IH].
      rewrite insertIndexed_perm, fmap_cons. constructor; [|done].
      unfold keyOrder. cbn [fst]. by rewrite Hk', Hk.
    + rewrite !fmap_cons. apply StronglySorted_cons.
      split; [|by apply StronglySorted_cons].
      assert (keyOrder k k') as Hkk by (unfold keyOrder; rewrite Hk, Hk'; lia).
      constructor; [done|]. eapply Forall_impl; [exact Hall|].
      intros z Hz. by eapply keyOrder_trans.
  - rewrite !fmap_cons. apply StronglySorted_cons.
    split; [|by apply StronglySorted_cons].
    assert (keyOrder k k') as Hkk by (unfold keyOrder; by rewrite Hk, Hk').
    constructor; [done|]. eapply Forall_impl; [exact Hall|].
    intros z Hz. by eapply keyOrder_trans.
Qed.

Lemma storeOwn_ordered k v o : ownOrdered o → ownOrdered (storeOwn k v o).
Proof.
  unfold storeOwn, createOwn. intros Hs.
  destruct (ownProp o k); [unfold ownOrdered; by rewrite assignOwn_keys|].
  destruct (arrayIndex k) as [n|] eqn:Hk; [by apply insertIndexed_sorted|].
  unfold ownOrdered. rewrite fmap_app. apply StronglySorted_app_2; [|done|].
  - intros x1 x2 _ ->%list_elem_of_singleton. unfold keyOrder. cbn [fst].
    rewrite Hk. by destruct (arrayIndex x1).
  - repeat constructor.
Qed.

(** A key that [Object.entries] order puts last is added last. *)
Lemma createOwn_last k v o :
  ownOrdered (o ++ [(k, v)]) → createOwn k v o = o ++ [(k, v)].
Proof.
  unfold ownOrdered, createOwn. rewrite fmap_app.
  intros Hs. destruct (arrayIndex k) as [n|] eqn:Hk; [|done].
  assert (Forall (λ k', keyOrder k' k) o.*1) as Hall.
  { apply Forall_forall. intros k' Hk'.
    eapply (StronglySorted_app_1_elem_of _ _ _ _ _ Hs); [done|]. set_solver. }
  clear Hs. induction o as [|[k' v'] o IH]; [done|].
  rewrite fmap_cons in Hall. apply Forall_cons in Hall as [Hk' Hall].
  cbn [insertIndexed]. unfold keyOrder in Hk'. cbn [fst] in Hk'. rewrite Hk in Hk'.
  destruct (arrayIndex k') as [m|]; [|done].
  destruct (N.leb_spec m n); [|lia]. by rewrite IH.
Qed.

Lemma mergeProp_store result e :
  ∃ v, mergeProp result e = storeOwn e.1 v result ∧
       (protoFree e.2 → protoFree (VObject result) → protoFree v).
Proof.
  destruct e as [k val]. unfold mergeProp. cbn [fst snd].
  destruct val as [| | | |es|]; try by eexists.
  destruct (ownProp result k) as [cur|] eqn:Hcur; [|by eexists].
  destruct cur as [| | | |r|]; try by eexists.
  eexists. split; [done|]. intros Hval Hres. apply deepMerge_protoFree.
  apply Forall_cons_2; [by eapply ownProp_protoFree|].
  by apply Forall_cons_2; [|apply Forall_nil_2].
Qed.

Lemma mergeProp_NoDup result e : NoDup result.*1 → NoDup (mergeProp result e).*1.
Proof.
  intros Hnd. destruct (mergeProp_store result e) as (v & -> & _).
  by apply storeOwn_NoDup.
Qed.

Lemma mergeEntries_NoDup es : ∀ result,
  NoDup result.*1 → NoDup (mergeEntries result es).*1.
Proof.
  induction es as [|e es IH]; intros result Hnd; [done|].
  apply IH. by apply mergeProp_NoDup.
Qed.

Lemma mergeProp_ordered result e : ownOrdered result → ownOrdered (mergeProp result e).
Proof.
  intros Hs. destruct (mergeProp_store result e) as (v & -> & _).
  by apply storeOwn_ordered.
Qed.

Lemma mergeEntries_ordered es : ∀ result,
  ownOrdered result → ownOrdered (mergeEntries result es).
Proof.
  induction es as [|e es IH]; intros result Hs; [done|].
  apply IH. by apply mergeProp_ordered.
Qed.




Lemma mergeEntries_copy es : ∀ result,
  NoDup es.*1 → (∀ k, k ∈ es.*1 → k ∉ result.*1) → ownOrdered (result ++ es) →
  mergeEntries result es = result ++ es.
Proof.
  induction es as [|[k0 v0] es IH]; intros result Hnd Hdisj Hs.
  { by rewrite app_nil_r. }
  rewrite fmap_cons in Hnd, Hdisj. apply NoDup_cons in Hnd as [Hk0 Hnd].
  change (mergeEntries result ((k0, v0) :: es))
    with (mergeEntries (mergeProp result (k0, v0)) es).
  assert (k0 ∉ result.*1) as Hfresh by (apply Hdisj; set_solver).
  assert (mergeProp result (k0, v0) = result ++ [(k0, v0)]) as ->.
  { assert (storeOwn k0 v0 result = result ++ [(k0, v0)]) as Hstore.
    { unfold storeOwn. apply ownProp_None in Hfresh as ->. apply createOwn_last.
      unfold ownOrdered in *. rewrite fmap_app in *.
      change ((k0, v0) :: es) with ([(k0, v0)] ++ es) in Hs.
      rewrite fmap_app, app_assoc in Hs. by apply StronglySorted_app_1_l in Hs. }
    unfold mergeProp. apply ownProp_None in Hfresh as Hnone. rewrite Hnone.
    by destruct v0. }
  rewrite IH; [by rewrite <-app_assoc|done| |by rewrite <-app_assoc].
  intros k Hk. rewrite fmap_app. set_solver.
Qed.

(** Merging a pair of mappings: the first one is copied, then the second
    one is merged into the copy. *)
Lemma deepMerge_pair ea eb :
  protoFree (VObject ea) → protoFree (VObject eb) →
  NoDup ea.*1 → ownOrdered ea →
  deepMerge [VObject ea; VObject eb] = VObject (mergeEntries ea eb).
Proof.
  intros Ha Hb Hnd Hs. rewrite deepMerge_unfold by (by repeat apply Forall_cons_2).
  simpl. unfold mergeValues. simpl.
  rewrite (mergeEntries_copy ea []); [done..|set_solver|done].
Qed.




Lemma last_sorted_max (l : list PreferenceMetadata) top :
  StronglySorted rank_le l → last l = Some top →
  ∀ c, c ∈ l → rank_le c top.
Proof.
  induction 1 as [|x l Hs IH Hx]; [done|]. intros Hlast c Hc.
  destruct l as [|y l].
  - simpl in Hlast. injection Hlast as <-.
    apply list_elem_of_singleton in Hc as ->. unfold rank_le; lia.
  - rewrite last_cons_cons in Hlast. apply elem_of_cons in Hc as [->|Hc].
    + rewrite Forall_forall in Hx. apply Hx. by eapply last_Some_elem_of.
    + by apply IH.
Qed.

Lemma sorted_last_exists (conflicts : list PreferenceMetadata) :
  (1 ≤ length conflicts)%nat →
  ∃ top, last (sortBy byPriorityThenTimestamp conflicts) = Some top.
Proof.
  intros Hlen. destruct (last _) as [top|] eqn:Hlast; [by eexists|].
  apply last_None in Hlast.
  pose proof (sortBy_perm byPriorityThenTimestamp conflicts) as Hp.
  rewrite Hlast in Hp. apply Permutation_length in Hp. simpl in Hp. lia.
Qed.

Lemma resolve_MERGE conflicts :
  (2 ≤ length conflicts)%nat → resolve conflicts MERGE = resolveByMerge conflicts.
Proof. destruct conflicts as [|x [|y l]]; simpl; [lia..|done]. Qed.





(** C3 (as amended). With two or more records, the result of MERGE is a
    copy of the highest-ranked record (the last one in sort order) whose
    value is the merged value and whose source is [merged[...]] listing the
    sources in sort order, ascending by priority then timestamp. *)
Theorem C3_merge_result_label (conflicts : list PreferenceMetadata) :
  (2 ≤ length conflicts)%nat →
  let sorted := sortBy byPriorityThenTimestamp conflicts in
  ∃ top,
    last sorted = Some top ∧ top ∈ conflicts ∧
    (∀ c, c ∈ conflicts → rank_le c top) ∧
    resolve conflicts MERGE =
      Ok {| key := key top;
            value := deepMerge (value <$> sorted);
            priority := priority top;
            source := "merged[" +:+ join "," (source <$> sorted) +:+ "]";
            timestamp := timestamp top;
            encrypted := encrypted top;
            validated := validated top;
            ttl := ttl top |}.
Proof.
  intros Hlen sorted.
  destruct (sorted_last_exists conflicts) as [top Htop]; [lia|].
  pose proof (sortBy_perm byPriorityThenTimestamp conflicts) as Hperm.
  fold sorted in Htop, Hperm.
  exists top. split_and!.
  - done.
  - rewrite <-Hperm. by eapply last_Some_elem_of.
  - intros c Hc. eapply last_sorted_max; [apply sortBy_sorted|exact Htop|].
    fold sorted. by rewrite Hperm.
  - rewrite resolve_MERGE by done. unfold resolveByMerge. fold sorted.
    by rewrite Htop.
Qed.

Lemma C3_merge_result_label_witness :
  (2 ≤ length highFirst)%nat ∧
  ∃ top, resolve highFirst MERGE =
    Ok {| key := "theme";
          value := VObject [("b", VNumber 2); ("a", VNumber 1)];
          priority := priority top;
          source := "merged[b,a]";
          timestamp := timestamp top;
          encrypted := None; validated := None; ttl := None |}.
Proof.
  assert (2 ≤ length highFirst)%nat as Hlen by (simpl; lia).
  split; [exact Hlen|].
  destruct (C3_merge_result_label highFirst Hlen) as (top & Htop & _ & _ & Hr).
  exists top. rewrite Hr. injection Htop as <-. reflexivity.
Defined.

(** The claim C3 as stated fails: the sources are listed in sort order, not
    in input order. *)
Lemma C3_input_order_counterexample :
  ∃ r, resolve highFirst MERGE = Ok r ∧
       source r = "merged[b,a]" ∧
       source r ≠ "merged[" +:+ join "," (source <$> highFirst) +:+ "]".
Proof. eexists. split; [reflexivity|]. split; [reflexivity|discriminate]. Qed.

End resolver_merge.

(** ** LRUCache: recency order and eviction *)

Section lru.
Import LRUCache.

Lemma removeFirst_absent key order : key ∉ order → removeFirst key order = order.
Proof.
  induction order as [|k order IH]; simpl; [done|]. intros Hk.
  destruct (String.eqb_spec k key) as [->|Hne]; [set_solver|].
  rewrite IH; [done|set_solver].
Qed.

Lemma removeFirst_elem key order x :
  NoDup order → x ∈ removeFirst key order ↔ x ∈ order ∧ x ≠ key.
Proof.
  induction order as [|k order IH]; simpl; [set_solver|].
  intros [Hk Hnd]%NoDup_cons.
  destruct (String.eqb_spec k key) as [->|Hne]; [set_solver|].
  rewrite elem_of_cons, IH by done. set_solver.
Qed.

Lemma removeFirst_NoDup key order : NoDup order → NoDup (removeFirst key order).
Proof.
  induction order as [|k order IH]; simpl; [done|].
  intros [Hk Hnd]%NoDup_cons.
  destruct (String.eqb_spec k key) as [->|Hne]; [done|].
  apply NoDup_cons. split; [|by apply IH].
  rewrite removeFirst_elem by done. tauto.
Qed.

Lemma consistent_size c : consistent c → base.size (cache c) = length (accessOrder c).
Proof.
  intros [Hnd Hdom].
  rewrite <-size_dom.
  assert (dom (cache c) = list_to_set (accessOrder c)) as ->.
  { apply set_eq. intros k. rewrite elem_of_dom, elem_of_list_to_set. by rewrite Hdom. }
  by apply size_list_to_set.
Qed.

Lemma consistent_new n ttl0 : consistent (new n ttl0).
Proof.
  split; [constructor|]. intros k. simpl. rewrite lookup_empty.
  split; [by intros ?%elem_of_nil|by intros [? ?]].
Qed.

(** [set] of a key that is not cached, below capacity. *)
Lemma set_fresh_below now key v ttl c :
  cache c !! key = None →
  (base.size (cache c) < maxSize c)%nat →
  set now key v ttl c =
    {| cache := <[key := mkEntry v (now + ttlOrDefault ttl c)%Z]> (cache c);
       accessOrder := accessOrder c ++ [key];
       maxSize := maxSize c; defaultTTL := defaultTTL c |}.
Proof.
  intros Hnone Hsize. unfold set.
  rewrite bool_decide_eq_false_2 by (rewrite Hnone; by intros [? ?]).
  cbn [cache maxSize accessOrder defaultTTL].
  rewrite map_size_insert_None by done.
  destruct (Nat.ltb_spec (maxSize c) (S (base.size (cache c)))); [lia|done].
Qed.

(** [set] of a key that is not cached, at capacity: the front of the
    recency order (after the push) is evicted. *)
Lemma set_fresh_full now key v ttl c :
  cache c !! key = None →
  (maxSize c ≤ base.size (cache c))%nat →
  set now key v ttl c =
    (delete (default key (head (accessOrder c)))
       {| cache := <[key := mkEntry v (now + ttlOrDefault ttl c)%Z]> (cache c);
          accessOrder := accessOrder c ++ [key];
          maxSize := maxSize c; defaultTTL := defaultTTL c |}).2.
Proof.
  intros Hnone Hsize. unfold set.
  rewrite bool_decide_eq_false_2 by (rewrite Hnone; by intros [? ?]).
  cbn [cache maxSize accessOrder defaultTTL].
  rewrite map_size_insert_None by done.
  destruct (Nat.ltb_spec (maxSize c) (S (base.size (cache c)))); [|lia].
  unfold evictOldest. cbn [accessOrder].
  by destruct (accessOrder c).
Qed.

Lemma fill_below calls : ∀ c,
  consistent c →
  NoDup (accessOrder c ++ (callKey <$> calls)) →
  (length (accessOrder c) + length calls ≤ maxSize c)%nat →
  let c' := foldl doSet c calls in
  consistent c' ∧ accessOrder c' = accessOrder c ++ (callKey <$> calls) ∧
  maxSize c' = maxSize c ∧ defaultTTL c' = defaultTTL c.
Proof.
  induction calls as [|call calls IH]; intros c Hc Hnd Hlen.
  { simpl. by rewrite app_nil_r. }
  rewrite fmap_cons in Hnd. simpl in Hlen.
  assert (callKey call ∉ accessOrder c) as Hfresh.
  { apply NoDup_app in Hnd as (_ & Hdisj & _). intros Hin.
    apply (Hdisj _ Hin). set_solver. }
  assert (cache c !! callKey call = None) as Hnone.
  { destruct Hc as [_ Hdom]. apply eq_None_not_Some. by rewrite <-Hdom. }
  assert (doSet c call =
    {| cache := <[callKey call := mkEntry (callValue call)
                    (callNow call + ttlOrDefault (callTtl call) c)%Z]> (cache c);
       accessOrder := accessOrder c ++ [callKey call];
       maxSize := maxSize c; defaultTTL := defaultTTL c |}) as Hstep.
  { apply set_fresh_below; [done|]. rewrite consistent_size by done. lia. }
  cbn [foldl]. rewrite Hstep.
  match goal with |- context [foldl doSet ?c1 calls] => specialize (IH c1) end.
  cbn [accessOrder maxSize defaultTTL] in IH.
  rewrite <-app_assoc in IH. simpl in IH.
  destruct IH as (Hc' & Hord & Hmax & Httl).
  - destruct Hc as [Hnd0 Hdom]. split; cbn [accessOrder cache].
    + apply NoDup_app. split_and!; [done| |apply NoDup_singleton].
      intros x Hx ->%list_elem_of_singleton. done.
    + intros k. rewrite elem_of_app, list_elem_of_singleton, Hdom.
      rewrite lookup_insert_is_Some. destruct (decide (callKey call = k)); naive_solver.
  - done.
  - rewrite length_app. simpl. lia.
  - done.
Qed.

Lemma delete_consistent key c : consistent c → consistent (delete key c).2.
Proof.
  intros [Hnd Hdom]. split; cbn [delete snd accessOrder cache removeFromAccessOrder].
  - by apply removeFirst_NoDup.
  - intros k. rewrite removeFirst_elem by done. rewrite Hdom.
    rewrite lookup_delete_is_Some. naive_solver.
Qed.

Lemma pushed_consistent key e c :
  consistent c → cache c !! key = None →
  consistent {| cache := <[key := e]> (cache c);
                accessOrder := accessOrder c ++ [key];
                maxSize := maxSize c; defaultTTL := defaultTTL c |}.
Proof.
  intros [Hnd Hdom] Hnone.
  assert (key ∉ accessOrder c) as Hfresh.
  { rewrite Hdom, Hnone. by intros [? ?]. }
  split; cbn [accessOrder cache].
  - apply NoDup_app. split_and!; [done| |apply NoDup_singleton].
    intros x Hx ->%list_elem_of_singleton. done.
  - intros k. rewrite elem_of_app, list_elem_of_singleton, Hdom.
    rewrite lookup_insert_is_Some. destruct (decide (key = k)); naive_solver.
Qed.

Lemma get_hit now key c v c' :
  get now key c = (Some v, c') →
  is_Some (cache c !! key) ∧ c' = updateAccessOrder key c.
Proof.
  unfold get. destruct (cache c !! key) as [entry|]; [|done].
  destruct (now >? expiresAt entry)%Z; [done|]. intros [= _ <-]. eauto.
Qed.

(** C4 (as amended). For a cache of capacity [n]: (1) [n + 1] sets of
    distinct keys into a new cache leave exactly the keys after the first
    one, in insertion order: the first key, the front of the recency order,
    is the one evicted; (2) a set evicts at most one key, the front of the
    recency order; (3) a get that hits moves the key to the end of the
    recency order; (4) after such a get, the set of a key that is not
    cached leaves the key in the cache, provided some other key is cached. *)
Theorem C4_lru_eviction (n : nat) (ttl0 : Z) :
  (∀ calls : list SetCall,
     NoDup (callKey <$> calls) → length calls = S n →
     let c' := foldl doSet (new n ttl0) calls in
     accessOrder c' = tail (callKey <$> calls) ∧
     (∀ k, is_Some (cache c' !! k) ↔ k ∈ tail (callKey <$> calls)) ∧
     (∀ k0, head (callKey <$> calls) = Some k0 → cache c' !! k0 = None)) ∧
  (∀ c now key v ttl,
     maxSize c = n →
     let inserted := <[key := mkEntry v (now + ttlOrDefault ttl c)%Z]> (cache c) in
     let pushed :=
       (if bool_decide (is_Some (cache c !! key))
        then removeFirst key (accessOrder c) else accessOrder c) ++ [key] in
     cache (set now key v ttl c) = inserted ∨
     ∃ oldest, head pushed = Some oldest ∧
       cache (set now key v ttl c) = base.delete oldest inserted) ∧
  (∀ c now key v c',
     maxSize c = n →
     get now key c = (Some v, c') →
     cache c' = cache c ∧
     accessOrder c' = removeFirst key (accessOrder c) ++ [key] ∧
     last (accessOrder c') = Some key) ∧
  (∀ c now key v c1 now' key' v' ttl' other,
     maxSize c = n →
     consistent c →
     get now key c = (Some v, c1) →
     cache c !! key' = None →
     other ≠ key → is_Some (cache c !! other) →
     is_Some (cache (set now' key' v' ttl' c1) !! key)).
Proof.
  split_and!.
  - intros calls Hnd Hlen c'.
    destruct (exists_last (l := calls)) as (init & lastc & ->).
    { by destruct calls. }
    rewrite length_app in Hlen. simpl in Hlen.
    rewrite fmap_app in Hnd |- *. simpl in Hnd |- *.
    destruct (fill_below init (new n ttl0)) as (Hc & Hord & Hmax & Httl).
    { apply consistent_new. }
    { simpl. by apply NoDup_app in Hnd as (? & _ & _). }
    { simpl. lia. }
    simpl in Hord, Hmax.
    subst c'. rewrite foldl_app. cbn [foldl].
    set (c0 := foldl doSet (new n ttl0) init) in *.
    assert (callKey lastc ∉ accessOrder c0) as Hfresh.
    { rewrite Hord. apply NoDup_app in Hnd as (_ & Hdisj & _). intros Hin.
      apply (Hdisj _ Hin). set_solver. }
    assert (cache c0 !! callKey lastc = None) as Hnone.
    { destruct Hc as [_ Hdom]. apply eq_None_not_Some. by rewrite <-Hdom. }
    unfold doSet. rewrite set_fresh_full; [|done|].
    2:{ rewrite consistent_size by done. rewrite Hord, length_fmap. lia. }
    match goal with |- context [delete ?h ?c1] =>
      assert (consistent (delete h c1).2) as Hfinal
        by (apply delete_consistent, pushed_consistent; done);
      assert (accessOrder (delete h c1).2 = tail ((callKey <$> init) ++ [callKey lastc]))
        as Hfinal_order
    end.
    { cbn [delete snd accessOrder removeFromAccessOrder]. rewrite Hord.
      destruct (callKey <$> init) as [|k0 ks]; simpl; by rewrite String.eqb_refl. }
    split_and!.
    + exact Hfinal_order.
    + intros k. destruct Hfinal as [_ Hdom]. rewrite <-Hfinal_order.
      symmetry. apply Hdom.
    + intros k0 Hhead. apply eq_None_not_Some.
      destruct Hfinal as [_ Hdom]. intros Hsome. apply Hdom in Hsome.
      rewrite Hfinal_order in Hsome. revert Hsome.
      destruct (callKey <$> init) as [|k1 ks]; simpl in *.
      * by intros ?%elem_of_nil.
      * injection Hhead as ->. by apply NoDup_cons in Hnd as [? _].
  - intros c now key v ttl _ inserted pushed. unfold set.
    set (c1 := if bool_decide _ then _ else c).
    assert (cache c1 = cache c ∧ maxSize c1 = maxSize c ∧ defaultTTL c1 = defaultTTL c ∧
            accessOrder c1 ++ [key] = pushed) as (Hcache & Hmax & Httl & Hord).
    { subst c1 pushed. by case_bool_decide. }
    cbn [cache maxSize accessOrder defaultTTL]. rewrite Hcache, Hord.
    destruct (_ <? _)%nat; [|by left].
    unfold evictOldest. cbn [accessOrder].
    destruct pushed as [|oldest rest] eqn:Hp; [by left|].
    right. exists oldest. split; [done|]. reflexivity.
  - intros c now key v c' _ Hget. apply get_hit in Hget as [_ ->].
    cbn [updateAccessOrder cache accessOrder removeFromAccessOrder].
    split_and!; [done..|]. by rewrite last_snoc.
  - intros c now key v c1 now' key' v' ttl' other _ Hc Hget Hnew Hne Hother.
    apply get_hit in Hget as [Hkey ->].
    assert (key ≠ key') as Hkk by (intros ->; rewrite Hnew in Hkey; by destruct Hkey).
    set (c1 := updateAccessOrder key c).
    assert (cache c1 !! key' = None) as Hnew1 by done.
    destruct (decide (base.size (cache c1) < maxSize c1)%nat) as [Hlt|Hge].
    + rewrite set_fresh_below by done. cbn [cache].
      rewrite lookup_insert_ne by done. exact Hkey.
    + rewrite set_fresh_full by (done || lia).
      cbn [delete snd cache removeFromAccessOrder].
      destruct Hc as [Hnd Hdom].
      assert (other ∈ removeFirst key (accessOrder c)) as Hin.
      { apply removeFirst_elem; [done|]. by rewrite Hdom. }
      subst c1. cbn [updateAccessOrder accessOrder removeFromAccessOrder].
      destruct (removeFirst key (accessOrder c)) as [|front rest] eqn:Hrem.
      { by apply elem_of_nil in Hin. }
      assert (front ≠ key) as Hfront.
      { assert (front ∈ removeFirst key (accessOrder c)) as Hf by (rewrite Hrem; set_solver).
        apply removeFirst_elem in Hf; [|done]. tauto. }
      simpl. rewrite lookup_delete_ne by done.
      rewrite lookup_insert_ne by done. exact Hkey.
Qed.

Lemma C4_lru_eviction_witness :
  let m := ConflictResolver.record "memory" 50 0 (VString "x") in
  let calls := [mkSetCall 0 "a" m None; mkSetCall 1 "b" m None;
                mkSetCall 2 "c" m None] in
  let filled := foldl doSet (new 2 1000) [mkSetCall 0 "a" m None; mkSetCall 1 "b" m None] in
  NoDup (callKey <$> calls) ∧ length calls = 3%nat ∧
  accessOrder (foldl doSet (new 2 1000) calls) = ["b"; "c"] ∧
  consistent filled ∧
  is_Some (cache (set 3 "c" m None (get 2 "a" filled).2) !! "a").
Proof.
  intros m calls filled.
  assert (NoDup (callKey <$> calls)) as Hnd by compute_done.
  assert (consistent filled) as Hc.
  { destruct (fill_below [mkSetCall 0 "a" m None; mkSetCall 1 "b" m None] (new 2 1000))
      as (Hc & _); [apply consistent_new|compute_done|simpl; lia|exact Hc]. }
  destruct (C4_lru_eviction 2 1000) as (Hseq & _ & _ & Hprotect).
  destruct (Hseq calls Hnd eq_refl) as (Horder & _).
  split; [exact Hnd|]. split; [reflexivity|]. split; [exact Horder|].
  split; [exact Hc|].
  apply (Hprotect filled 2%Z "a" m (get 2 "a" filled).2 3%Z "c" m None "b");
    [reflexivity|exact Hc|reflexivity|reflexivity|discriminate|by eexists].
Defined.

(** The claim C4 as stated fails at capacity 1: the key that was just read
    is also the front of the recency order, and the next insert evicts it. *)
Lemma C4_capacity_one_counterexample :
  let m := ConflictResolver.record "memory" 50 0 (VString "x") in
  let c1 := set 0 "a" m None (new 1 1000) in
  let c3 := set 0 "b" m None (get 0 "a" c1).2 in
  (get 0 "a" c1).1 = Some m ∧
  last (accessOrder (get 0 "a" c1).2) = Some "a" ∧
  cache c3 !! "a" = None.
Proof. vm_compute. done. Qed.

End lru.

(** ** PreferenceInjector *)

Section injector.

(** Unfolding of the method combinators. *)
Lemma result_bind {A B} (m : Method A) (f : A → Method B) s :
  result ((m ≫= f) s) =
    match result (m s) with
    | Ok a => result (f a (after (m s)))
    | Err e => Err e
    end.
Proof. unfold mbind, Method_bind. by destruct (result (m s)). Qed.

Lemma effects_bind {A B} (m : Method A) (f : A → Method B) s :
  effects ((m ≫= f) s) =
    match result (m s) with
    | Ok a => effects (m s) ++ effects (f a (after (m s)))
    | Err e => effects (m s)
    end.
Proof. unfold mbind, Method_bind. by destruct (result (m s)). Qed.

Lemma after_bind {A B} (m : Method A) (f : A → Method B) s :
  after ((m ≫= f) s) =
    match result (m s) with
    | Ok a => after (f a (after (m s)))
    | Err e => after (m s)
    end.
Proof. unfold mbind, Method_bind. by destruct (result (m s)). Qed.

Lemma gather_all_absent k ps : ∀ results,
  (∀ p, p ∈ ps → Provider.get p k = Ok None) →
  Injector.gather k ps results = Ok results.
Proof.
  induction ps as [|p ps IH]; intros results Hall; [done|].
  simpl. rewrite (Hall p) by set_solver. apply IH. intros q Hq. apply Hall. set_solver.
Qed.

(** C8. When the run of [get] has collected zero results, it returns the
    default value if the options carry one, and otherwise fails with the
    Not-Found error naming the key.  Zero results are collected when the
    lookup is not answered by the cache and every provider returns no
    metadata for the key. *)
Theorem C8_default_on_miss (now : Z) (k : string) (options : option GetOptions)
    (s : PreferenceInjector) :
  (Injector.collected now k options s = Some [] →
   result (Injector.get now k options s) =
     match options ≫= defaultValue with
     | Some d => Ok d
     | None => Err (PreferenceNotFoundError k)
     end) ∧
  (notFalse (options ≫= useCache) = false ∨ (Cache_get now k (cache s)).1 = None →
   (∀ p, p ∈ providers s → Provider.get p k = Ok None) →
   Injector.collected now k options s = Some []).
Proof.
  split.
  - unfold Injector.collected, Injector.get. intros Hzero.
    rewrite result_bind.
    assert (∃ s', (if notFalse (options ≫= useCache)
                   then Injector.cacheGet now k else mret None) s
                  = mkRun (Ok None) s' [] ∧ providers s' = providers s)
      as (s' & -> & Hps).
    { destruct (notFalse (options ≫= useCache)); [|by eexists].
      unfold Injector.cacheGet.
      destruct (Cache_get now k (cache s)) as [[m|] c]; [done|by eexists]. }
    cbn [result after]. rewrite result_bind. cbn [Injector.read result after].
    rewrite result_bind. cbn [Injector.await result after]. rewrite Hps.
    destruct (if notFalse (options ≫= useCache) then _ else _); [done|].
    destruct (Injector.gather k (providers s) []) as [[|m results]|]; [|done..].
    by destruct (options ≫= defaultValue).
  - intros Hmiss Hall. unfold Injector.collected.
    rewrite gather_all_absent by done.
    destruct (notFalse (options ≫= useCache)); [|done].
    destruct Hmiss as [?|Hmiss]; [done|]. by rewrite Hmiss.
Qed.

Lemma C8_default_on_miss_witness :
  Injector.collected 0 "missing"
    (Some {| defaultValue := Some (VString "d"); decrypt := None; useCache := None |})
    (Injector.constructor
       (Some (mkConfig (Some [Provider.memory 50 ∅]) None (Some true) None
                       None None None None)))
  = Some [] ∧
  result (Injector.get 0 "missing"
            (Some {| defaultValue := Some (VString "d"); decrypt := None;
                     useCache := None |})
            (Injector.constructor
               (Some (mkConfig (Some [Provider.memory 50 ∅]) None (Some true) None
                               None None None None))))
  = Ok (VString "d").
Proof.
  split; [reflexivity|].
  destruct (C8_default_on_miss 0 "missing"
              (Some {| defaultValue := Some (VString "d"); decrypt := None;
                       useCache := None |})
              (Injector.constructor
                 (Some (mkConfig (Some [Provider.memory 50 ∅]) None (Some true) None
                                 None None None None)))) as [Hzero _].
  exact (Hzero eq_refl).
Defined.

Lemma firstRejection_none ps :
  Forall (λ p, initFault p = None) ps → Injector.firstRejection ps = None.
Proof.
  induction 1 as [|p ps Hp _ IH]; [done|]. simpl. by rewrite Hp, IH.
Qed.

Lemma firstRejection_some ps :
  Exists (λ p, is_Some (initFault p)) ps →
  ∃ p t e, p ∈ ps ∧ initFault p = Some e ∧ Injector.firstRejection ps = Some (t, e).
Proof.
  induction ps as [|p ps IH]; intros Hex; [by apply Exists_nil in Hex|].
  simpl. destruct (initFault p) as [e|] eqn:Hp.
  - destruct (Injector.firstRejection ps) as [[t e']|] eqn:Hrest.
    + destruct (initSettles p <=? t)%nat.
      * exists p, (initSettles p), e. split_and!; [set_solver|done..].
      * destruct (decide (Exists (λ p, is_Some (initFault p)) ps)) as [Hex'|Hno].
        -- destruct (IH Hex') as (q & t' & e'' & Hq & Hfault & [= -> ->]).
           exists q, t', e''. split_and!; [set_solver|done..].
        -- rewrite firstRejection_none in Hrest; [done|].
           apply Forall_forall. intros q Hq.
           destruct (initFault q) eqn:Hfq; [|done].
           exfalso. apply Hno, Exists_exists. exists q. rewrite Hfq. eauto.
    + exists p, (initSettles p), e. split_and!; [set_solver|done..].
  - apply Exists_cons in Hex as [Hhere|Hex]; [rewrite Hp in Hhere; by destruct Hhere|].
    destruct (IH Hex) as (q & t & e & Hq & Hfault & ->).
    exists q, t, e. split_and!; [set_solver|done..].
Qed.

(** C7. [initialize] does nothing on an initialized injector; otherwise the
    flag becomes true exactly when every provider's [initialize] succeeds,
    and when some provider's fails the failure of one of them is raised and
    the injector is left as it was, flag false. *)
Theorem C7_initialize (s : PreferenceInjector) :
  let r := Injector.initialize s in
  (initialized s = true → r = mkRun (Ok ()) s []) ∧
  (initialized s = false →
   Forall (λ p, initFault p = None) (providers s) →
   result r = Ok () ∧ initialized (after r) = true ∧
   Injector.initialize (after r) = mkRun (Ok ()) (after r) []) ∧
  (initialized s = false →
   Exists (λ p, is_Some (initFault p)) (providers s) →
   ∃ p e, p ∈ providers s ∧ initFault p = Some e ∧
          result r = Err e ∧ after r = s ∧ initialized (after r) = false) ∧
  (initialized (after r) = true →
   initialized s = true ∨ Forall (λ p, initFault p = None) (providers s)).
Proof.
  intros r. subst r. unfold Injector.initialize, Injector.promiseAllInitialize.
  split_and!.
  - by intros ->.
  - intros -> Hall. rewrite firstRejection_none by done. by cbn.
  - intros Hinit Hex. rewrite Hinit.
    destruct (firstRejection_some _ Hex) as (p & t & e & Hp & Hfault & ->).
    exists p, e. by cbn.
  - intros Hflag. destruct (initialized s) eqn:Hinit; [by left|]. right.
    destruct (Injector.firstRejection (providers s)) as [[t e]|] eqn:Hrej.
    { simpl in Hflag. congruence. }
    apply Forall_forall. intros q Hq.
    destruct (initFault q) as [e|] eqn:Hfq; [|done]. exfalso.
    destruct (firstRejection_some (providers s)) as (? & ? & ? & _ & _ & Hsome).
    { apply Exists_exists. exists q. rewrite Hfq. eauto. }
    congruence.
Qed.

Lemma C7_initialize_witness :
  initialized Injector.halfBroken = false ∧
  ∃ p e, p ∈ providers Injector.halfBroken ∧ initFault p = Some e ∧
         result (Injector.initialize Injector.halfBroken) = Err e ∧
         after (Injector.initialize Injector.halfBroken) = Injector.halfBroken ∧
         initialized (after (Injector.initialize Injector.halfBroken)) = false.
Proof.
  split; [reflexivity|].
  destruct (C7_initialize Injector.halfBroken) as (_ & _ & Hfail & _).
  apply Hfail; [reflexivity|].
  apply Exists_cons_tl, Exists_cons_hd. simpl. eauto.
Defined.

(** *** Effects of the methods *)

Lemma emits_bind {A B} P (m : Method A) (f : A → Method B) :
  Injector.emits P m → (∀ a, Injector.emits P (f a)) → Injector.emits P (m ≫= f).
Proof.
  intros Hm Hf s. rewrite effects_bind. destruct (result (m s)); [|apply Hm].
  apply Forall_app. split; [apply Hm|apply Hf].
Qed.

Lemma emits_ret {A} P (a : A) : Injector.emits P (mret a).
Proof. intros s. constructor. Qed.

Lemma emits_throw {A} P e : Injector.emits P (@Injector.throw A e).
Proof. intros s. constructor. Qed.

Lemma emits_await {A} P (r : Result A) : Injector.emits P (Injector.await r).
Proof. intros s. constructor. Qed.

Lemma emits_read {A} P (f : PreferenceInjector → A) : Injector.emits P (Injector.read f).
Proof. intros s. constructor. Qed.

Lemma emits_cacheGet P now k : Injector.emits P (Injector.cacheGet now k).
Proof. intros s. unfold Injector.cacheGet. destruct (Cache_get _ _ _). constructor. Qed.

Lemma emits_cacheSet P now k m ttl : Injector.emits P (Injector.cacheSet now k m ttl).
Proof. intros s. constructor. Qed.

Lemma emits_cacheDelete P k : Injector.emits P (Injector.cacheDelete k).
Proof. intros s. constructor. Qed.

Lemma emits_writeProviders P now k v o : Injector.emits P (Injector.writeProviders now k v o).
Proof. intros s. unfold Injector.writeProviders. destruct (Injector.setAll _ _ _ _ _). constructor. Qed.

Lemma emits_log (P : Effect → Prop) entry : P (Logged entry) → Injector.emits P (Injector.log entry).
Proof. intros HP s. by repeat constructor. Qed.

Lemma emits_emitEvent (P : Effect → Prop) ev :
  P (Emitted ev) → Injector.emits P (Injector.emitEvent ev).
Proof. intros HP s. by repeat constructor. Qed.

Lemma emits_callValidator (P : Effect → Prop) k v :
  P (ValidatorCalled k v) → Injector.emits P (Injector.callValidator k v).
Proof. intros HP s. by repeat constructor. Qed.

Lemma emits_catchUndefined {A} P (m : Method A) :
  Injector.emits P m → Injector.emits P (Injector.catchUndefined m).
Proof. intros Hm s. apply Hm. Qed.

Lemma emits_impl {A} (P Q : Effect → Prop) (m : Method A) :
  (∀ eff, P eff → Q eff) → Injector.emits P m → Injector.emits Q m.
Proof. intros HPQ Hm s. eapply Forall_impl; [apply Hm|done]. Qed.

Ltac emits_step :=
  first
    [ apply emits_bind; [|intros ?]
    | apply emits_ret | apply emits_throw | apply emits_await | apply emits_read
    | apply emits_cacheGet | apply emits_cacheSet | apply emits_cacheDelete
    | apply emits_writeProviders
    | apply emits_log; cbn; auto; try done
    | apply emits_emitEvent; cbn; auto; try done
    | apply emits_callValidator; cbn; auto; try done
    | match goal with |- Injector.emits _ (match ?x with _ => _ end) => destruct x end
    | match goal with |- Injector.emits _ (if ?x then _ else _) => destruct x end ].

(** A read only writes GET and DECRYPT entries. *)
Lemma get_emits now k options : Injector.emits Injector.readLog (Injector.get now k options).
Proof. unfold Injector.get. repeat emits_step. Qed.

Ltac run_method :=
  cbv beta iota zeta delta
    [Injector.get Injector.noCache Injector.setWithOld Injector.set
     Injector.delete Injector.deleteWithOld
     mbind Method_bind mret Method_ret option_bind
     Injector.read Injector.await Injector.throw Injector.catchUndefined
     Injector.log Injector.emitEvent Injector.callValidator
     Injector.cacheSet Injector.cacheDelete
     notFalse truthy result after effects app negb default
     defaultValue decrypt useCache].

(** A read that bypasses the cache and fails leaves no trace. *)
Lemma get_noCache_failed now k s e :
  result (Injector.get now k Injector.noCache s) = Err e →
  after (Injector.get now k Injector.noCache s) = s ∧
  effects (Injector.get now k Injector.noCache s) = [].
Proof.
  run_method.
  destruct (Injector.gather k (providers s) []) as [results|e']; run_method; [|done].
  destruct results as [|m results]; run_method; [done|].
  destruct (ConflictResolver.resolve _ _) as [resolved|e']; run_method; [|done].
  destruct (value resolved); run_method; done.
Qed.

(** A read that bypasses the cache leaves the validator alone. *)
Lemma get_noCache_validator now k s :
  validator (after (Injector.get now k Injector.noCache s)) = validator s.
Proof.
  run_method.
  destruct (Injector.gather k (providers s) []) as [results|e']; run_method; [|done].
  destruct results as [|m results]; run_method; [done|].
  destruct (ConflictResolver.resolve _ _) as [resolved|e']; run_method; [|done].
  destruct (value resolved); run_method; done.
Qed.

Lemma set_unfold now k v options s :
  let r := Injector.get now k Injector.noCache s in
  let old := match result r with Ok a => Some a | Err _ => None end in
  let r' := Injector.setWithOld now k v options old (after r) in
  Injector.set now k v options s =
    mkRun (result r') (after r') (effects r ++ effects r').
Proof. reflexivity. Qed.

Lemma setWithOld_invalid now k v options old s :
  notFalse (options ≫= validate) = true →
  valid (Validator.validate (validator s) k v) = false →
  Injector.setWithOld now k v options old s =
    mkRun (Err (ValidationFailed (errors (Validator.validate (validator s) k v))))
          s [ValidatorCalled k v].
Proof.
  intros Hon Hinvalid. unfold Injector.setWithOld. rewrite Hon.
  cbv beta iota zeta delta
    [mbind Method_bind Injector.callValidator result after effects negb Injector.throw app].
  by rewrite Hinvalid.
Qed.

Lemma setWithOld_valid now k v options old s :
  notFalse (options ≫= validate) = true →
  valid (Validator.validate (validator s) k v) = true →
  ∃ rest, effects (Injector.setWithOld now k v options old s) =
            ValidatorCalled k v :: Logged (Injector.validateEntry now k v) :: rest.
Proof.
  intros Hon Hvalid. unfold Injector.setWithOld. rewrite Hon.
  rewrite effects_bind.
  cbv beta iota zeta delta
    [mbind Method_bind Injector.callValidator result after effects negb Injector.log app].
  rewrite Hvalid. cbv beta iota zeta delta [result after effects app]. eauto.
Qed.

Lemma setWithOld_skipped now k v options old :
  notFalse (options ≫= validate) = false →
  Injector.emits Injector.noValidation (Injector.setWithOld now k v options old).
Proof.
  intros Hoff. unfold Injector.setWithOld. rewrite Hoff. repeat emits_step.
Qed.

Lemma setWithOld_no_validate_log now k v options old s :
  valid (Validator.validate (validator s) k v) = false →
  Forall Injector.notValidateLog (effects (Injector.setWithOld now k v options old s)).
Proof.
  intros Hinvalid. destruct (notFalse (options ≫= validate)) eqn:Hon.
  - rewrite setWithOld_invalid by done. by repeat constructor.
  - eapply Forall_impl; [by apply setWithOld_skipped|]. by intros [].
Qed.

Lemma get_no_validation now k options s :
  Forall Injector.noValidation (effects (Injector.get now k options s)).
Proof.
  eapply Forall_impl; [apply get_emits|].
  intros [entry| |]; cbn; [|done..]. by intros [->| ->].
Qed.

Lemma set_calls_validator now k v options s :
  notFalse (options ≫= validate) = true →
  ValidatorCalled k v ∈ effects (Injector.set now k v options s).
Proof.
  intros Hon. rewrite set_unfold. cbn [effects].
  pose proof (get_noCache_validator now k s) as Hvd.
  set (g := Injector.get now k Injector.noCache s) in *.
  set (old := match result g with Ok a => Some a | Err _ => None end).
  destruct (valid (Validator.validate (validator s) k v)) eqn:Hvalid.
  - destruct (setWithOld_valid now k v options old (after g)) as [rest ->];
      [done|by rewrite Hvd|]. set_solver.
  - rewrite setWithOld_invalid by (done || by rewrite Hvd). set_solver.
Qed.

Lemma set_skips_validation now k v options s :
  notFalse (options ≫= validate) = false →
  Forall Injector.noValidation (effects (Injector.set now k v options s)).
Proof.
  intros Hoff. rewrite set_unfold. cbn [effects].
  apply Forall_app. split; [apply get_no_validation|].
  by apply setWithOld_skipped.
Qed.

(** C5 (as amended). In [set], unless [options.validate] is [false], the
    validator is called; when it reports the value invalid the call fails
    with the error that carries the list of validation errors and no
    VALIDATE entry is written to the audit log; when it reports the value
    valid the VALIDATE entry is written; when validation is skipped neither
    the validator is called nor a VALIDATE entry written. *)
Theorem C5_validation_in_set (now : Z) (k : string) (v : PreferenceValue)
    (options : option SetOptions) (s : PreferenceInjector) :
  let r := Injector.set now k v options s in
  let outcome := Validator.validate (validator s) k v in
  (notFalse (options ≫= validate) = true →
     ValidatorCalled k v ∈ effects r ∧
     (valid outcome = false →
        result r = Err (ValidationFailed (errors outcome)) ∧
        Forall Injector.notValidateLog (effects r)) ∧
     (valid outcome = true → Logged (Injector.validateEntry now k v) ∈ effects r)) ∧
  (notFalse (options ≫= validate) = false →
     Forall Injector.noValidation (effects r)).
Proof.
  intros r outcome. subst r outcome. rewrite set_unfold. cbn [result effects].
  pose proof (get_noCache_validator now k s) as Hvd.
  pose proof (get_no_validation now k Injector.noCache s) as Hget.
  set (g := Injector.get now k Injector.noCache s) in *.
  set (old := match result g with Ok a => Some a | Err _ => None end).
  split.
  - intros Hon. split_and!.
    + pose proof (set_calls_validator now k v options s Hon) as Hcall.
      by rewrite set_unfold in Hcall.
    + intros Hinvalid. rewrite setWithOld_invalid by (done || by rewrite Hvd).
      cbn [result effects]. rewrite Hvd. split; [done|].
      apply Forall_app. split; [|by repeat constructor].
      eapply Forall_impl; [exact Hget|]. by intros [].
    + intros Hvalid.
      destruct (setWithOld_valid now k v options old (after g)) as [rest ->];
        [done|by rewrite Hvd|]. set_solver.
  - intros Hoff. pose proof (set_skips_validation now k v options s Hoff) as Hskip.
    by rewrite set_unfold in Hskip.
Qed.

Lemma C5_validation_in_set_witness :
  notFalse (None ≫= validate) = true ∧
  valid (Validator.validate (validator Injector.strict) "email" (VString "invalid-email"))
    = false ∧
  result (Injector.set 0 "email" (VString "invalid-email") None Injector.strict) =
    Err (ValidationFailed
           [ {| rule := "never"; message := "rejected";
                rejected := VString "invalid-email" |} ]).
Proof.
  split; [reflexivity|]. split; [reflexivity|].
  destruct (C5_validation_in_set 0 "email" (VString "invalid-email") None
              Injector.strict) as [Hon _].
  destruct (Hon eq_refl) as (_ & Hinvalid & _).
  destruct (Hinvalid eq_refl) as [-> _]. reflexivity.
Defined.

(** The claim C5 as stated fails: when the validator rejects the value, [set]
    raises before the audit entry is written. *)
Lemma C5_invalid_not_logged_counterexample :
  result (Injector.set 0 "email" (VString "invalid-email") None Injector.strict) =
    Err (ValidationFailed
           [ {| rule := "never"; message := "rejected";
                rejected := VString "invalid-email" |} ]) ∧
  effects (Injector.set 0 "email" (VString "invalid-email") None Injector.strict) =
    [ValidatorCalled "email" (VString "invalid-email")] ∧
  Logged (Injector.validateEntry 0 "email" (VString "invalid-email"))
    ∉ effects (Injector.set 0 "email" (VString "invalid-email") None Injector.strict).
Proof.
  assert (effects (Injector.set 0 "email" (VString "invalid-email") None Injector.strict) =
          [ValidatorCalled "email" (VString "invalid-email")]) as Heff by reflexivity.
  split; [reflexivity|]. split; [exact Heff|].
  rewrite Heff. by intros ?%list_elem_of_singleton.
Qed.

(** C9. The constructor builds the same injector whatever the
    [enableValidation] flag, its validator being a new [PreferenceValidator];
    [set] calls the validator unless the call's own options say
    [validate: false], in which case it does not. *)
Theorem C9_enableValidation_ignored (config : InjectorConfig) (flag : option bool)
    (now : Z) (k : string) (v : PreferenceValue) (options : option SetOptions)
    (s : PreferenceInjector) :
  Injector.constructor (Some (Injector.withEnableValidation config flag)) =
    Injector.constructor (Some config) ∧
  validator (Injector.constructor (Some config)) = Validator.new ∧
  validator (Injector.constructor None) = Validator.new ∧
  ValidatorCalled k v ∈ effects (Injector.set now k v None s) ∧
  (options ≫= validate ≠ Some false →
     ValidatorCalled k v ∈ effects (Injector.set now k v options s)) ∧
  (options ≫= validate = Some false →
     ∀ k' v', ValidatorCalled k' v' ∉ effects (Injector.set now k v options s)).
Proof.
  split_and!.
  - unfold Injector.constructor, Injector.withEnableValidation. cbn -[truthy].
    by destruct (truthy flag), (truthy (enableValidation config)).
  - unfold Injector.constructor. cbn -[truthy]. by destruct (truthy _).
  - reflexivity.
  - by apply set_calls_validator.
  - intros Hnot. apply set_calls_validator.
    by destruct (options ≫= validate) as [[]|].
  - intros Hoff k' v' Hin.
    assert (notFalse (options ≫= validate) = false) as Hnf by (by rewrite Hoff).
    pose proof (set_skips_validation now k v options s Hnf) as Hskip.
    rewrite Forall_forall in Hskip. exact (Hskip _ Hin).
Qed.

Lemma C9_enableValidation_ignored_witness :
  Some (mkSetOptions None None None (Some false)) ≫= validate = Some false ∧
  validator (Injector.constructor
               (Some (mkConfig None None None None (Some false) None None None)))
    = Validator.new ∧
  ValidatorCalled "theme" (VString "dark")
    ∈ effects (Injector.set 0 "theme" (VString "dark") None
                 (Injector.constructor
                    (Some (mkConfig None None None None (Some false) None None None)))) ∧
  ValidatorCalled "theme" (VString "dark")
    ∉ effects (Injector.set 0 "theme" (VString "dark")
                 (Some (mkSetOptions None None None (Some false)))
                 (Injector.constructor
                    (Some (mkConfig None None None None (Some false) None None None)))).
Proof.
  destruct (C9_enableValidation_ignored
              (mkConfig None None None None (Some false) None None None) (Some true)
              0 "theme" (VString "dark")
              (Some (mkSetOptions None None None (Some false)))
              (Injector.constructor
                 (Some (mkConfig None None None None (Some false) None None None))))
    as (_ & Hvd & _ & Hdefault & _ & Hskip).
  split; [reflexivity|]. split; [exact Hvd|]. split; [exact Hdefault|].
  apply Hskip. reflexivity.
Defined.

Lemma run_eta {A} (r : Run A) : mkRun (result r) (after r) (effects r) = r.
Proof. by destruct r. Qed.

Lemma setWithOld_added now k v options :
  Injector.emits Injector.addedOnly (Injector.setWithOld now k v options None).
Proof. unfold Injector.setWithOld. repeat emits_step. Qed.

Lemma deleteWithOld_noOld now k :
  Injector.emits Injector.noOldValue (Injector.deleteWithOld now k None).
Proof.
  unfold Injector.deleteWithOld. repeat emits_step.
  intros s. destruct (Injector.deleteAll _ _ _). constructor.
Qed.

Lemma onSuccess_bind_r {A B} eff (m : Method A) (f : A → Method B) :
  (∀ a, Injector.onSuccess eff (f a)) → Injector.onSuccess eff (m ≫= f).
Proof.
  intros Hf s b. rewrite result_bind, effects_bind.
  destruct (result (m s)) as [a|]; [|done]. intros Hok.
  apply elem_of_app. right. by eapply Hf.
Qed.

Lemma setWithOld_emits_on_success now k v options old :
  Injector.onSuccess
    (Emitted {| eventType := match old with None => ADDED | Some _ => CHANGED end;
                eventKey := k; newValue := Some v; oldValue := old;
                eventProvider := "injector"; eventTimestamp := now |})
    (Injector.setWithOld now k v options old).
Proof.
  unfold Injector.setWithOld.
  repeat (apply onSuccess_bind_r; intros ?).
  intros s0 r0 _. cbn. set_solver.
Qed.

(** C10. When the read that captures the old value fails, with whatever
    error, [set] and [delete] go on as with no old value: [set] runs as
    [setWithOld] with no old value, each event it emits is an ADDED event
    with no old value, and when it succeeds it has emitted that ADDED event;
    [delete] runs as [deleteWithOld] with no old value. *)
Theorem C10_old_value_capture (now : Z) (k : string) (v : PreferenceValue)
    (options : option SetOptions) (s : PreferenceInjector) (e : PreferenceError) :
  result (Injector.get now k Injector.noCache s) = Err e →
  Injector.set now k v options s = Injector.setWithOld now k v options None s ∧
  Forall Injector.addedOnly (effects (Injector.set now k v options s)) ∧
  (result (Injector.set now k v options s) = Ok () →
     Emitted {| eventType := ADDED; eventKey := k; newValue := Some v;
                oldValue := None; eventProvider := "injector";
                eventTimestamp := now |}
       ∈ effects (Injector.set now k v options s)) ∧
  Injector.delete now k s = Injector.deleteWithOld now k None s ∧
  Forall Injector.noOldValue (effects (Injector.delete now k s)).
Proof.
  intros Hfail.
  destruct (get_noCache_failed now k s e Hfail) as [Hafter Heffects].
  assert (Injector.set now k v options s = Injector.setWithOld now k v options None s)
    as Hset.
  { rewrite set_unfold. cbv zeta. rewrite Hfail, Hafter, Heffects. apply run_eta. }
  assert (Injector.delete now k s = Injector.deleteWithOld now k None s) as Hdelete.
  { unfold Injector.delete, Injector.catchUndefined, mbind at 1, Method_bind at 1.
    cbv zeta. cbn [result after effects]. rewrite Hfail, Hafter, Heffects.
    apply run_eta. }
  rewrite Hset, Hdelete. split_and!.
  - done.
  - apply setWithOld_added.
  - intros Hok. by eapply (setWithOld_emits_on_success now k v options None).
  - done.
  - apply deleteWithOld_noOld.
Qed.

Lemma C10_old_value_capture_witness :
  result (Injector.get 0 "theme" Injector.noCache Injector.conflicted)
    = Err (ConflictError "theme" ["memory"; "memory"]) ∧
  result (Injector.set 0 "theme" (VString "blue") None Injector.conflicted) = Ok () ∧
  Emitted {| eventType := ADDED; eventKey := "theme"; newValue := Some (VString "blue");
             oldValue := None; eventProvider := "injector"; eventTimestamp := 0 |}
    ∈ effects (Injector.set 0 "theme" (VString "blue") None Injector.conflicted).
Proof.
  assert (result (Injector.get 0 "theme" Injector.noCache Injector.conflicted)
          = Err (ConflictError "theme" ["memory"; "memory"])) as Hfail by reflexivity.
  assert (result (Injector.set 0 "theme" (VString "blue") None Injector.conflicted)
          = Ok ()) as Hok by reflexivity.
  split; [exact Hfail|]. split; [exact Hok|].
  destruct (C10_old_value_capture 0 "theme" (VString "blue") None Injector.conflicted
              _ Hfail) as (_ & _ & Hadded & _).
  exact (Hadded Hok).
Defined.

(** The same with a provider whose read rejects: the write still goes to
    both providers and the event is ADDED. *)
Example set_after_provider_failure :
  result (Injector.get 0 "theme" Injector.noCache Injector.halfBroken)
    = Err (ProviderError "file" "get") ∧
  result (Injector.set 0 "theme" (VString "blue") None Injector.halfBroken) = Ok () ∧
  Forall (λ p, is_Some (preferences p !! "theme"))
    (providers (after (Injector.set 0 "theme" (VString "blue") None Injector.halfBroken))) ∧
  last (effects (Injector.set 0 "theme" (VString "blue") None Injector.halfBroken)) =
    Some (Emitted {| eventType := ADDED; eventKey := "theme";
                     newValue := Some (VString "blue"); oldValue := None;
                     eventProvider := "injector"; eventTimestamp := 0 |}).
Proof.
  split; [reflexivity|]. split; [reflexivity|]. split; [|reflexivity].
  repeat constructor; by eexists.
Qed.

End injector.

(** * Further properties of the code *)

(** ** ConflictResolver: failures, OVERRIDE, input order *)

Section resolver_more.
Import ConflictResolver.
Local Open Scope Z_scope.

Lemma pickLatest_cases l c :
  (pickLatest l c = l ∧ timestamp c ≤ timestamp l) ∨
  (pickLatest l c = c ∧ timestamp l < timestamp c).
Proof.
  unfold pickLatest. rewrite Z.gtb_ltb.
  destruct (Z.ltb_spec (timestamp l) (timestamp c)); [right|left]; (split; [done|lia]).
Qed.

Lemma foldl_pickLatest l : ∀ x,
  foldl pickLatest x l ∈ x :: l ∧
  ∀ c, c ∈ x :: l → timestamp c ≤ timestamp (foldl pickLatest x l).
Proof.
  induction l as [|y l IH]; intros x; simpl.
  - split; [set_solver|]. intros c ->%list_elem_of_singleton. lia.
  - destruct (IH (pickLatest x y)) as [Hin Hmax].
    assert (timestamp (pickLatest x y) ≤ timestamp (foldl pickLatest (pickLatest x y) l))
      as Hself by (apply Hmax; set_solver).
    destruct (pickLatest_cases x y) as [[E Hr]|[E Hr]]; rewrite E in *.
    + split; [set_solver|]. intros c Hc.
      apply elem_of_cons in Hc as [->|Hc]; [done|].
      apply elem_of_cons in Hc as [->|Hc]; [lia|].
      apply Hmax; set_solver.
    + split; [set_solver|]. intros c Hc.
      apply elem_of_cons in Hc as [->|Hc]; [lia|].
      apply Hmax; set_solver.
Qed.

(** X1. [resolve] fails only in three ways: with the Conflict error for the
    key ["unknown"] on an empty collection, with the Conflict error naming
    the first record's key and every source in input order under ERROR, and
    with the unknown-strategy error; under the four resolving strategies a
    non-empty collection always resolves. *)
Theorem X1_resolve_failures (conflicts : list PreferenceMetadata)
    (strategy : ConflictResolution) :
  ((∃ r, resolve conflicts strategy = Ok r) ↔
     length conflicts = 1%nat ∨
     ((2 ≤ length conflicts)%nat ∧ resolves strategy = true)) ∧
  (∀ e, resolve conflicts strategy = Err e →
     (conflicts = [] ∧ e = ConflictError "unknown" []) ∨
     (∃ first rest, conflicts = first :: rest ∧ strategy = ERROR ∧
        e = ConflictError (key first) (source <$> conflicts)) ∨
     (∃ name, strategy = UnrecognizedStrategy name ∧
        e = PlainError ("Unknown conflict resolution strategy: " +:+ name))).
Proof.
  destruct conflicts as [|x [|y l]].
  - split; [|intros e [= <-]; by left].
    split; [by intros [r ?]|]. simpl. intros [?|[? _]]; lia.
  - split; [|done]. split; [by left|by eexists].
  - assert (2 ≤ length (x :: y :: l))%nat as Hlen by (simpl; lia).
    split.
    + split.
      * intros [r Hr]. right. split; [done|]. by destruct strategy.
      * intros [Hone|[_ Hres]]; [simpl in Hone; lia|].
        destruct strategy; try done; try by eexists.
        rewrite resolve_MERGE by done. unfold resolveByMerge.
        destruct (sorted_last_exists (x :: y :: l)) as [top ->]; [simpl; lia|].
        by eexists.
    + intros e He. destruct strategy; try done.
      * rewrite resolve_MERGE in He by done. unfold resolveByMerge in He.
        destruct (sorted_last_exists (x :: y :: l)) as [top Htop]; [simpl; lia|].
        by rewrite Htop in He.
      * injection He as <-. right. left. by exists x, (y :: l).
      * injection He as <-. right. right. by eexists.
Qed.

(** X2. With two or more records, OVERRIDE returns a record of the input
    whose timestamp is the greatest, whatever the priorities. *)
Theorem X2_override_latest (conflicts : list PreferenceMetadata) :
  (2 ≤ length conflicts)%nat →
  ∃ r, resolve conflicts OVERRIDE = Ok r ∧ r ∈ conflicts ∧
       ∀ c, c ∈ conflicts → timestamp c ≤ timestamp r.
Proof.
  destruct conflicts as [|x [|y l]]; simpl; [lia..|]. intros _.
  destruct (foldl_pickLatest (y :: l) x) as [Hin Hmax].
  eexists. split; [reflexivity|]. split; [exact Hin|exact Hmax].
Qed.

Lemma X2_override_latest_witness :
  (2 ≤ length samePriority)%nat ∧
  ∃ r, resolve samePriority OVERRIDE = Ok r ∧ source r = "new".
Proof.
  assert (2 ≤ length samePriority)%nat as Hlen by (simpl; lia).
  split; [exact Hlen|].
  destruct (X2_override_latest samePriority Hlen) as (r & Hr & _ & _).
  exists r. split; [exact Hr|]. vm_compute in Hr. by injection Hr as <-.
Defined.

Lemma NoDup_fmap_eq {A B} (f : A → B) (l : list A) x y :
  NoDup (f <$> l) → x ∈ l → y ∈ l → f x = f y → x = y.
Proof.
  induction l as [|z l IH]; [by intros _ ?%elem_of_nil|].
  rewrite fmap_cons. intros [Hz Hnd]%NoDup_cons Hx Hy Hf.
  apply elem_of_cons in Hx as [->|Hx]; apply elem_of_cons in Hy as [->|Hy].
  - done.
  - exfalso. apply Hz. rewrite Hf. by apply list_elem_of_fmap_2.
  - exfalso. apply Hz. rewrite <-Hf. by apply list_elem_of_fmap_2.
  - by apply IH.
Qed.

Lemma resolve_selection_perm (pick : PreferenceMetadata → PreferenceMetadata → PreferenceMetadata)
    (le : PreferenceMetadata → PreferenceMetadata → Prop)
    (l1 l2 : list PreferenceMetadata) :
  (∀ l x, foldl pick x l ∈ x :: l ∧ ∀ c, c ∈ x :: l → le c (foldl pick x l)) →
  (∀ a b, a ∈ l1 → b ∈ l1 → le a b → le b a → a = b) →
  l1 ≡ₚ l2 → reduce pick l1 = reduce pick l2.
Proof.
  intros Hfold Hanti Hperm.
  destruct l1 as [|x1 l1], l2 as [|x2 l2].
  - done.
  - by apply Permutation_nil_l in Hperm.
  - by apply Permutation_nil_r in Hperm.
  - simpl. f_equal.
    destruct (Hfold l1 x1) as [Hin1 Hmax1], (Hfold l2 x2) as [Hin2 Hmax2].
    apply Hanti.
    + done.
    + by rewrite Hperm.
    + apply Hmax2. by rewrite <-Hperm.
    + apply Hmax1. by rewrite Hperm.
Qed.

Lemma resolve_reduce conflicts strategy pick :
  (∀ cs, match strategy with
         | HIGHEST_PRIORITY => resolveByHighestPriority cs
         | LOWEST_PRIORITY => resolveByLowestPriority cs
         | OVERRIDE => resolveByOverride cs
         | _ => reduce pick cs
         end = reduce pick cs) →
  selects strategy = true →
  conflicts ≠ [] →
  resolve conflicts strategy = reduce pick conflicts.
Proof.
  intros Hpick Hsel Hne. destruct conflicts as [|x [|y l]]; [done|done|].
  specialize (Hpick (x :: y :: l)). by destruct strategy.
Qed.

(** X3. The winner does not depend on the order of the input: when no two
    records share both priority and timestamp, HIGHEST_PRIORITY and
    LOWEST_PRIORITY give the same result on every reordering of the
    collection, and so does OVERRIDE when no two records share a timestamp. *)
Theorem X3_selection_ignores_input_order (l1 l2 : list PreferenceMetadata) :
  l1 ≡ₚ l2 →
  (NoDup ((λ c, (priority c, timestamp c)) <$> l1) →
   resolve l1 HIGHEST_PRIORITY = resolve l2 HIGHEST_PRIORITY ∧
   resolve l1 LOWEST_PRIORITY = resolve l2 LOWEST_PRIORITY) ∧
  (NoDup (timestamp <$> l1) → resolve l1 OVERRIDE = resolve l2 OVERRIDE).
Proof.
  intros Hperm.
  assert (l1 = [] ∨ (l1 ≠ [] ∧ l2 ≠ [])) as [->|[Hne1 Hne2]].
  { destruct l1; [by left|right]. split; [done|].
    intros ->. by apply Permutation_nil_r in Hperm. }
  { apply Permutation_nil_l in Hperm as ->. done. }
  split.
  - intros Hnd.
    assert (∀ a b, a ∈ l1 → b ∈ l1 → rank_le a b → rank_le b a → a = b) as Hanti.
    { intros a b Ha Hb Hab Hba.
      apply (NoDup_fmap_eq (λ c, (priority c, timestamp c)) l1); [done..|].
      unfold rank_le in *. f_equal; lia. }
    split.
    + rewrite !(resolve_reduce _ HIGHEST_PRIORITY pickHighest) by done.
      apply (resolve_selection_perm _ rank_le); [apply foldl_pickHighest|done..].
    + rewrite !(resolve_reduce _ LOWEST_PRIORITY pickLowest) by done.
      apply (resolve_selection_perm _ (λ a b, rank_le b a));
        [apply foldl_pickLowest| |done].
      intros a b Ha Hb Hab Hba. by apply Hanti.
  - intros Hnd.
    rewrite !(resolve_reduce _ OVERRIDE pickLatest) by done.
    apply (resolve_selection_perm _ (λ a b, timestamp a ≤ timestamp b));
      [apply foldl_pickLatest| |done].
    intros a b Ha Hb Hab Hba.
    apply (NoDup_fmap_eq timestamp l1); [done..|lia].
Qed.

Lemma X3_selection_ignores_input_order_witness :
  lowFirst ≡ₚ reverse lowFirst ∧
  NoDup ((λ c, (priority c, timestamp c)) <$> lowFirst) ∧
  resolve lowFirst HIGHEST_PRIORITY = resolve (reverse lowFirst) HIGHEST_PRIORITY.
Proof.
  assert (lowFirst ≡ₚ reverse lowFirst) as Hperm by (symmetry; apply reverse_Permutation).
  assert (NoDup ((λ c, (priority c, timestamp c)) <$> lowFirst)) as Hnd by compute_done.
  split; [exact Hperm|]. split; [exact Hnd|].
  destruct (X3_selection_ignores_input_order lowFirst (reverse lowFirst) Hperm)
    as [Hsel _].
  exact (proj1 (Hsel Hnd)).
Defined.

(** X4. Resolving record by record gives what resolving the collection at
    once gives, for the strategies that return one of the records: the
    winner of [init] followed by [c] is the winner of the pair made of the
    winner of [init] and [c].  This is how [getAll] accumulates. *)
Theorem X4_pairwise_resolution (init : list PreferenceMetadata)
    (c : PreferenceMetadata) (strategy : ConflictResolution) :
  init ≠ [] → selects strategy = true →
  resolve (init ++ [c]) strategy =
    resolve init strategy ≫= λ r, resolve [r; c] strategy.
Proof.
  intros Hne Hsel.
  assert (∀ pick : PreferenceMetadata → PreferenceMetadata → PreferenceMetadata,
            reduce pick (init ++ [c]) = reduce pick init ≫= λ r, reduce pick [r; c])
    as Hreduce.
  { intros pick. destruct init as [|x l]; [done|]. simpl. by rewrite foldl_app. }
  assert (init ++ [c] ≠ []) as Hne' by (by destruct init).
  destruct strategy; try done.
  - rewrite (resolve_reduce _ HIGHEST_PRIORITY pickHighest) by done.
    rewrite (resolve_reduce init HIGHEST_PRIORITY pickHighest) by done.
    apply Hreduce.
  - rewrite (resolve_reduce _ LOWEST_PRIORITY pickLowest) by done.
    rewrite (resolve_reduce init LOWEST_PRIORITY pickLowest) by done.
    apply Hreduce.
  - rewrite (resolve_reduce _ OVERRIDE pickLatest) by done.
    rewrite (resolve_reduce init OVERRIDE pickLatest) by done.
    apply Hreduce.
Qed.

Lemma X4_pairwise_resolution_witness :
  samePriority ≠ [] ∧ selects LOWEST_PRIORITY = true ∧
  resolve (samePriority ++ [record "c" 10 0 VNull]) LOWEST_PRIORITY =
    Ok (record "c" 10 0 VNull).
Proof.
  split; [done|]. split; [done|].
  rewrite (X4_pairwise_resolution samePriority (record "c" 10 0 VNull)
             LOWEST_PRIORITY); [reflexivity|done|done].
Defined.

End resolver_more.

(** ** ConflictResolver: algebra of [deepMerge] *)

Section merge_more.
Import ConflictResolver.

Lemma mergeProp_fresh result k v :
  k ∉ result.*1 → mergeProp result (k, v) = createOwn k v result.
Proof.
  intros Hfresh. unfold mergeProp, storeOwn. apply ownProp_None in Hfresh as ->.
  by destruct v.
Qed.

Lemma mergeEntries_fresh_perm es : ∀ result,
  NoDup es.*1 → (∀ k, k ∈ es.*1 → k ∉ result.*1) →
  mergeEntries result es ≡ₚ result ++ es.
Proof.
  induction es as [|[k0 v0] es IH]; intros result Hnd Hdisj.
  { by rewrite app_nil_r. }
  rewrite fmap_cons in Hnd, Hdisj. apply NoDup_cons in Hnd as [Hk0 Hnd].
  change (mergeEntries result ((k0, v0) :: es))
    with (mergeEntries (mergeProp result (k0, v0)) es).
  rewrite mergeProp_fresh by (apply Hdisj; set_solver).
  rewrite IH; [|done|].
  - rewrite createOwn_perm. by rewrite <-Permutation_middle.
  - intros k Hk. rewrite createOwn_perm, fmap_cons. cbn [fst].
    intros [->|Hin]%elem_of_cons; [done|]. by apply (Hdisj k); [set_solver|].
Qed.

(** X5. Merging two mappings that share no key keeps every entry of both,
    unchanged, and lists them in [Object.entries] order, the array indices
    first; when the entries of the first followed by those of the second are
    already in that order, the result is their concatenation.  The mappings
    are without [__proto__] and the first is as [JSON.parse] builds it. *)
Theorem X5_merge_disjoint (ea eb : list (string * PreferenceValue)) :
  protoFree (VObject ea) → protoFree (VObject eb) →
  NoDup ea.*1 → ownOrdered ea → NoDup eb.*1 → (∀ k, k ∈ eb.*1 → k ∉ ea.*1) →
  ∃ merged,
    deepMerge [VObject ea; VObject eb] = VObject merged ∧
    merged ≡ₚ ea ++ eb ∧ ownOrdered merged ∧
    (ownOrdered (ea ++ eb) → merged = ea ++ eb).
Proof.
  intros Hafree Hbfree Ha Hs Hb Hdisj. exists (mergeEntries ea eb).
  split; [by apply deepMerge_pair|].
  split; [by apply mergeEntries_fresh_perm|].
  split; [by apply mergeEntries_ordered|].
  intros Hboth. by apply mergeEntries_copy.
Qed.

Lemma X5_merge_disjoint_witness :
  deepMerge [VObject [("b", VNumber 1)]; VObject [("1", VNumber 2)]] =
    VObject [("1", VNumber 2); ("b", VNumber 1)] ∧
  deepMerge [VObject [("a", VNumber 1)]; VObject [("b", VNumber 2)]] =
    VObject [("a", VNumber 1); ("b", VNumber 2)].
Proof.
  split; [reflexivity|].
  destruct (X5_merge_disjoint [("a", VNumber 1)] [("b", VNumber 2)])
    as (merged & -> & _ & _ & Hconcat).
  - simpl. split; [compute_done|done].
  - simpl. split; [compute_done|done].
  - compute_done.
  - repeat constructor.
  - compute_done.
  - intros k Hk Hk'. apply list_elem_of_singleton in Hk, Hk'. by subst.
  - f_equal. apply Hconcat. repeat constructor.
Defined.

Lemma mergeProp_key_set result e k :
  k ∈ (mergeProp result e).*1 ↔ k = e.1 ∨ k ∈ result.*1.
Proof.
  destruct (mergeProp_store result e) as (v & -> & _).
  rewrite storeOwn_keys. case_bool_decide; set_solver.
Qed.

Lemma mergeEntries_key_set es : ∀ result k,
  k ∈ (mergeEntries result es).*1 ↔ k ∈ result.*1 ∨ k ∈ es.*1.
Proof.
  induction es as [|e es IH]; intros result k.
  { rewrite fmap_nil. set_solver. }
  change (mergeEntries result (e :: es)) with (mergeEntries (mergeProp result e) es).
  rewrite IH, mergeProp_key_set, fmap_cons. set_solver.
Qed.

Lemma mergeProp_prefix result e :
  arrayIndex e.1 = None ∨ e.1 ∈ result.*1 →
  result.*1 `prefix_of` (mergeProp result e).*1.
Proof.
  intros Hkey. destruct (mergeProp_store result e) as (v & -> & _).
  unfold storeOwn. destruct (ownProp result e.1) eqn:Hown.
  { by rewrite assignOwn_keys. }
  apply ownProp_None in Hown. destruct Hkey as [Hplain|]; [|done].
  unfold createOwn. rewrite Hplain, fmap_app. by apply prefix_app_r.
Qed.

Lemma mergeEntries_prefix es : ∀ result,
  Forall (λ k, arrayIndex k = None ∨ k ∈ result.*1) es.*1 →
  result.*1 `prefix_of` (mergeEntries result es).*1.
Proof.
  induction es as [|e es IH]; intros result Hkeys; [done|].
  rewrite fmap_cons in Hkeys. apply Forall_cons in Hkeys as [He Hkeys].
  change (mergeEntries result (e :: es)) with (mergeEntries (mergeProp result e) es).
  etrans; [by apply mergeProp_prefix|]. apply IH.
  eapply Forall_impl; [exact Hkeys|]. intros k [Hk|Hk]; [by left|right].
  apply mergeProp_key_set. by right.
Qed.

(** X6. The merge of two mappings without [__proto__] holds exactly the
    keys of the one or the other, each once, in [Object.entries] order, the
    array indices first; when every key that the second mapping adds is not
    an array index, the keys of the first mapping come first, in their
    order. *)
Theorem X6_merge_keys (ea eb : list (string * PreferenceValue)) :
  protoFree (VObject ea) → protoFree (VObject eb) →
  NoDup ea.*1 → ownOrdered ea →
  ∃ merged,
    deepMerge [VObject ea; VObject eb] = VObject merged ∧
    NoDup merged.*1 ∧ ownOrdered merged ∧
    (∀ k, k ∈ merged.*1 ↔ k ∈ ea.*1 ∨ k ∈ eb.*1) ∧
    (Forall (λ k, arrayIndex k = None ∨ k ∈ ea.*1) eb.*1 →
     ea.*1 `prefix_of` merged.*1).
Proof.
  intros Hafree Hbfree Ha Hs. exists (mergeEntries ea eb).
  split; [by apply deepMerge_pair|].
  split; [by apply mergeEntries_NoDup|].
  split; [by apply mergeEntries_ordered|].
  split; [intros k; apply mergeEntries_key_set|apply mergeEntries_prefix].
Qed.

Lemma X6_merge_keys_witness :
  ∃ merged,
    deepMerge [VObject [("a", VNumber 1); ("b", VNull)];
               VObject [("c", VNull); ("7", VNull); ("a", VNumber 2)]] = VObject merged ∧
    merged.*1 = ["7"; "a"; "b"; "c"].
Proof.
  destruct (X6_merge_keys [("a", VNumber 1); ("b", VNull)]
              [("c", VNull); ("7", VNull); ("a", VNumber 2)])
    as (merged & Hm & _).
  - simpl. split; [|done]. compute_done.
  - simpl. split; [|done]. compute_done.
  - compute_done.
  - repeat constructor.
  - exists merged. split; [exact Hm|].
    vm_compute in Hm. by injection Hm as <-.
Defined.

Lemma wfValue_VObject es :
  wfValue (VObject es) ↔
  NoDup es.*1 ∧ "__proto__" ∉ es.*1 ∧ ownOrdered es ∧
  ∀ k v, (k, v) ∈ es → wfValue v.
Proof.
  cbn [wfValue]. unfold ownOrdered.
  do 3 apply and_iff_compat_l.
  induction es as [|[k0 v0] es IH].
  - split; [by intros _ k v ?%elem_of_nil|done].
  - rewrite IH. split.
    + intros [H0 Hes] k v [[= -> ->]|Hin]%elem_of_cons; [done|by eapply Hes].
    + intros Hall. split; [apply (Hall k0); set_solver|].
      intros k v Hin. apply (Hall k). set_solver.
Qed.

Lemma entry_depth es k v : (k, v) ∈ es → (depth v ≤ entriesDepth es)%nat.
Proof.
  induction es as [|[k0 v0] es IH]; [by intros ?%elem_of_nil|].
  intros [[= -> ->]|Hin]%elem_of_cons; simpl; [lia|].
  apply IH in Hin. lia.
Qed.

Lemma wfValue_protoFree n : ∀ v, (depth v ≤ n)%nat → wfValue v → protoFree v.
Proof.
  induction n as [|n IH]; intros v Hd Hwf; destruct v as [| | | |es|]; try done.
  { rewrite depth_VObject in Hd. lia. }
  apply wfValue_VObject in Hwf as (_ & Hkeys & _ & Hwf). rewrite depth_VObject in Hd.
  apply protoFree_VObject. split; [done|]. apply Forall_forall. intros [k v] Hin.
  apply IH; [|by eapply Hwf]. apply entry_depth in Hin. simpl. lia.
Qed.

Lemma ownProp_found es k v : NoDup es.*1 → (k, v) ∈ es → ownProp es k = Some v.
Proof.
  induction es as [|[k0 v0] es IH]; [by intros _ ?%elem_of_nil|].
  rewrite fmap_cons. intros [Hk0 Hnd]%NoDup_cons [[= -> ->]|Hin]%elem_of_cons; simpl.
  - by rewrite String.eqb_refl.
  - destruct (String.eqb_spec k0 k) as [->|Hne]; [|by apply IH].
    exfalso. apply Hk0. by apply (list_elem_of_fmap_2 fst _ (k, v)).
Qed.

Lemma assignOwn_same result k v : ownProp result k = Some v → assignOwn k v result = result.
Proof.
  induction result as [|[k0 v0] result IH]; simpl; [done|].
  destruct (String.eqb_spec k0 k) as [->|Hne]; [by intros [= ->]|].
  intros Hk. by rewrite IH.
Qed.

Lemma storeOwn_same result k v : ownProp result k = Some v → storeOwn k v result = result.
Proof. intros Hk. unfold storeOwn. rewrite Hk. by apply assignOwn_same. Qed.

Lemma mergeEntries_same es : ∀ result,
  (∀ k v, (k, v) ∈ es →
     ownProp result k = Some v ∧
     (isPlainObject v = true → deepMerge [v; v] = v)) →
  mergeEntries result es = result.
Proof.
  induction es as [|[k v] es IH]; intros result Hall; [done|].
  change (mergeEntries result ((k, v) :: es))
    with (mergeEntries (mergeProp result (k, v)) es).
  destruct (Hall k v) as [Hk Hsame]; [set_solver|].
  assert (mergeProp result (k, v) = result) as ->.
  { unfold mergeProp. rewrite Hk.
    destruct v; try by apply storeOwn_same.
    rewrite Hsame by done. by apply storeOwn_same. }
  apply IH. intros k' v' Hin. apply Hall. set_solver.
Qed.

Lemma deepMerge_same n : ∀ v,
  (depth v ≤ n)%nat → wfValue v → isPlainObject v = true → deepMerge [v; v] = v.
Proof.
  induction n as [|n IH]; intros v Hd Hwf Hobj; destruct v as [| | | |es|]; try done.
  { rewrite depth_VObject in Hd. lia. }
  pose proof (wfValue_protoFree _ _ (le_n _) Hwf) as Hfree.
  apply wfValue_VObject in Hwf as (Hnd & _ & Hs & Hwf). rewrite depth_VObject in Hd.
  rewrite deepMerge_pair by done. f_equal.
  apply mergeEntries_same. intros k v Hin. split; [by apply ownProp_found|].
  apply IH; [|by eapply Hwf]. apply entry_depth in Hin. lia.
Qed.

Lemma mergeValues_copies es n : ∀ result,
  mergeEntries result es = result →
  foldl mergeValue result (replicate n (VObject es)) = result.
Proof.
  induction n as [|n IH]; intros result Hsame; [done|].
  simpl. rewrite Hsame. by apply IH.
Qed.

Lemma last_copies {A} (x : A) n : last (replicate (S n) x) = Some x.
Proof.
  induction n as [|n IH]; [done|].
  change (replicate (S (S n)) x) with (x :: replicate (S n) x).
  destruct (replicate (S n) x) eqn:Hr; [done|]. by rewrite last_cons_cons.
Qed.

Lemma deepMerge_copies (v : PreferenceValue) (n : nat) :
  wfValue v → deepMerge (replicate (S n) v) = v.
Proof.
  intros Hwf.
  destruct (isPlainObject v) eqn:Hobj.
  2:{ rewrite deepMerge_last by (cbn [replicate forallb]; by rewrite Hobj).
      by rewrite last_copies. }
  pose proof (wfValue_protoFree _ _ (le_n _) Hwf) as Hfree.
  rewrite deepMerge_unfold by (by apply Forall_replicate).
  destruct v as [| | | |es|]; try done.
  assert (forallb isPlainObject (replicate (S n) (VObject es)) = true) as ->.
  { apply forallb_forall. intros x Hx%list_elem_of_In.
    by apply elem_of_replicate in Hx as [-> _]. }
  f_equal. unfold mergeValues. cbn [replicate foldl mergeValue].
  pose proof Hwf as (Hnd & _ & Hs & _)%wfValue_VObject.
  rewrite (mergeEntries_copy es []); [|done|set_solver|done]. simpl.
  apply mergeValues_copies.
  pose proof (deepMerge_same (depth (VObject es)) (VObject es)) as Hsame.
  rewrite deepMerge_pair in Hsame by done.
  injection (Hsame (le_n _) Hwf eq_refl) as Hsame'. exact Hsame'.
Qed.

(** X7. Merging copies of one value gives that value back: for every value
    as [JSON.parse] builds it with no own property named [__proto__] (in
    every mapping the keys are distinct, none is [__proto__] and they come
    in [Object.entries] order), [deepMerge] of one or more copies of the
    value is the value itself. *)
Theorem X7_merge_idempotent (v : PreferenceValue) (n : nat) :
  wfValue v → deepMerge (replicate (S n) v) = v.
Proof. apply deepMerge_copies. Qed.

Lemma X7_merge_idempotent_witness :
  wfValue (VObject [("ui", VObject [("theme", VString "dark")]); ("n", VNumber 1)]) ∧
  deepMerge (replicate 3
    (VObject [("ui", VObject [("theme", VString "dark")]); ("n", VNumber 1)])) =
  VObject [("ui", VObject [("theme", VString "dark")]); ("n", VNumber 1)].
Proof.
  assert (wfValue (VObject [("ui", VObject [("theme", VString "dark")]);
                            ("n", VNumber 1)])) as Hwf.
  { apply wfValue_VObject. split; [compute_done|]. split; [compute_done|].
    split; [repeat constructor|].
    intros k v [[= -> ->]|[[= -> ->]|[]%elem_of_nil]%elem_of_cons]%elem_of_cons; [|done].
    apply wfValue_VObject. split; [compute_done|]. split; [compute_done|].
    split; [repeat constructor|].
    by intros k' v' [[= -> ->]|[]%elem_of_nil]%elem_of_cons. }
  split; [exact Hwf|]. exact (X7_merge_idempotent _ 2 Hwf).
Defined.

End merge_more.

(** ** LRUCache: invariants, round trips, expiry *)

Section lru_more.
Import LRUCache.

Lemma set_push now key v ttl c :
  let pushed :=
    {| cache := <[key := mkEntry v (now + ttlOrDefault ttl c)%Z]> (cache c);
       accessOrder :=
         (if bool_decide (is_Some (cache c !! key))
          then removeFirst key (accessOrder c) else accessOrder c) ++ [key];
       maxSize := maxSize c; defaultTTL := defaultTTL c |} in
  set now key v ttl c =
    if (maxSize c <? base.size (cache pushed))%nat then evictOldest pushed else pushed.
Proof. unfold set. by case_bool_decide. Qed.

Lemma pushed_consistent_any key e c :
  consistent c →
  consistent
    {| cache := <[key := e]> (cache c);
       accessOrder :=
         (if bool_decide (is_Some (cache c !! key))
          then removeFirst key (accessOrder c) else accessOrder c) ++ [key];
       maxSize := maxSize c; defaultTTL := defaultTTL c |}.
Proof.
  intros [Hnd Hdom]. case_bool_decide as Hcached.
  - split; cbn [accessOrder cache].
    + apply NoDup_app. split_and!; [by apply removeFirst_NoDup| |apply NoDup_singleton].
      intros x Hx ->%list_elem_of_singleton.
      apply removeFirst_elem in Hx; [|done]. tauto.
    + intros k. rewrite elem_of_app, list_elem_of_singleton.
      rewrite removeFirst_elem by done. rewrite Hdom, lookup_insert_is_Some.
      destruct (decide (key = k)); naive_solver.
  - apply pushed_consistent; [done|]. by apply eq_None_not_Some.
Qed.

Lemma evictOldest_consistent c : consistent c → consistent (evictOldest c).
Proof.
  intros Hc. unfold evictOldest. destruct (accessOrder c); [done|].
  by apply delete_consistent.
Qed.

Lemma set_consistent now key v ttl c : consistent c → consistent (set now key v ttl c).
Proof.
  intros Hc. rewrite set_push. cbv zeta.
  destruct (_ <? _)%nat; [apply evictOldest_consistent|]; by apply pushed_consistent_any.
Qed.

Lemma updateAccessOrder_consistent key c :
  consistent c → is_Some (cache c !! key) → consistent (updateAccessOrder key c).
Proof.
  intros [Hnd Hdom] Hcached. split; cbn [updateAccessOrder accessOrder cache removeFromAccessOrder].
  - apply NoDup_app. split_and!; [by apply removeFirst_NoDup| |apply NoDup_singleton].
    intros x Hx ->%list_elem_of_singleton.
    apply removeFirst_elem in Hx; [|done]. tauto.
  - intros k. rewrite elem_of_app, list_elem_of_singleton.
    rewrite removeFirst_elem by done. rewrite Hdom.
    destruct (decide (k = key)) as [->|]; naive_solver.
Qed.

Lemma get_consistent now key c : consistent c → consistent (get now key c).2.
Proof.
  intros Hc. unfold get. destruct (cache c !! key) as [entry|] eqn:Hk; [|done].
  destruct (now >? expiresAt entry)%Z; [by apply delete_consistent|].
  apply updateAccessOrder_consistent; [done|by rewrite Hk].
Qed.

Lemma has_consistent now key c : consistent c → consistent (has now key c).2.
Proof.
  intros Hc. unfold has. destruct (cache c !! key) as [entry|]; [|done].
  destruct (now >? expiresAt entry)%Z; [by apply delete_consistent|done].
Qed.

Lemma clear_consistent c : consistent (clear c).
Proof.
  split; [constructor|]. intros k. cbn. rewrite lookup_empty.
  split; [by intros ?%elem_of_nil|by intros [? ?]].
Qed.

Lemma perform_consistent c call : consistent c → consistent (perform c call).
Proof.
  intros Hc. destruct call; cbn [perform].
  - by apply set_consistent.
  - by apply get_consistent.
  - by apply has_consistent.
  - by apply delete_consistent.
  - apply clear_consistent.
Qed.

Lemma delete_size key c : (base.size (cache (delete key c).2) ≤ base.size (cache c))%nat.
Proof. cbn. apply map_subseteq_size, delete_subseteq. Qed.

Lemma delete_maxSize key c : maxSize (delete key c).2 = maxSize c.
Proof. done. Qed.

Lemma set_size now key v ttl c :
  consistent c → (base.size (cache c) ≤ maxSize c)%nat →
  (base.size (cache (set now key v ttl c)) ≤ maxSize c)%nat ∧
  maxSize (set now key v ttl c) = maxSize c.
Proof.
  intros Hc Hsize. rewrite set_push. cbv zeta.
  pose proof (pushed_consistent_any key (mkEntry v (now + ttlOrDefault ttl c)%Z) c Hc)
    as Hp.
  set (p := LRUCache.mk _ (_ ++ [key]) _ _) in *.
  destruct (Nat.ltb_spec (maxSize c) (base.size (cache p))) as [Hover|Hfit];
    [|split; [exact Hfit|done]].
  assert (base.size (cache p) ≤ S (base.size (cache c)))%nat as Hgrow.
  { subst p. cbn [cache]. destruct (cache c !! key) eqn:Hk.
    - rewrite map_size_insert_Some by done. lia.
    - rewrite map_size_insert_None by done. lia. }
  unfold evictOldest. destruct (accessOrder p) as [|oldest rest] eqn:Hord.
  { subst p. cbn [accessOrder] in Hord. exfalso.
    eapply app_cons_not_nil. symmetry. exact Hord. }
  split; [|done]. cbn [delete snd cache removeFromAccessOrder].
  destruct Hp as [_ Hdom].
  assert (is_Some (cache p !! oldest)) as He.
  { apply Hdom. rewrite Hord. set_solver. }
  pose proof (map_size_delete_Some oldest (cache p) He). lia.
Qed.

Lemma perform_size c call :
  consistent c → (base.size (cache c) ≤ maxSize c)%nat →
  (base.size (cache (perform c call)) ≤ maxSize c)%nat ∧
  maxSize (perform c call) = maxSize c.
Proof.
  intros Hc Hsize. destruct call as [call|now key|now key|key|]; cbn [perform].
  - by apply set_size.
  - unfold get. destruct (cache c !! key) as [entry|]; [|done].
    destruct (now >? expiresAt entry)%Z; [|done].
    split; [|done]. cbn [snd]. pose proof (delete_size key c). lia.
  - unfold has. destruct (cache c !! key) as [entry|]; [|done].
    destruct (now >? expiresAt entry)%Z; [|done].
    split; [|done]. cbn [snd]. pose proof (delete_size key c). lia.
  - split; [|done]. pose proof (delete_size key c). lia.
  - split; [|done]. cbn. rewrite map_size_empty. lia.
Qed.

(** X8. Whatever calls are made on a new cache, in whatever order, the
    recency array lists exactly the cached keys, each once, and the cache
    never holds more than [maxSize] entries. *)
Theorem X8_lru_invariant (n : nat) (ttl0 : Z) (calls : list Call) :
  let c := foldl perform (new n ttl0) calls in
  NoDup (accessOrder c) ∧
  (∀ k, k ∈ accessOrder c ↔ is_Some (cache c !! k)) ∧
  length (accessOrder c) = base.size (cache c) ∧
  (base.size (cache c) ≤ n)%nat.
Proof.
  intros c.
  assert (consistent c ∧ (base.size (cache c) ≤ maxSize c)%nat ∧ maxSize c = n)
    as (Hc & Hsize & Hmax).
  { subst c. induction calls as [|call calls IH] using rev_ind.
    - split; [apply consistent_new|]. cbn. rewrite map_size_empty. split; [lia|done].
    - rewrite foldl_app. cbn [foldl].
      destruct IH as (Hc & Hsize & Hmax).
      destruct (perform_size _ call Hc Hsize) as [Hsize' Hmax'].
      split; [by apply perform_consistent|]. split; [lia|congruence]. }
  destruct Hc as [Hnd Hdom]. split_and!; [done|done| |lia].
  symmetry. by apply consistent_size.
Qed.

Lemma set_lookup_cases now key v ttl c :
  cache (set now key v ttl c) !! key =
    Some (mkEntry v (now + ttlOrDefault ttl c)%Z) ∨
  cache (set now key v ttl c) !! key = None.
Proof.
  rewrite set_push. cbv zeta. destruct (_ <? _)%nat.
  - unfold evictOldest. cbn [accessOrder].
    destruct (_ ++ [key]) as [|oldest rest]; cbn [delete snd cache removeFromAccessOrder].
    + left. apply lookup_insert_eq.
    + destruct (decide (oldest = key)) as [->|Hne].
      * right. apply lookup_delete_eq.
      * left. rewrite lookup_delete_ne by done. apply lookup_insert_eq.
  - left. apply lookup_insert_eq.
Qed.

Lemma set_lookup_self now key v ttl c :
  consistent c → (1 ≤ maxSize c)%nat →
  cache (set now key v ttl c) !! key = Some (mkEntry v (now + ttlOrDefault ttl c)%Z).
Proof.
  intros Hc Hmax. rewrite set_push. cbv zeta.
  pose proof (pushed_consistent_any key (mkEntry v (now + ttlOrDefault ttl c)%Z) c Hc)
    as Hp.
  set (p := LRUCache.mk _ (_ ++ [key]) _ _) in *.
  destruct (Nat.ltb_spec (maxSize c) (base.size (cache p))) as [Hover|Hfit];
    [|apply lookup_insert_eq].
  rewrite (consistent_size p Hp) in Hover.
  unfold evictOldest.
  destruct Hp as [Hnd _]. subst p. cbn [accessOrder cache] in *.
  destruct (if bool_decide _ then _ else _) as [|front rest]; simpl in Hover, Hnd |- *.
  { lia. }
  apply NoDup_cons in Hnd as [Hfront _].
  assert (front ≠ key) by set_solver.
  rewrite lookup_delete_ne by done. apply lookup_insert_eq.
Qed.

(** X9. What is set can be read back: in a cache of capacity at least 1, a
    [get] of the key no later than the expiry instant of the entry returns
    the value that was set. *)
Theorem X9_lru_set_then_get (now now' : Z) (key : string) (v : PreferenceMetadata)
    (ttl : option Z) (c : t) :
  consistent c → (1 ≤ maxSize c)%nat →
  (now' ≤ now + ttlOrDefault ttl c)%Z →
  (get now' key (set now key v ttl c)).1 = Some v.
Proof.
  intros Hc Hmax Hlive. unfold get. rewrite set_lookup_self by done.
  cbn [expiresAt entryValue]. rewrite Z.gtb_ltb.
  by destruct (Z.ltb_spec (now + ttlOrDefault ttl c) now'); [lia|].
Qed.

Lemma X9_lru_set_then_get_witness :
  consistent (new 1 100) ∧
  (get 100 "k" (set 0 "k" (ConflictResolver.record "memory" 50 0 (VString "x")) None
                  (new 1 100))).1
    = Some (ConflictResolver.record "memory" 50 0 (VString "x")).
Proof.
  split; [apply consistent_new|].
  apply (X9_lru_set_then_get 0 100 "k" _ None (new 1 100));
    [apply consistent_new|simpl; lia|simpl; lia].
Defined.

(** X10. An entry is gone once its time is up: a [get] or a [has] of the
    key later than the expiry instant answers that the key is absent, and
    the [get] leaves no entry for the key. *)
Theorem X10_lru_expiry (now now' : Z) (key : string) (v : PreferenceMetadata)
    (ttl : option Z) (c : t) :
  (now + ttlOrDefault ttl c < now')%Z →
  let c' := set now key v ttl c in
  (get now' key c').1 = None ∧
  cache (get now' key c').2 !! key = None ∧
  (has now' key c').1 = false ∧
  cache (has now' key c').2 !! key = None.
Proof.
  intros Hlate c'. subst c'. unfold get, has.
  destruct (set_lookup_cases now key v ttl c) as [Hk|Hk]; rewrite Hk.
  - cbn [expiresAt]. rewrite Z.gtb_ltb.
    destruct (Z.ltb_spec (now + ttlOrDefault ttl c) now'); [|lia].
    cbn [fst snd delete cache removeFromAccessOrder].
    by rewrite lookup_delete_eq.
  - done.
Qed.

Lemma X10_lru_expiry_witness :
  (0 + ttlOrDefault (Some 100%Z) (new 10 3600000) < 150)%Z ∧
  (get 150 "k" (set 0 "k" (ConflictResolver.record "memory" 50 0 (VString "x"))
                  (Some 100%Z) (new 10 3600000))).1 = None.
Proof.
  assert (0 + ttlOrDefault (Some 100%Z) (new 10 3600000) < 150)%Z as Hlate
    by (simpl; lia).
  split; [exact Hlate|].
  exact (proj1 (X10_lru_expiry 0 150 "k" _ (Some 100%Z) (new 10 3600000) Hlate)).
Defined.

(** X11. A time-to-live of 0 does not mean "expire at once": it is replaced
    by the default, so the entry is still read at the default's horizon. *)
Theorem X11_lru_ttl_zero_is_default (now : Z) (key : string) (v : PreferenceMetadata)
    (c : t) :
  consistent c → (1 ≤ maxSize c)%nat → (0 ≤ defaultTTL c)%Z →
  set now key v (Some 0%Z) c = set now key v None c ∧
  (get now key (set now key v (Some 0%Z) c)).1 = Some v ∧
  (get (now + defaultTTL c) key (set now key v (Some 0%Z) c)).1 = Some v.
Proof.
  intros Hc Hmax Hpos. split; [done|].
  unfold get. rewrite !set_lookup_self by done.
  cbn [expiresAt entryValue ttlOrDefault Z.eqb]. rewrite !Z.gtb_ltb.
  destruct (Z.ltb_spec (now + defaultTTL c) now); [lia|].
  destruct (Z.ltb_spec (now + defaultTTL c) (now + defaultTTL c)); [lia|done].
Qed.

Lemma X11_lru_ttl_zero_is_default_witness :
  consistent (new 1 1000) ∧
  (get 1000 "k" (set 0 "k" (ConflictResolver.record "memory" 50 0 (VString "x"))
                   (Some 0%Z) (new 1 1000))).1
    = Some (ConflictResolver.record "memory" 50 0 (VString "x")).
Proof.
  split; [apply consistent_new|].
  destruct (X11_lru_ttl_zero_is_default 0 "k"
              (ConflictResolver.record "memory" 50 0 (VString "x")) (new 1 1000))
    as (_ & _ & Hread); [apply consistent_new|simpl; lia|simpl; lia|].
  exact Hread.
Defined.

Lemma removeFirst_filter key order :
  NoDup order → removeFirst key order = filter (λ k, k ≠ key) order.
Proof.
  induction order as [|k order IH]; [done|]. intros [Hk Hnd]%NoDup_cons.
  cbn [removeFirst]. destruct (String.eqb_spec k key) as [->|Hne].
  - rewrite filter_cons_False by (by intros ?).
    rewrite <-IH by done. symmetry. by apply removeFirst_absent.
  - rewrite filter_cons_True by done. by rewrite IH.
Qed.

(** X12. On a cache whose recency array lists exactly its keys, each once,
    [delete] answers whether the key was cached.  Deleting a key that is not
    cached changes nothing; deleting a cached key removes it from the
    entries and from the recency array, one entry fewer.  Every other key
    keeps its entry and its place in the recency order: the recency array
    afterwards is the one before with the key taken out.  The capacity and
    the default time to live are unchanged. *)
Theorem X12_lru_delete (key : string) (c : t) :
  consistent c →
  (cache c !! key = None → delete key c = (false, c)) ∧
  (is_Some (cache c !! key) →
     (delete key c).1 = true ∧
     cache (delete key c).2 !! key = None ∧
     key ∉ accessOrder (delete key c).2 ∧
     S (base.size (cache (delete key c).2)) = base.size (cache c)) ∧
  (∀ other, other ≠ key →
     cache (delete key c).2 !! other = cache c !! other ∧
     (other ∈ accessOrder (delete key c).2 ↔ other ∈ accessOrder c)) ∧
  accessOrder (delete key c).2 = filter (λ k, k ≠ key) (accessOrder c) ∧
  maxSize (delete key c).2 = maxSize c ∧
  defaultTTL (delete key c).2 = defaultTTL c ∧
  consistent (delete key c).2.
Proof.
  intros Hc. pose proof Hc as [Hnd Hdom]. split_and!.
  - intros Hnone. unfold delete. cbn [removeFromAccessOrder cache accessOrder maxSize defaultTTL].
    rewrite removeFirst_absent.
    2:{ rewrite Hdom, Hnone. by intros [? ?]. }
    rewrite delete_id by done.
    rewrite bool_decide_eq_false_2 by (rewrite Hnone; by intros [? ?]).
    by destruct c.
  - intros Hsome. cbn [delete fst snd cache accessOrder removeFromAccessOrder].
    split_and!.
    + by apply bool_decide_eq_true_2.
    + apply lookup_delete_eq.
    + rewrite removeFirst_elem by done. tauto.
    + rewrite map_size_delete_Some by done.
      destruct Hsome as [e He].
      assert (base.size (cache c) ≠ 0%nat); [|lia].
      intros Hzero%map_size_empty_inv. by rewrite Hzero, lookup_empty in He.
  - intros other Hne. cbn [delete snd cache accessOrder removeFromAccessOrder].
    split; [by apply lookup_delete_ne|].
    rewrite removeFirst_elem by done. tauto.
  - cbn [delete snd accessOrder removeFromAccessOrder]. by apply removeFirst_filter.
  - done.
  - done.
  - by apply delete_consistent.
Qed.

Lemma X12_lru_delete_witness :
  let m := ConflictResolver.record "memory" 50 0 VNull in
  let c := set 3 "c" m None (set 2 "b" m None (set 1 "a" m None (new 3 1000))) in
  consistent c ∧
  (delete "b" c).1 = true ∧
  accessOrder (delete "b" c).2 = ["a"; "c"] ∧
  delete "z" c = (false, c).
Proof.
  intros m c.
  assert (consistent c) as Hc by (do 3 apply set_consistent; apply consistent_new).
  split; [exact Hc|].
  destruct (X12_lru_delete "b" c Hc) as (_ & Hheld & _ & Horder & _).
  destruct (X12_lru_delete "z" c Hc) as (Habsent & _).
  split; [apply Hheld; by eexists|].
  split; [rewrite Horder; reflexivity|].
  apply Habsent. reflexivity.
Defined.

(** X13. [has] does not refresh recency: on a live entry it answers true
    and leaves the cache as it is, so a key at the front of the recency
    order that was only probed with [has] is the one the next insert into a
    full cache evicts. *)
Theorem X13_lru_has_does_not_protect (now now' : Z) (key key' : string)
    (rest : list string) (entry : CacheEntry) (v : PreferenceMetadata)
    (ttl : option Z) (c : t) :
  accessOrder c = key :: rest →
  cache c !! key = Some entry → (now ≤ expiresAt entry)%Z →
  cache c !! key' = None →
  (maxSize c ≤ base.size (cache c))%nat →
  has now key c = (true, c) ∧
  cache (set now' key' v ttl (has now key c).2) !! key = None.
Proof.
  intros Hord Hkey Hlive Hnew Hfull.
  assert (has now key c = (true, c)) as Hhas.
  { unfold has. rewrite Hkey, Z.gtb_ltb.
    by destruct (Z.ltb_spec (expiresAt entry) now); [lia|]. }
  split; [exact Hhas|]. rewrite Hhas. cbn [snd].
  rewrite set_fresh_full by done. rewrite Hord.
  cbn [head default delete snd cache removeFromAccessOrder].
  apply lookup_delete_eq.
Qed.

Lemma X13_lru_has_does_not_protect_witness :
  let m := ConflictResolver.record "memory" 50 0 (VString "x") in
  let c := set 0 "b" m None (set 0 "a" m None (new 2 1000)) in
  accessOrder c = ["a"; "b"] ∧
  cache (set 2 "c" m None (has 1 "a" c).2) !! "a" = None.
Proof.
  intros m c. split; [reflexivity|].
  exact (proj2 (X13_lru_has_does_not_protect 1 2 "a" "c" ["b"] (mkEntry m 1000) m None c
                  eq_refl eq_refl ltac:(simpl; lia) eq_refl ltac:(vm_compute; lia))).
Defined.

(** X14. Setting a key that is already cached replaces its entry in place:
    nothing is evicted, the number of entries is unchanged and the key moves
    to the most-recently-used end. *)
Theorem X14_lru_replace (now : Z) (key : string) (v : PreferenceMetadata)
    (ttl : option Z) (c : t) :
  consistent c → (base.size (cache c) ≤ maxSize c)%nat →
  is_Some (cache c !! key) →
  set now key v ttl c =
    {| cache := <[key := mkEntry v (now + ttlOrDefault ttl c)%Z]> (cache c);
       accessOrder := removeFirst key (accessOrder c) ++ [key];
       maxSize := maxSize c; defaultTTL := defaultTTL c |} ∧
  base.size (cache (set now key v ttl c)) = base.size (cache c).
Proof.
  intros Hc Hsize Hcached.
  assert (base.size (<[key := mkEntry v (now + ttlOrDefault ttl c)%Z]> (cache c))
          = base.size (cache c)) as Hsame.
  { destruct Hcached as [e He]. by rewrite map_size_insert_Some. }
  rewrite set_push. cbv zeta. cbn [cache].
  rewrite bool_decide_eq_true_2 by done. rewrite Hsame.
  destruct (Nat.ltb_spec (maxSize c) (base.size (cache c))); [lia|done].
Qed.

Lemma X14_lru_replace_witness :
  let m := ConflictResolver.record "memory" 50 0 (VString "x") in
  let c := set 0 "b" m None (set 0 "a" m None (new 2 1000)) in
  consistent c ∧ accessOrder (set 1 "a" m None c) = ["b"; "a"].
Proof.
  intros m c.
  assert (consistent c) as Hc by (do 2 apply set_consistent; apply consistent_new).
  split; [exact Hc|].
  destruct (X14_lru_replace 1 "a" m None c Hc) as [-> _];
    [vm_compute; lia|by eexists|reflexivity].
Defined.

End lru_more.

(** ** TTLCache *)

Section ttl_cache.

(** X15. [TTLCache] keeps what is set until its time is up and never drops
    another key: after a [set], a [get] of the key returns the value up to
    the expiry instant and removes the entry after it, and every other key
    is as before. *)
Theorem X15_ttl_cache_round_trip (now now' : Z) (key : string)
    (v : PreferenceMetadata) (ttl : option Z) (c : TTLCache.t) :
  let c' := TTLCache.set now key v ttl c in
  let expiry := (now + match ttl with
                       | Some n => if (n =? 0)%Z then TTLCache.defaultTTL c else n
                       | None => TTLCache.defaultTTL c
                       end)%Z in
  ((now' ≤ expiry)%Z → TTLCache.get now' key c' = (Some v, c')) ∧
  ((expiry < now')%Z →
     (TTLCache.get now' key c').1 = None ∧
     TTLCache.cache (TTLCache.get now' key c').2 !! key = None) ∧
  (∀ other, other ≠ key →
     TTLCache.cache c' !! other = TTLCache.cache c !! other) ∧
  (TTLCache.size c ≤ TTLCache.size c')%nat.
Proof.
  intros c' expiry. subst c'. unfold TTLCache.get, TTLCache.set.
  cbn [TTLCache.cache TTLCache.defaultTTL]. rewrite lookup_insert_eq.
  cbn [expiresAt entryValue]. fold expiry. rewrite Z.gtb_ltb. split_and!.
  - intros Hlive. by destruct (Z.ltb_spec expiry now'); [lia|].
  - intros Hlate. destruct (Z.ltb_spec expiry now'); [|lia].
    cbn. by rewrite lookup_delete_eq.
  - intros other Hne. by apply lookup_insert_ne.
  - unfold TTLCache.size. cbn [TTLCache.cache].
    destruct (TTLCache.cache c !! key) as [e|] eqn:Hk.
    + rewrite map_size_insert_Some by done. lia.
    + rewrite map_size_insert_None by done. lia.
Qed.

Lemma X15_ttl_cache_round_trip_witness :
  (100 ≤ 0 + 100)%Z ∧
  TTLCache.get 100 "k"
    (TTLCache.set 0 "k" (ConflictResolver.record "memory" 50 0 VNull) (Some 100%Z)
       (TTLCache.new 5)) =
  (Some (ConflictResolver.record "memory" 50 0 VNull),
   TTLCache.set 0 "k" (ConflictResolver.record "memory" 50 0 VNull) (Some 100%Z)
     (TTLCache.new 5)).
Proof.
  split; [lia|].
  destruct (X15_ttl_cache_round_trip 0 100 "k"
              (ConflictResolver.record "memory" 50 0 VNull) (Some 100%Z)
              (TTLCache.new 5)) as (Hlive & _).
  apply Hlive. simpl. lia.
Defined.

End ttl_cache.

(** ** Validator, audit log and in-memory provider *)

Section collaborators.

Lemma validate_getRules vd k v :
  Validator.validate vd k v =
    match Validator.getRules k vd with
    | [] => {| valid := true; errors := [] |}
    | rs => {| valid := bool_decide (length (rs ≫= Validator.checkRule v) = 0%nat);
               errors := rs ≫= Validator.checkRule v |}
    end.
Proof.
  unfold Validator.validate, Validator.getRules.
  by destruct (rules vd !! k) as [[|r rs]|].
Qed.

Lemma checkRule_passes v r :
  Validator.checkRule v r = [] ↔ Validator.passes r v = true.
Proof.
  unfold Validator.checkRule, Validator.passes. by destruct (ruleValidate r v).
Qed.

Lemma checkRules_errors v rs :
  rule <$> (rs ≫= Validator.checkRule v) =
    ruleName <$> List.filter (λ r, negb (Validator.passes r v)) rs ∧
  Forall (λ e, rejected e = v) (rs ≫= Validator.checkRule v) ∧
  ((rs ≫= Validator.checkRule v) = [] ↔
     Forall (λ r, Validator.passes r v = true) rs).
Proof.
  induction rs as [|r rs (IHn & IHv & IHe)]; [by repeat split|].
  rewrite bind_cons, fmap_app. cbn [List.filter].
  assert (Validator.checkRule v r = [] ∧ Validator.passes r v = true ∨
          (∃ e, Validator.checkRule v r = [e] ∧ rule e = ruleName r ∧ rejected e = v) ∧
             Validator.passes r v = false) as [[-> Hp]|[(e & -> & Hn & Hv) Hp]].
  { unfold Validator.checkRule, Validator.passes.
    destruct (ruleValidate r v); [by left|right; split; [by eexists|done]..]. }
  - rewrite Hp. cbn. split_and!; [done|done|]. rewrite IHe.
    split; [by constructor|]. by intros [_ ?]%Forall_cons.
  - rewrite Hp. cbn. rewrite Hn, IHn. split_and!; [done|by constructor|].
    split; [done|]. intros [Hr _]%Forall_cons. congruence.
Qed.

(** X16. Validation never raises and reports every rule that does not
    accept the value: the result is valid exactly when every rule registered
    for the key passes; otherwise the errors name, in registration order, the
    rules that failed or threw, each with the rejected value.  A key with no
    rule is valid. *)
Theorem X16_validate (vd : PreferenceValidator) (k : string) (v : PreferenceValue) :
  let outcome := Validator.validate vd k v in
  let rs := Validator.getRules k vd in
  (valid outcome = true ↔ Forall (λ r, Validator.passes r v = true) rs) ∧
  (valid outcome = true ↔ errors outcome = []) ∧
  rule <$> errors outcome =
    ruleName <$> List.filter (λ r, negb (Validator.passes r v)) rs ∧
  Forall (λ e, rejected e = v) (errors outcome).
Proof.
  intros outcome rs. subst outcome rs. rewrite validate_getRules.
  destruct (Validator.getRules k vd) as [|r rs] eqn:Hrs; [by repeat split|].
  destruct (checkRules_errors v (r :: rs)) as (Hn & Hv & He).
  cbv zeta. cbn [valid errors].
  rewrite bool_decide_eq_true, length_zero_iff_nil.
  split_and!; [exact He|done|exact Hn|exact Hv].
Qed.

Lemma getRules_addRule k r vd k' :
  Validator.getRules k' (Validator.addRule k r vd) =
    if decide (k = k') then Validator.getRules k vd ++ [r]
    else Validator.getRules k' vd.
Proof.
  unfold Validator.getRules, Validator.addRule. cbn [rules].
  destruct (decide (k = k')) as [->|Hne].
  - by rewrite lookup_insert_eq.
  - by rewrite lookup_insert_ne.
Qed.

Lemma getRules_removeRule k n vd k' :
  Validator.getRules k' (Validator.removeRule k n vd) =
    if decide (k = k')
    then List.filter (λ r, negb (String.eqb (ruleName r) n)) (Validator.getRules k vd)
    else Validator.getRules k' vd.
Proof.
  unfold Validator.getRules, Validator.removeRule.
  destruct (rules vd !! k) as [rs|] eqn:Hk; cbn [default].
  - destruct (List.filter _ rs) as [|r' rs'] eqn:Hf; cbn [rules].
    + destruct (decide (k = k')) as [->|Hne].
      * by rewrite lookup_delete_eq.
      * by rewrite lookup_delete_ne.
    + destruct (decide (k = k')) as [->|Hne].
      * by rewrite lookup_insert_eq.
      * by rewrite lookup_insert_ne.
  - destruct (decide (k = k')) as [->|Hne]; [|done]. by rewrite Hk.
Qed.

Lemma filter_none_named n (rs : list ValidationRule) :
  Forall (λ r, ruleName r ≠ n) rs →
  List.filter (λ r, negb (String.eqb (ruleName r) n)) rs = rs.
Proof.
  induction 1 as [|r rs Hr _ IH]; [done|]. cbn.
  destruct (String.eqb_spec (ruleName r) n); [done|]. by rewrite IH.
Qed.

(** X17. A rule that is registered and then removed by its name leaves
    validation as it was: when no earlier rule of the key bears that name,
    every key validates every value as before the rule was added. *)
Theorem X17_add_then_remove_rule (vd : PreferenceValidator) (k : string)
    (r : ValidationRule) :
  Forall (λ r', ruleName r' ≠ ruleName r) (Validator.getRules k vd) →
  ∀ k' v,
    Validator.getRules k'
      (Validator.removeRule k (ruleName r) (Validator.addRule k r vd))
      = Validator.getRules k' vd ∧
    Validator.validate
      (Validator.removeRule k (ruleName r) (Validator.addRule k r vd)) k' v
      = Validator.validate vd k' v.
Proof.
  intros Hfresh k' v.
  assert (Validator.getRules k'
            (Validator.removeRule k (ruleName r) (Validator.addRule k r vd))
          = Validator.getRules k' vd) as Hsame.
  { rewrite getRules_removeRule. destruct (decide (k = k')) as [<-|Hne].
    - rewrite getRules_addRule. rewrite decide_True by done.
      rewrite List.filter_app, filter_none_named by done. cbn.
      rewrite String.eqb_refl. cbn. by rewrite app_nil_r.
    - rewrite getRules_addRule. by rewrite decide_False. }
  split; [exact Hsame|]. by rewrite !validate_getRules, Hsame.
Qed.

Lemma X17_add_then_remove_rule_witness :
  Forall (λ r', ruleName r' ≠ ruleName Injector.rejectAll)
    (Validator.getRules "email" Validator.new) ∧
  valid (Validator.validate
           (Validator.removeRule "email" "never"
              (Validator.addRule "email" Injector.rejectAll Validator.new))
           "email" (VString "x")) = true.
Proof.
  assert (Forall (λ r', ruleName r' ≠ ruleName Injector.rejectAll)
            (Validator.getRules "email" Validator.new)) as Hfresh by constructor.
  split; [exact Hfresh|].
  destruct (X17_add_then_remove_rule Validator.new "email" Injector.rejectAll Hfresh
              "email" (VString "x")) as [_ Hv].
  change "never" with (ruleName Injector.rejectAll). by rewrite Hv.
Defined.

Lemma log_sliceLast maxEntries (l : list AuditLogEntry) e :
  Audit.log e (InMemoryAuditLogger (Audit.sliceLast maxEntries l) maxEntries) =
    InMemoryAuditLogger (Audit.sliceLast maxEntries (l ++ [e])) maxEntries.
Proof.
  unfold Audit.log. f_equal.
  destruct maxEntries as [|m].
  { cbn [Audit.sliceLast]. rewrite length_app. simpl.
    by destruct (Nat.ltb_spec 0 (length l + 1)); [|lia]. }
  cbn [Audit.sliceLast]. rewrite !length_app, length_drop. cbn [length].
  destruct (decide (length l < S m)%nat) as [Hshort|Hlong].
  - replace (length l - S m)%nat with 0%nat by lia.
    replace (length l + 1 - S m)%nat with 0%nat by lia. rewrite !drop_0.
    by destruct (Nat.ltb_spec (S m) (length l - 0 + 1)); [lia|].
  - destruct (Nat.ltb_spec (S m) (length l - (length l - S m) + 1)); [|lia].
    replace (length l - (length l - S m) + 1 - S m)%nat with 1%nat by lia.
    replace (length l + 1 - S m)%nat with ((length l - S m) + 1)%nat by lia.
    rewrite <-drop_drop. rewrite (drop_app_le l) by lia.
    rewrite (drop_app_le (drop _ l)); [done|]. rewrite length_drop. lia.
Qed.

(** X18. The in-memory audit log holds the last [maxEntries] entries that
    were logged, in the order they were logged; with [maxEntries] 0 it is
    never trimmed and holds every entry. *)
Theorem X18_audit_log_window (maxEntries : nat) (logged : list AuditLogEntry) :
  let a := foldl (λ a e, Audit.log e a) (InMemoryAuditLogger [] maxEntries) logged in
  Audit.entriesOf a =
    match maxEntries with
    | O => logged
    | _ => drop (length logged - maxEntries) logged
    end ∧
  (maxEntries ≠ 0%nat → (Audit.count a ≤ maxEntries)%nat).
Proof.
  intros a.
  assert (a = InMemoryAuditLogger (Audit.sliceLast maxEntries logged) maxEntries) as ->.
  { subst a. induction logged as [|e logged IH] using rev_ind.
    - by destruct maxEntries.
    - rewrite foldl_app. cbn [foldl]. rewrite IH. apply log_sliceLast. }
  split; [done|]. intros Hpos. unfold Audit.count. cbn [Audit.entriesOf].
  destruct maxEntries as [|m]; [done|]. cbn [Audit.sliceLast].
  rewrite length_drop. lia.
Qed.

(** X19. What is written to the in-memory provider can be read back: a
    [set] that does not reject stores, under the key only, a record with the
    value, the provider's name as source and the call's instant; its
    priority is the option's unless that is absent or 0, in which case it is
    the provider's own; a later [delete] answers true and removes it. *)
Theorem X19_provider_set_get (now : Z) (p : PreferenceProvider) (k : string)
    (v : PreferenceValue) (options : SetOptions) :
  setFault p k = None →
  ∃ p' m,
    Provider.set now p k v options = Ok p' ∧
    preferences p' !! k = Some m ∧
    (getFault p k = None → Provider.get p' k = Ok (Some m)) ∧
    Provider.has p' k = true ∧
    key m = k ∧ value m = v ∧ source m = name p ∧ timestamp m = now ∧
    priority m =
      match optPriority options with
      | Some 0%Z | None => providerPriority p
      | Some n => n
      end ∧
    (∀ other, other ≠ k → preferences p' !! other = preferences p !! other) ∧
    (deleteFault p k = None →
       ∃ p'', Provider.delete p' k = Ok (true, p'') ∧ Provider.has p'' k = false ∧
              ∀ other, other ≠ k → preferences p'' !! other = preferences p !! other).
Proof.
  intros Hset. unfold Provider.set. rewrite Hset.
  eexists _, _. split; [reflexivity|].
  unfold Provider.get, Provider.has, Provider.delete, Provider.withPreferences.
  cbn [preferences getFault deleteFault key value source timestamp priority].
  rewrite lookup_insert_eq. split_and!; try done.
  - intros Hget. by rewrite Hget.
  - cbn [priority]. by destruct (optPriority options) as [[| |]|].
  - intros other Hne. by apply lookup_insert_ne.
  - intros Hdel. rewrite Hdel. eexists. split; [reflexivity|].
    cbn [preferences]. rewrite lookup_delete_eq. split; [done|].
    intros other Hne. by rewrite lookup_delete_ne, lookup_insert_ne.
Qed.

Lemma X19_provider_set_get_witness :
  setFault (Provider.memory 50 ∅) "theme" = None ∧
  ∃ p' m,
    Provider.set 7 (Provider.memory 50 ∅) "theme" (VString "dark")
      (mkSetOptions (Some 0%Z) None None None) = Ok p' ∧
    Provider.get p' "theme" = Ok (Some m) ∧ value m = VString "dark" ∧
    priority m = 50%Z.
Proof.
  split; [reflexivity|].
  destruct (X19_provider_set_get 7 (Provider.memory 50 ∅) "theme" (VString "dark")
              (mkSetOptions (Some 0%Z) None None None) eq_refl)
    as (p' & m & Hset & _ & Hget & _ & _ & Hv & _ & _ & Hprio & _).
  exists p', m. split; [exact Hset|]. split; [exact (Hget eq_refl)|].
  split; [exact Hv|exact Hprio].
Defined.

End collaborators.

(** ** PreferenceInjector: reads *)

Section injector_reads.

Ltac run_step :=
  cbv beta iota zeta delta
    [mbind Method_bind mret Method_ret option_bind
     Injector.read Injector.await Injector.throw Injector.catchUndefined
     Injector.log Injector.emitEvent Injector.callValidator
     Injector.cacheGet Injector.cacheSet Injector.cacheDelete
     Injector.writeProviders
     result after effects app negb].

Lemma keeps_bind {A B C} (f : PreferenceInjector → C) (m : Method A) (g : A → Method B) :
  Injector.keeps f m → (∀ a, Injector.keeps f (g a)) → Injector.keeps f (m ≫= g).
Proof.
  intros Hm Hg s. rewrite after_bind. destruct (result (m s)); [|apply Hm].
  by rewrite Hg, Hm.
Qed.

Lemma keeps_ret {A C} (f : PreferenceInjector → C) (a : A) : Injector.keeps f (mret a).
Proof. done. Qed.

Lemma keeps_throw {A C} (f : PreferenceInjector → C) e : Injector.keeps f (@Injector.throw A e).
Proof. done. Qed.

Lemma keeps_await {A C} (f : PreferenceInjector → C) (r : Result A) :
  Injector.keeps f (Injector.await r).
Proof. done. Qed.

Lemma keeps_read {A C} (f : PreferenceInjector → C) (g : PreferenceInjector → A) :
  Injector.keeps f (Injector.read g).
Proof. done. Qed.

Lemma keeps_log {C} (f : PreferenceInjector → C) entry :
  (∀ s a, f (Injector.withAuditLogger s a) = f s) → Injector.keeps f (Injector.log entry).
Proof. intros Hf s. apply Hf. Qed.

Lemma keeps_cacheGet {C} (f : PreferenceInjector → C) now k :
  (∀ s c, f (Injector.withCache s c) = f s) → Injector.keeps f (Injector.cacheGet now k).
Proof.
  intros Hf s. unfold Injector.cacheGet. destruct (Cache_get _ _ _). apply Hf.
Qed.

Lemma keeps_cacheSet {C} (f : PreferenceInjector → C) now k m ttl :
  (∀ s c, f (Injector.withCache s c) = f s) →
  Injector.keeps f (Injector.cacheSet now k m ttl).
Proof. intros Hf s. apply Hf. Qed.

Ltac keeps_step :=
  first
    [ apply keeps_bind; [|intros ?]
    | apply keeps_ret | apply keeps_throw | apply keeps_await | apply keeps_read
    | apply keeps_log; done
    | apply keeps_cacheGet; done
    | apply keeps_cacheSet; done
    | match goal with |- Injector.keeps _ (match ?x with _ => _ end) => destruct x end
    | match goal with |- Injector.keeps _ (if ?x then _ else _) => destruct x end ].

Lemma get_keeps_providers now k options :
  Injector.keeps providers (Injector.get now k options).
Proof. unfold Injector.get. repeat keeps_step. Qed.

Lemma get_keeps_settings now k options :
  Injector.keeps (λ s, (conflictResolution s, encryptionService s, validator s, initialized s))
    (Injector.get now k options).
Proof. unfold Injector.get. repeat keeps_step. Qed.

Lemma get_bypass_keeps_cache now k options :
  notFalse (options ≫= useCache) = false →
  Injector.keeps cache (Injector.get now k options).
Proof. intros Hoff. unfold Injector.get. rewrite Hoff. repeat keeps_step. Qed.

(** X20. A lookup answered by the cache does not touch the providers: when
    the cache holds a live entry for the key and the call does not bypass
    the cache, [get] returns the cached value and writes one GET entry with
    the source ["cache"], whatever the providers hold or would answer; the
    providers are left as they were and the cache is the one the lookup
    left. *)
Theorem X20_get_cache_hit (now : Z) (k : string) (options : option GetOptions)
    (s : PreferenceInjector) (m : PreferenceMetadata) (c' : Cache) :
  notFalse (options ≫= useCache) = true →
  Cache_get now k (cache s) = (Some m, c') →
  result (Injector.get now k options s) = Ok (value m) ∧
  effects (Injector.get now k options s) =
    [Logged {| auditTimestamp := now; action := GET; auditKey := k;
               auditValue := Some (value m); auditOldValue := None;
               auditProvider := "cache" |}] ∧
  providers (after (Injector.get now k options s)) = providers s ∧
  cache (after (Injector.get now k options s)) = c'.
Proof.
  intros Hon Hhit. unfold Injector.get. rewrite Hon. run_step. rewrite Hhit.
  run_step. by cbn.
Qed.

Lemma X20_get_cache_hit_witness :
  let m := ConflictResolver.record "memory" 50 0 (VString "dark") in
  let s := Injector.withCache
             (Injector.constructor
                (Some (mkConfig (Some [Provider.broken "file" 0]) None (Some true) None
                                None None None None)))
             (LRU (LRUCache.set 0 "theme" m None (LRUCache.new 2 1000))) in
  (Cache_get 5 "theme" (cache s)).1 = Some m ∧
  result (Injector.get 5 "theme" None s) = Ok (VString "dark").
Proof.
  intros m s. split; [reflexivity|].
  destruct (X20_get_cache_hit 5 "theme" None s m (Cache_get 5 "theme" (cache s)).2)
    as (Hr & _); [reflexivity|reflexivity|exact Hr].
Defined.

(** X21. A read only reads: whatever its options and outcome, [get] leaves
    the providers, the strategy, the validator, the encryption service and
    the initialized flag as they were, emits no event, calls no validator
    and writes only GET and DECRYPT audit entries; when the call bypasses
    the cache it leaves the cache as it was too.  [getTyped] is the same
    method. *)
Theorem X21_get_is_read_only (now : Z) (k : string) (options : option GetOptions)
    (s : PreferenceInjector) :
  let r := Injector.get now k options s in
  providers (after r) = providers s ∧
  conflictResolution (after r) = conflictResolution s ∧
  validator (after r) = validator s ∧
  initialized (after r) = initialized s ∧
  Forall Injector.readLog (effects r) ∧
  (options ≫= useCache = Some false → cache (after r) = cache s) ∧
  Injector.getTyped now k options s = r.
Proof.
  intros r. subst r.
  pose proof (get_keeps_settings now k options s) as Hsettings. cbv beta in Hsettings.
  injection Hsettings as Hcr _ Hvd Hinit.
  split_and!; [apply get_keeps_providers|done|done|done|apply get_emits| |done].
  intros Hoff. apply get_bypass_keeps_cache. by rewrite Hoff.
Qed.

End injector_reads.

(** ** PreferenceInjector: writes *)

Section injector_writes.

Ltac run_write :=
  cbv beta iota zeta delta
    [mbind Method_bind mret Method_ret option_bind
     Injector.read Injector.await Injector.throw Injector.catchUndefined
     Injector.log Injector.emitEvent Injector.callValidator
     Injector.cacheGet Injector.cacheSet Injector.cacheDelete
     Injector.writeProviders
     result after effects app negb].

Ltac proj_state :=
  cbn [providers cache validator auditLogger encryptionService conflictResolution
       initialized Injector.withAuditLogger Injector.withCache
       Injector.withProviders Injector.withInitialized result after effects].

Lemma setAll_ok now k w options ps :
  (∀ p, p ∈ ps → setFault p k = None) →
  Injector.setAll now k w options ps = (Provider.written now k w options <$> ps, None).
Proof.
  induction ps as [|p ps IH]; intros Hok; [done|].
  cbn [Injector.setAll]. unfold Provider.set at 1.
  rewrite (Hok p) by set_solver. rewrite IH by (intros q Hq; apply Hok; set_solver).
  done.
Qed.

Lemma setAll_success now k w options ps ps' :
  Injector.setAll now k w options ps = (ps', None) →
  ∀ p, p ∈ ps → setFault p k = None.
Proof.
  revert ps'. induction ps as [|p ps IH]; intros ps' Hall q Hq; [by apply elem_of_nil in Hq|].
  cbn [Injector.setAll] in Hall. unfold Provider.set at 1 in Hall.
  destruct (setFault p k) eqn:Hp; [done|].
  destruct (Injector.setAll now k w options ps) as [rest failure] eqn:Hrest.
  injection Hall as _ ->.
  apply elem_of_cons in Hq as [->|Hq]; [done|]. by eapply IH.
Qed.

Lemma setAll_failure now k w options before p rest e :
  (∀ q, q ∈ before → setFault q k = None) → setFault p k = Some e →
  Injector.setAll now k w options (before ++ p :: rest) =
    ((Provider.written now k w options <$> before)
       ++ Provider.rejectedSet now k w options p :: rest, Some e).
Proof.
  intros Hok Hp. induction before as [|q before IH].
  - cbn [app Injector.setAll fmap list_fmap]. unfold Provider.set. by rewrite Hp.
  - cbn [app Injector.setAll]. unfold Provider.set at 1.
    rewrite (Hok q) by set_solver. rewrite IH by (intros ? ?; apply Hok; set_solver).
    done.
Qed.

(** What [setWithOld] does once validation is over and the value to store
    is known. *)
Lemma setWithOld_run now k v options old s w :
  notFalse (options ≫= validate) = false ∨
    valid (Validator.validate (validator s) k v) = true →
  Injector.storedValue (encryptionService s) options v = Ok w →
  let writes := Injector.setAll now k w
                  (default (mkSetOptions None None None None) options) (providers s) in
  let r := Injector.setWithOld now k v options old s in
  providers (after r) = writes.1 ∧
  conflictResolution (after r) = conflictResolution s ∧
  encryptionService (after r) = encryptionService s ∧
  match writes.2 with
  | Some e =>
      result r = Err e ∧ cache (after r) = cache s ∧
      Forall (λ eff, match eff with
                     | Emitted _ => False
                     | Logged entry => action entry ≠ SET
                     | ValidatorCalled _ _ => True
                     end) (effects r)
  | None =>
      result r = Ok () ∧ cache (after r) = Cache_delete k (cache s) ∧
      last (effects r) =
        Some (Emitted {| eventType := match old with None => ADDED | Some _ => CHANGED end;
                         eventKey := k; newValue := Some v; oldValue := old;
                         eventProvider := "injector"; eventTimestamp := now |}) ∧
      Logged {| auditTimestamp := now; action := SET; auditKey := k;
                auditValue := Some w; auditOldValue := old;
                auditProvider := "injector" |} ∈ effects r
  end.
Proof.
  intros Hvalid Hstored writes r. subst writes r.
  unfold Injector.setWithOld, Injector.storedValue in *.
  assert (∃ on, notFalse (options ≫= validate) = on ∧
                (on = true → valid (Validator.validate (validator s) k v) = true))
    as (on & Hon & Hv).
  { destruct (notFalse (options ≫= validate)); eexists; split; try done.
    intros _. by destruct Hvalid. }
  rewrite Hon. clear Hvalid Hon.
  destruct v as [str| | | | |];
    [destruct (truthy (options ≫= encrypt));
       [destruct (encryptString (encryptionService s) str) as [secret|] eqn:Henc;
          [|done]|]|..];
    injection Hstored as <-;
    (destruct on; [specialize (Hv eq_refl)|]);
    run_write; rewrite ?Hv; run_write; proj_state; rewrite ?Henc; run_write; proj_state;
    (destruct (Injector.setAll _ _ _ _ _) as [ps' [e|]]; run_write; proj_state;
     repeat split; try done; try (repeat constructor; done); set_solver).
Qed.

Lemma get_noCache_keeps now k s :
  let g := Injector.get now k Injector.noCache s in
  providers (after g) = providers s ∧ cache (after g) = cache s ∧
  conflictResolution (after g) = conflictResolution s ∧
  encryptionService (after g) = encryptionService s ∧
  validator (after g) = validator s ∧
  Forall Injector.notWritten (effects g).
Proof.
  intros g. subst g.
  pose proof (get_keeps_settings now k Injector.noCache s) as Hsettings.
  cbv beta in Hsettings. injection Hsettings as Hcr Hes Hvd _.
  split_and!; [apply get_keeps_providers|by apply get_bypass_keeps_cache|done..|].
  eapply Forall_impl; [apply get_emits|].
  intros [entry| |]; cbn; [|done..]. by intros [->| ->].
Qed.

(** [set] once the old value is captured, validation is over and the value
    to store is known. *)
Lemma set_run now k v options s w :
  notFalse (options ≫= validate) = false ∨
    valid (Validator.validate (validator s) k v) = true →
  Injector.storedValue (encryptionService s) options v = Ok w →
  let writes := Injector.setAll now k w (Injector.providerOptions options) (providers s) in
  let r := Injector.set now k v options s in
  providers (after r) = writes.1 ∧
  conflictResolution (after r) = conflictResolution s ∧
  encryptionService (after r) = encryptionService s ∧
  match writes.2 with
  | Some e =>
      result r = Err e ∧ cache (after r) = cache s ∧
      Forall Injector.notWritten (effects r)
  | None => result r = Ok () ∧ cache (after r) = Cache_delete k (cache s)
  end.
Proof.
  intros Hvalid Hstored writes r. subst writes r. rewrite set_unfold. cbv zeta.
  destruct (get_noCache_keeps now k s) as (Hps & Hc & Hcr & Hes & Hvd & Heff).
  set (g := Injector.get now k Injector.noCache s) in *.
  set (old := match result g with Ok a => Some a | Err _ => None end).
  destruct (setWithOld_run now k v options old (after g) w) as (Hps' & Hcr' & Hes' & Hrest).
  { by rewrite Hvd. }
  { by rewrite Hes. }
  cbn [result after effects]. unfold Injector.providerOptions.
  rewrite Hps in Hps', Hrest. rewrite Hps', Hcr', Hes'.
  split_and!; [done..|].
  destruct (Injector.setAll _ _ _ _ _).2 as [e|].
  - destruct Hrest as (Hr & Hcache & Hnw). split_and!; [done|congruence|].
    apply Forall_app. split; [done|]. eapply Forall_impl; [exact Hnw|]. by intros [].
  - destruct Hrest as (Hr & Hcache & _). split; [done|congruence].
Qed.

Lemma setWithOld_encrypt_fails now k str options old s e :
  notFalse (options ≫= validate) = false ∨
    valid (Validator.validate (validator s) k (VString str)) = true →
  truthy (options ≫= encrypt) = true →
  encryptString (encryptionService s) str = Err e →
  result (Injector.setWithOld now k (VString str) options old s) = Err e.
Proof.
  intros Hvalid Hon Henc. unfold Injector.setWithOld.
  assert (∃ on, notFalse (options ≫= validate) = on ∧
                (on = true → valid (Validator.validate (validator s) k (VString str)) = true))
    as (on & Hv & Hvt).
  { destruct (notFalse (options ≫= validate)); eexists; split; try done.
    intros _. by destruct Hvalid. }
  rewrite Hv, Hon. destruct on; [specialize (Hvt eq_refl)|];
    run_write; rewrite ?Hvt; run_write; proj_state; rewrite Henc; by run_write.
Qed.

(** A [set] that succeeds passed validation and had a value to store. *)
Lemma set_success_inv now k v options s :
  result (Injector.set now k v options s) = Ok () →
  (notFalse (options ≫= validate) = false ∨
     valid (Validator.validate (validator s) k v) = true) ∧
  ∃ w, Injector.storedValue (encryptionService s) options v = Ok w.
Proof.
  intros Hok. rewrite set_unfold in Hok. cbv zeta in Hok. cbn [result] in Hok.
  destruct (get_noCache_keeps now k s) as (_ & _ & _ & Hes & Hvd & _).
  set (g := Injector.get now k Injector.noCache s) in *.
  assert (notFalse (options ≫= validate) = false ∨
          valid (Validator.validate (validator s) k v) = true) as Hvalid.
  { destruct (notFalse (options ≫= validate)) eqn:Hon; [|by left]. right.
    destruct (valid (Validator.validate (validator s) k v)) eqn:Hv; [done|].
    rewrite setWithOld_invalid in Hok; [done|done|by rewrite Hvd]. }
  split; [exact Hvalid|].
  destruct (Injector.storedValue (encryptionService s) options v) as [w|e] eqn:Hst;
    [by eexists|].
  exfalso. unfold Injector.storedValue in Hst.
  destruct v as [str| | | | |]; try done.
  destruct (truthy (options ≫= encrypt)) eqn:Hon; [|done].
  destruct (encryptString (encryptionService s) str) as [|e'] eqn:Henc; [done|].
  rewrite (setWithOld_encrypt_fails _ _ _ _ _ _ e') in Hok;
    [done|by rewrite Hvd|done|by rewrite Hes].
Qed.

Lemma written_facts now k w options p :
  Provider.has (Provider.written now k w options p) k = true ∧
  preferences (Provider.written now k w options p) !! k =
    Some (Provider.stored now p k w options) ∧
  name (Provider.written now k w options p) = name p ∧
  getFault (Provider.written now k w options p) = getFault p.
Proof.
  unfold Provider.written, Provider.has, Provider.withPreferences. simpl.
  rewrite lookup_insert_eq. split_and!; try done.
  all: by apply bool_decide_eq_true_2.
Qed.

(** X22. A [set] that succeeds has written to every provider: each
    registered provider, in the same order, now holds under the key a record
    with the stored value (the value itself, or its encryption when asked
    for), so each reports the key as present; the cache entry of the key is
    dropped. *)
Theorem X22_set_fans_out (now : Z) (k : string) (v : PreferenceValue)
    (options : option SetOptions) (s : PreferenceInjector) :
  result (Injector.set now k v options s) = Ok () →
  let s' := after (Injector.set now k v options s) in
  ∃ w,
    Injector.storedValue (encryptionService s) options v = Ok w ∧
    (truthy (options ≫= encrypt) = false → w = v) ∧
    providers s' =
      Provider.written now k w (Injector.providerOptions options) <$> providers s ∧
    Forall (λ p, Provider.has p k = true ∧
                 ∃ m, preferences p !! k = Some m ∧ value m = w ∧ source m = name p)
      (providers s') ∧
    name <$> providers s' = name <$> providers s ∧
    (providers s ≠ [] → result (Injector.has k s') = Ok true) ∧
    cache s' = Cache_delete k (cache s).
Proof.
  intros Hok s'. subst s'.
  destruct (set_success_inv _ _ _ _ _ Hok) as (Hvalid & w & Hw).
  destruct (set_run now k v options s w Hvalid Hw) as (Hps & _ & _ & Hrest).
  destruct (Injector.setAll now k w (Injector.providerOptions options) (providers s))
    as [ps' [e|]] eqn:Hall; cbn [fst snd] in *.
  { destruct Hrest as [Hr _]. congruence. }
  destruct Hrest as [_ Hcache].
  rewrite setAll_ok in Hall by (by eapply setAll_success). injection Hall as <-.
  exists w. rewrite Hps. split_and!.
  - done.
  - intros Hoff. unfold Injector.storedValue in Hw. rewrite Hoff in Hw.
    destruct v; by injection Hw as <-.
  - done.
  - apply Forall_fmap, Forall_forall. intros p _. cbn.
    destruct (written_facts now k w (Injector.providerOptions options) p)
      as (Hhas & Hget & Hname & _).
    split; [done|]. eexists. split; [exact Hget|]. done.
  - rewrite <-list_fmap_compose. apply list_fmap_ext. intros i p _.
    by destruct (written_facts now k w (Injector.providerOptions options) p)
      as (_ & _ & ? & _).
  - intros Hne. unfold Injector.has. cbn [result]. f_equal.
    rewrite Hps. destruct (providers s) as [|p ps]; [done|]. cbn.
    by destruct (written_facts now k w (Injector.providerOptions options) p) as [-> _].
  - done.
Qed.

Lemma X22_set_fans_out_witness :
  let s := Injector.constructor
             (Some (mkConfig (Some [Provider.memory 25 ∅; Provider.memory 50 ∅;
                                    Provider.memory 75 ∅])
                             None None None None None None None)) in
  result (Injector.set 0 "k" (VNumber 1) None s) = Ok () ∧
  Forall (λ p, Provider.has p "k" = true)
    (providers (after (Injector.set 0 "k" (VNumber 1) None s))).
Proof.
  intros s.
  assert (result (Injector.set 0 "k" (VNumber 1) None s) = Ok ()) as Hok by reflexivity.
  split; [exact Hok|].
  destruct (X22_set_fans_out 0 "k" (VNumber 1) None s Hok)
    as (w & _ & _ & _ & Hall & _).
  eapply Forall_impl; [exact Hall|]. by intros p [? _].
Defined.

(** X23. A value that fails validation is written nowhere: the providers
    and the cache are left as they were, no SET entry is logged and no event
    is emitted. *)
Theorem X23_invalid_set_writes_nothing (now : Z) (k : string) (v : PreferenceValue)
    (options : option SetOptions) (s : PreferenceInjector) :
  notFalse (options ≫= validate) = true →
  valid (Validator.validate (validator s) k v) = false →
  let r := Injector.set now k v options s in
  providers (after r) = providers s ∧
  cache (after r) = cache s ∧
  Forall Injector.notWritten (effects r).
Proof.
  intros Hon Hinvalid r. subst r. rewrite set_unfold. cbv zeta.
  destruct (get_noCache_keeps now k s) as (Hps & Hc & _ & _ & Hvd & Heff).
  rewrite setWithOld_invalid by (done || by rewrite Hvd).
  cbn [after effects]. split_and!; [done..|].
  apply Forall_app. split; [done|]. by repeat constructor.
Qed.

Lemma X23_invalid_set_writes_nothing_witness :
  valid (Validator.validate (validator Injector.strict) "email" (VString "x")) = false ∧
  providers (after (Injector.set 0 "email" (VString "x") None Injector.strict)) =
    providers Injector.strict.
Proof.
  split; [reflexivity|].
  destruct (X23_invalid_set_writes_nothing 0 "email" (VString "x") None Injector.strict)
    as (Hps & _); [reflexivity|reflexivity|exact Hps].
Defined.

(** X24. There is no rollback: when a provider rejects the write, [set]
    fails with that provider's error; the providers before it in
    registration order keep the new value, those after it are untouched,
    and the rejecting provider is as its own [set] left it: holding the new
    record when it stores before the step that fails (as [FileProvider]
    does), untouched when it rejects first (as [ApiProvider] does).  The
    cache entry is not dropped, no SET entry is logged and no event is
    emitted. *)
Theorem X24_write_failure_no_rollback (now : Z) (k : string) (v w : PreferenceValue)
    (options : option SetOptions) (s : PreferenceInjector)
    (before rest : list PreferenceProvider) (p : PreferenceProvider)
    (e : PreferenceError) :
  notFalse (options ≫= validate) = false ∨
    valid (Validator.validate (validator s) k v) = true →
  Injector.storedValue (encryptionService s) options v = Ok w →
  providers s = before ++ p :: rest →
  (∀ q, q ∈ before → setFault q k = None) →
  setFault p k = Some e →
  let r := Injector.set now k v options s in
  let p' := Provider.rejectedSet now k w (Injector.providerOptions options) p in
  result r = Err e ∧
  providers (after r) =
    (Provider.written now k w (Injector.providerOptions options) <$> before)
      ++ p' :: rest ∧
  (writesFirst p = false → p' = p) ∧
  (writesFirst p = true →
   preferences p' !! k =
     Some (Provider.stored now p k w (Injector.providerOptions options))) ∧
  cache (after r) = cache s ∧
  Forall Injector.notWritten (effects r).
Proof.
  intros Hvalid Hw Hps Hbefore Hp r p'. subst r p'.
  destruct (set_run now k v options s w Hvalid Hw) as (Hps' & _ & _ & Hrest).
  rewrite Hps in Hps', Hrest.
  rewrite (setAll_failure _ _ _ _ _ _ _ e) in Hps', Hrest by done.
  cbn [fst snd] in *. destruct Hrest as (Hr & Hc & Heff).
  split_and!; [done|done| | |done|done].
  - intros Hlate. unfold Provider.rejectedSet. by rewrite Hlate.
  - intros Hlate. unfold Provider.rejectedSet. rewrite Hlate.
    by destruct (written_facts now k w (Injector.providerOptions options) p)
      as (_ & ? & _).
Qed.

Lemma X24_write_failure_no_rollback_witness :
  let held ps :=
    (λ q, Provider.has q "k") <$>
      providers (after (Injector.set 0 "k" (VNumber 1) None
        (Injector.constructor
           (Some (mkConfig (Some ps) None None None None None None None))))) in
  held [Provider.memory 25 ∅; Provider.unwritableFile ∅; Provider.memory 75 ∅]
    = [true; true; false] ∧
  held [Provider.memory 25 ∅; Provider.unreachableApi ∅; Provider.memory 75 ∅]
    = [true; false; false].
Proof.
  intros held. subst held. cbv beta. split.
  - destruct (X24_write_failure_no_rollback 0 "k" (VNumber 1) (VNumber 1) None
                (Injector.constructor
                   (Some (mkConfig (Some [Provider.memory 25 ∅; Provider.unwritableFile ∅;
                                          Provider.memory 75 ∅])
                                   None None None None None None None)))
                [Provider.memory 25 ∅] [Provider.memory 75 ∅] (Provider.unwritableFile ∅)
                (ProviderError "file" "set")) as (_ & Hps & _).
    + right. reflexivity.
    + reflexivity.
    + reflexivity.
    + intros q Hq. apply list_elem_of_singleton in Hq. by subst q.
    + reflexivity.
    + rewrite Hps. reflexivity.
  - destruct (X24_write_failure_no_rollback 0 "k" (VNumber 1) (VNumber 1) None
                (Injector.constructor
                   (Some (mkConfig (Some [Provider.memory 25 ∅; Provider.unreachableApi ∅;
                                          Provider.memory 75 ∅])
                                   None None None None None None None)))
                [Provider.memory 25 ∅] [Provider.memory 75 ∅] (Provider.unreachableApi ∅)
                (ProviderError "api" "set")) as (_ & Hps & _).
    + right. reflexivity.
    + reflexivity.
    + reflexivity.
    + intros q Hq. apply list_elem_of_singleton in Hq. by subst q.
    + reflexivity.
    + rewrite Hps. reflexivity.
Defined.

End injector_writes.

(** ** PreferenceInjector: reading back what was written *)

Section injector_round_trips.

Ltac run_read :=
  cbv beta iota zeta delta
    [mbind Method_bind mret Method_ret option_bind
     Injector.read Injector.await Injector.throw Injector.catchUndefined
     Injector.log Injector.emitEvent Injector.callValidator
     Injector.cacheGet Injector.cacheSet Injector.cacheDelete
     result after effects app negb].

Ltac read_state :=
  cbn [providers cache validator auditLogger encryptionService conflictResolution
       initialized Injector.withAuditLogger Injector.withCache
       Injector.withProviders Injector.withInitialized result after effects fst snd].

(** [get] when the cache does not answer and some provider holds the key. *)
Lemma get_miss now k options s results :
  (if notFalse (options ≫= useCache) then (Cache_get now k (cache s)).1 else None) = None →
  Injector.gather k (providers s) [] = Ok results →
  results ≠ [] →
  let c1 := if notFalse (options ≫= useCache)
            then (Cache_get now k (cache s)).2 else cache s in
  let r := Injector.get now k options s in
  match ConflictResolver.resolve results (conflictResolution s) with
  | Err e => result r = Err e ∧ cache (after r) = c1
  | Ok resolved =>
      match Injector.returnedValue (encryptionService s) options resolved with
      | Err e => result r = Err e ∧ cache (after r) = c1
      | Ok v =>
          result r = Ok v ∧
          cache (after r) =
            if notFalse (options ≫= useCache)
            then Cache_set now k (Injector.withValue resolved v) (ttl resolved) c1
            else c1
      end
  end.
Proof.
  intros Hmiss Hgather Hne c1 r. subst c1 r. unfold Injector.get.
  destruct (notFalse (options ≫= useCache)) eqn:Hon.
  - run_read. destruct (Cache_get now k (cache s)) as [cached c'] eqn:Hget.
    cbn [fst snd] in *. subst cached. run_read. read_state. rewrite Hgather.
    destruct results as [|m ms]; [done|]. run_read. read_state.
    destruct (ConflictResolver.resolve _ _) as [resolved|e]; [|done].
    run_read. read_state. unfold Injector.returnedValue.
    destruct (value resolved) as [str| | | | |] eqn:Hv; run_read; read_state; try done.
    destruct (truthy _ && isEncrypted _ _); run_read; read_state; [|done].
    destruct (decryptString (encryptionService s) str); run_read; read_state; done.
  - run_read. read_state. rewrite Hgather.
    destruct results as [|m ms]; [done|]. run_read. read_state.
    destruct (ConflictResolver.resolve _ _) as [resolved|e]; [|done].
    run_read. read_state. unfold Injector.returnedValue.
    destruct (value resolved) as [str| | | | |] eqn:Hv; run_read; read_state; try done.
    destruct (truthy _ && isEncrypted _ _); run_read; read_state; [|done].
    destruct (decryptString (encryptionService s) str); run_read; read_state; done.
Qed.

Lemma gather_written now k w options ps : ∀ results,
  (∀ p, p ∈ ps → getFault p k = None) →
  Injector.gather k (Provider.written now k w options <$> ps) results =
    Ok (results ++ ((λ p, Provider.stored now p k w options) <$> ps)).
Proof.
  induction ps as [|p ps IH]; intros results Hok.
  - simpl. by rewrite app_nil_r.
  - rewrite fmap_cons. cbn [Injector.gather]. unfold Provider.get.
    destruct (written_facts now k w options p) as (_ & -> & _ & ->).
    rewrite (Hok p) by set_solver.
    rewrite IH by (intros q Hq; apply Hok; set_solver).
    by rewrite <-app_assoc.
Qed.

Lemma fmap_replicate_const {A B} (f : A → B) (b : B) (l : list A) :
  (∀ x, x ∈ l → f x = b) → f <$> l = replicate (length l) b.
Proof.
  induction l as [|x l IH]; intros Hall; [done|].
  simpl. rewrite (Hall x) by set_solver. f_equal. apply IH. intros y Hy. apply Hall.
  set_solver.
Qed.

(** Records that agree on the value resolve to a record with that value. *)
Lemma resolve_same_value records strategy w :
  records ≠ [] →
  (∀ m, m ∈ records → value m = w) →
  ConflictResolver.wfValue w →
  ConflictResolver.resolves strategy = true ∨ length records = 1%nat →
  ∃ r, ConflictResolver.resolve records strategy = Ok r ∧ value r = w ∧
       (ConflictResolver.selects strategy = true ∨ length records = 1%nat →
        r ∈ records).
Proof.
  intros Hne Hall Hwf Hstrategy.
  destruct records as [|x [|y l]]; [done| |].
  { exists x. split_and!; [done|apply Hall; set_solver|set_solver]. }
  destruct Hstrategy as [Hres|Hlen]; [|simpl in Hlen; lia].
  destruct strategy; try done; cbn [ConflictResolver.resolve].
  - destruct (foldl_pickHighest (y :: l) x) as [Hin _].
    eexists. split_and!; [reflexivity|by apply Hall|done].
  - destruct (foldl_pickLowest (y :: l) x) as [Hin _].
    eexists. split_and!; [reflexivity|by apply Hall|done].
  - unfold ConflictResolver.resolveByMerge. cbv zeta.
    destruct (sorted_last_exists (x :: y :: l)) as [top ->]; [simpl; lia|].
    eexists. split; [reflexivity|]. cbn [value]. split; [|by intros [|]].
    rewrite (fmap_replicate_const _ w).
    + pose proof (Permutation_length
        (sortBy_perm ConflictResolver.byPriorityThenTimestamp (x :: y :: l))) as Hlen.
      rewrite Hlen. cbn [length]. by apply deepMerge_copies.
    + intros m Hm. apply Hall.
      by rewrite <-(sortBy_perm ConflictResolver.byPriorityThenTimestamp (x :: y :: l)).
  - destruct (foldl_pickLatest (y :: l) x) as [Hin _].
    eexists. split_and!; [reflexivity|by apply Hall|done].
Qed.

Lemma Cache_get_deleted now k c :
  Cache_get now k (Cache_delete k c) = (None, Cache_delete k c).
Proof.
  destruct c as [l|]; [|done]. cbn [Cache_delete Cache_get].
  unfold LRUCache.get, LRUCache.delete. cbn [snd LRUCache.cache].
  by rewrite lookup_delete_eq.
Qed.

(** The injector after a [set] that succeeded. *)
Lemma set_success_state now k v options s :
  result (Injector.set now k v options s) = Ok () →
  let s' := after (Injector.set now k v options s) in
  ∃ w,
    Injector.storedValue (encryptionService s) options v = Ok w ∧
    providers s' =
      Provider.written now k w (Injector.providerOptions options) <$> providers s ∧
    (∀ p, p ∈ providers s → setFault p k = None) ∧
    conflictResolution s' = conflictResolution s ∧
    encryptionService s' = encryptionService s ∧
    cache s' = Cache_delete k (cache s).
Proof.
  intros Hok s'. subst s'.
  destruct (set_success_inv _ _ _ _ _ Hok) as (Hvalid & w & Hw).
  destruct (set_run now k v options s w Hvalid Hw) as (Hps & Hcr & Hes & Hrest).
  destruct (Injector.setAll now k w (Injector.providerOptions options) (providers s))
    as [ps' [e|]] eqn:Hall; cbn [fst snd] in *.
  { destruct Hrest as [Hr _]. congruence. }
  destruct Hrest as [_ Hcache].
  pose proof (setAll_success _ _ _ _ _ _ Hall) as Hfaults.
  rewrite setAll_ok in Hall by done. injection Hall as <-.
  exists w. by rewrite Hps.
Qed.

(** What a [get] of the key finds after a [set] that succeeded. *)
Lemma get_after_set now now' k v options getOptions s :
  result (Injector.set now k v options s) = Ok () →
  providers s ≠ [] →
  (∀ p, p ∈ providers s → getFault p k = None) →
  let s' := after (Injector.set now k v options s) in
  ∃ w results,
    Injector.storedValue (encryptionService s) options v = Ok w ∧
    results = (λ p, Provider.stored now p k w (Injector.providerOptions options))
                <$> providers s ∧
    match ConflictResolver.resolve results (conflictResolution s) with
    | Err e => result (Injector.get now' k getOptions s') = Err e
    | Ok resolved =>
        result (Injector.get now' k getOptions s') =
          Injector.returnedValue (encryptionService s) getOptions resolved
    end.
Proof.
  intros Hok Hne Hfaults s'.
  destruct (set_success_state _ _ _ _ _ Hok) as (w & Hw & Hps & _ & Hcr & Hes & Hc).
  fold s' in Hps, Hcr, Hes, Hc.
  exists w, ((λ p, Provider.stored now p k w (Injector.providerOptions options))
               <$> providers s).
  split; [done|]. split; [done|].
  set (results := _ <$> providers s).
  assert ((if notFalse (getOptions ≫= useCache)
           then (Cache_get now' k (cache s')).1 else None) = None) as Hmiss.
  { rewrite Hc, Cache_get_deleted. by destruct (notFalse _). }
  assert (Injector.gather k (providers s') [] = Ok results) as Hgather.
  { rewrite Hps. by apply gather_written. }
  assert (results ≠ []) as Hresults.
  { subst results. by destruct (providers s). }
  pose proof (get_miss now' k getOptions s' results Hmiss Hgather Hresults) as Hget.
  cbv zeta in Hget. rewrite Hcr, Hes in Hget.
  destruct (ConflictResolver.resolve results (conflictResolution s)) as [resolved|e];
    [|by destruct Hget].
  destruct (Injector.returnedValue _ _ _); by destruct Hget as [-> _].
Qed.

Lemma stored_values now k w options (ps : list PreferenceProvider) m :
  m ∈ (λ p, Provider.stored now p k w options) <$> ps → value m = w ∧ key m = k.
Proof. intros (p & -> & _)%list_elem_of_fmap. done. Qed.

(** X25. What is set can be read back from providers that keep the record
    they are given, as [MemoryProvider] does: after a [set] without
    encryption that succeeded, [get] of the key without decryption returns
    the value that was set, under each of the four resolving strategies (and
    under any strategy when one provider is registered), whether or not the
    call uses the cache, provided a provider is registered, no provider
    rejects the read, and the value is as [JSON.parse] builds it with no own
    property named [__proto__] (in every mapping the keys are distinct, none
    is [__proto__], and they come in [Object.entries] order). *)
Theorem X25_set_then_get (now now' : Z) (k : string) (v : PreferenceValue)
    (options : option SetOptions) (getOptions : option GetOptions)
    (s : PreferenceInjector) :
  result (Injector.set now k v options s) = Ok () →
  providers s ≠ [] →
  (∀ p, p ∈ providers s → getFault p k = None) →
  ConflictResolver.resolves (conflictResolution s) = true ∨
    length (providers s) = 1%nat →
  ConflictResolver.wfValue v →
  truthy (options ≫= encrypt) = false →
  truthy (getOptions ≫= decrypt) = false →
  result (Injector.get now' k getOptions (after (Injector.set now k v options s))) = Ok v.
Proof.
  intros Hok Hne Hfaults Hstrategy Hwf Henc Hdec.
  destruct (get_after_set now now' k v options getOptions s Hok Hne Hfaults)
    as (w & results & Hw & -> & Hget).
  assert (w = v) as ->.
  { unfold Injector.storedValue in Hw. rewrite Henc in Hw.
    destruct v; by injection Hw as <-. }
  destruct (resolve_same_value
              ((λ p, Provider.stored now p k v (Injector.providerOptions options))
                 <$> providers s) (conflictResolution s) v) as (r & Hr & Hv & _).
  - by destruct (providers s).
  - intros m Hm. by apply stored_values in Hm as [? _].
  - done.
  - by rewrite length_fmap.
  - rewrite Hr in Hget. rewrite Hget. unfold Injector.returnedValue.
    rewrite Hv, Hdec. by destruct v.
Qed.

Lemma X25_set_then_get_witness :
  let s := Injector.constructor
             (Some (mkConfig (Some [Provider.memory 25 ∅; Provider.memory 75 ∅])
                             (Some MERGE) (Some true) None None None None None)) in
  let v := VObject [("theme", VString "dark")] in
  result (Injector.set 0 "ui" v None s) = Ok () ∧
  result (Injector.get 5 "ui" None (after (Injector.set 0 "ui" v None s))) = Ok v.
Proof.
  intros s v.
  assert (result (Injector.set 0 "ui" v None s) = Ok ()) as Hok by reflexivity.
  split; [exact Hok|].
  apply (X25_set_then_get 0 5 "ui" v None None s Hok).
  - done.
  - intros p Hp. repeat (apply elem_of_cons in Hp as [->|Hp]; [reflexivity|]).
    by apply elem_of_nil in Hp.
  - by left.
  - apply wfValue_VObject. split; [compute_done|]. split; [compute_done|].
    split; [repeat constructor|].
    by intros k' v' [[= -> ->]|[]%elem_of_nil]%elem_of_cons.
  - reflexivity.
  - reflexivity.
Defined.

(** X26. An encrypted value makes the round trip through providers that
    keep the record they are given, as [MemoryProvider] does.  Provided a
    provider is registered, no provider rejects the read, the strategy is
    one of the four resolving ones or one provider only is registered, and
    the service encrypts the string to one that it recognises as encrypted
    and decrypts back to the input: after a [set] that is asked to encrypt
    the string and succeeds, every provider holds the encrypted string, a
    following [get] that asks for decryption returns the original string,
    and a following [get] that does not ask for decryption returns the
    encrypted string. *)
Theorem X26_encryption_round_trip (now now' : Z) (k str secret : string)
    (options : option SetOptions) (getOptions : option GetOptions)
    (s : PreferenceInjector) :
  result (Injector.set now k (VString str) options s) = Ok () →
  truthy (options ≫= encrypt) = true →
  encryptString (encryptionService s) str = Ok secret →
  isEncrypted (encryptionService s) secret = true →
  decryptString (encryptionService s) secret = Ok str →
  providers s ≠ [] →
  (∀ p, p ∈ providers s → getFault p k = None) →
  ConflictResolver.resolves (conflictResolution s) = true ∨
    length (providers s) = 1%nat →
  let s' := after (Injector.set now k (VString str) options s) in
  Forall (λ p, value <$> preferences p !! k = Some (VString secret)) (providers s') ∧
  (truthy (getOptions ≫= decrypt) = true →
   result (Injector.get now' k getOptions s') = Ok (VString str)) ∧
  (truthy (getOptions ≫= decrypt) = false →
   result (Injector.get now' k getOptions s') = Ok (VString secret)).
Proof.
  intros Hok Henc Hsecret Hmarked Hplain Hne Hfaults Hstrategy s'.
  destruct (get_after_set now now' k (VString str) options getOptions s Hok Hne Hfaults)
    as (w & results & Hw & -> & Hget). fold s' in Hget.
  destruct (set_success_state _ _ _ _ _ Hok) as (w' & Hw' & Hps & _). fold s' in Hps.
  assert (w' = w) as -> by congruence.
  assert (w = VString secret) as ->.
  { unfold Injector.storedValue in Hw. rewrite Henc, Hsecret in Hw. congruence. }
  split.
  { rewrite Hps. apply Forall_fmap, Forall_forall. intros p _. unfold compose.
    destruct (written_facts now k (VString secret) (Injector.providerOptions options) p)
      as (_ & Hheld & _).
    by rewrite Hheld. }
  destruct (resolve_same_value
              ((λ p, Provider.stored now p k (VString secret)
                       (Injector.providerOptions options)) <$> providers s)
              (conflictResolution s) (VString secret)) as (r & Hr & Hv & _).
  - by destruct (providers s).
  - intros m Hm. by apply stored_values in Hm as [? _].
  - done.
  - by rewrite length_fmap.
  - rewrite Hr in Hget. rewrite Hget. unfold Injector.returnedValue. rewrite Hv.
    split; intros ->; [|done]. by rewrite Hmarked, Hplain.
Qed.

Lemma X26_encryption_round_trip_witness :
  let s := after (Injector.setEncryptionService Injector.marking
                    (Injector.constructor
                       (Some (mkConfig (Some [Provider.memory 50 ∅]) None None None
                                       None None None None)))) in
  let options := Some (mkSetOptions None None (Some true) None) in
  let decrypting := Some {| defaultValue := None; decrypt := Some true;
                            useCache := None |} in
  let s' := after (Injector.set 0 "token" (VString "abc") options s) in
  decryptString (encryptionService s) "encrypted:abc" = Ok "abc" ∧
  result (Injector.get 5 "token" decrypting s') = Ok (VString "abc") ∧
  result (Injector.get 5 "token" None s') = Ok (VString "encrypted:abc").
Proof.
  intros s options decrypting s'.
  split; [reflexivity|].
  destruct (X26_encryption_round_trip 0 5 "token" "abc" "encrypted:abc" options
              decrypting s) as (_ & Hdec & _); try reflexivity.
  { done. }
  { intros p Hp. apply list_elem_of_singleton in Hp. by subst p. }
  { by left. }
  destruct (X26_encryption_round_trip 0 5 "token" "abc" "encrypted:abc" options
              None s) as (_ & _ & Hraw); try reflexivity.
  { done. }
  { intros p Hp. apply list_elem_of_singleton in Hp. by subst p. }
  { by left. }
  split; [exact (Hdec eq_refl)|exact (Hraw eq_refl)].
Defined.

(** X27. Under the ERROR strategy what was set cannot be read back once two
    or more providers are registered: [set] writes the key to every
    provider, so every later [get] of the key fails with the Conflict error
    that names the key and every provider in registration order. *)
Theorem X27_error_strategy_after_set (now now' : Z) (k : string) (v : PreferenceValue)
    (options : option SetOptions) (getOptions : option GetOptions)
    (s : PreferenceInjector) :
  result (Injector.set now k v options s) = Ok () →
  conflictResolution s = ERROR →
  (2 ≤ length (providers s))%nat →
  (∀ p, p ∈ providers s → getFault p k = None) →
  result (Injector.get now' k getOptions (after (Injector.set now k v options s))) =
    Err (ConflictError k (name <$> providers s)).
Proof.
  intros Hok Herror Hlen Hfaults.
  assert (providers s ≠ []) as Hne.
  { intros Hnil. rewrite Hnil in Hlen. simpl in Hlen. lia. }
  destruct (get_after_set now now' k v options getOptions s Hok Hne Hfaults) as
    (w & results & _ & -> & Hget).
  rewrite Herror in Hget.
  destruct (providers s) as [|p [|q ps]]; simpl in Hlen; [lia..|].
  rewrite !fmap_cons in Hget. cbn [ConflictResolver.resolve] in Hget.
  rewrite Hget. cbn [Provider.stored key]. f_equal. f_equal.
  rewrite !fmap_cons. cbn [Provider.stored source]. do 2 f_equal.
  rewrite <-list_fmap_compose. by apply list_fmap_ext.
Qed.

Lemma X27_error_strategy_after_set_witness :
  let s1 := Injector.constructor
              (Some (mkConfig (Some [Provider.memory 25 ∅; Provider.memory 75 ∅])
                              (Some ERROR) None None None None None None)) in
  result (Injector.set 0 "k" (VNumber 1) None s1) = Ok () ∧
  result (Injector.get 5 "k" None (after (Injector.set 0 "k" (VNumber 1) None s1))) =
    Err (ConflictError "k" ["memory"; "memory"]).
Proof.
  intros s1.
  assert (result (Injector.set 0 "k" (VNumber 1) None s1) = Ok ()) as Hok by reflexivity.
  split; [exact Hok|].
  apply (X27_error_strategy_after_set 0 5 "k" (VNumber 1) None None s1 Hok).
  - reflexivity.
  - simpl. lia.
  - intros p Hp. repeat (apply elem_of_cons in Hp as [->|Hp]; [reflexivity|]).
    by apply elem_of_nil in Hp.
Defined.

End injector_round_trips.

(** ** PreferenceInjector: removing preferences and providers *)

Section injector_removal.

Ltac run_delete :=
  cbv beta iota zeta delta
    [mbind Method_bind mret Method_ret option_bind
     Injector.read Injector.await Injector.throw Injector.catchUndefined
     Injector.log Injector.emitEvent Injector.callValidator
     Injector.cacheGet Injector.cacheSet Injector.cacheDelete negb].

Ltac delete_state :=
  cbn [providers cache validator auditLogger encryptionService conflictResolution
       initialized Injector.withAuditLogger Injector.withCache
       Injector.withProviders Injector.withInitialized result after effects fst snd].

Lemma deleteAll_ok k ps : ∀ found,
  (∀ p, p ∈ ps → deleteFault p k = None) →
  Injector.deleteAll k ps found =
    (Provider.deleted k <$> ps, Ok (found || existsb (λ p, Provider.has p k) ps)).
Proof.
  induction ps as [|p ps IH]; intros found Hok.
  - simpl. by rewrite orb_false_r.
  - cbn [Injector.deleteAll]. unfold Provider.delete at 1.
    rewrite (Hok p) by set_solver.
    rewrite IH by (intros q Hq; apply Hok; set_solver).
    cbn [existsb]. unfold Provider.has at 2. by rewrite orb_assoc.
Qed.

Lemma deleted_facts k p :
  Provider.has (Provider.deleted k p) k = false ∧
  (Provider.has p k = false → Provider.deleted k p = p).
Proof.
  unfold Provider.has, Provider.deleted, Provider.withPreferences. simpl. split.
  - apply bool_decide_eq_false_2. rewrite lookup_delete_eq. by intros [? ?].
  - intros Habsent%bool_decide_eq_false_1.
    rewrite delete_id by (by apply eq_None_not_Some). by destruct p.
Qed.

(** X28. [delete] removes the key from every provider and answers whether
    any held it.  When no provider rejects, the answer is whether some
    provider had the key, no provider has it afterwards, and the effects are
    those of the read that captures the old value followed, when the key was
    held, by one DELETE entry and one REMOVED event carrying that old value;
    the cache entry is dropped only when the key was held, and when it was
    not the providers are left as they were. *)
Theorem X28_delete (now : Z) (k : string) (s : PreferenceInjector) :
  (∀ p, p ∈ providers s → deleteFault p k = None) →
  let r := Injector.delete now k s in
  let g := Injector.get now k Injector.noCache s in
  let old := match result g with Ok a => Some a | Err _ => None end in
  let held := existsb (λ p, Provider.has p k) (providers s) in
  result r = Ok held ∧
  providers (after r) = Provider.deleted k <$> providers s ∧
  Forall (λ p, Provider.has p k = false) (providers (after r)) ∧
  result (Injector.has k (after r)) = Ok false ∧
  cache (after r) = (if held then Cache_delete k (cache s) else cache s) ∧
  effects r =
    effects g ++
    (if held
     then [Logged {| auditTimestamp := now; action := DELETE; auditKey := k;
                     auditValue := None; auditOldValue := old;
                     auditProvider := "injector" |};
           Emitted {| eventType := REMOVED; eventKey := k; newValue := None;
                      oldValue := old; eventProvider := "injector";
                      eventTimestamp := now |}]
     else []) ∧
  (held = false → providers (after r) = providers s).
Proof.
  intros Hok r g old held.
  assert (providers (after g) = providers s) as Hps by apply get_keeps_providers.
  assert (cache (after g) = cache s) as Hc by (by apply get_bypass_keeps_cache).
  match goal with
  | |- _ ∧ _ ∧ _ ∧ _ ∧ _ ∧ effects r = effects g ++ ?tail ∧ _ => set (trail := tail)
  end.
  assert (result r = Ok held ∧
          providers (after r) = Provider.deleted k <$> providers s ∧
          cache (after r) = (if held then Cache_delete k (cache s) else cache s) ∧
          effects r = effects g ++ trail) as (Hr & Hps' & Hc' & Heff).
  { subst r trail. unfold Injector.delete, Injector.deleteWithOld. run_delete.
    fold g. delete_state. rewrite Hps, deleteAll_ok by done. cbn [orb]. fold held.
    destruct held; run_delete; delete_state; rewrite ?Hc; split_and!; reflexivity. }
  split_and!; try done.
  - rewrite Hps'. apply Forall_fmap, Forall_forall. intros p _. unfold compose.
    apply deleted_facts.
  - unfold Injector.has. cbn [result]. f_equal. rewrite Hps'.
    apply not_true_is_false. intros (p & Hp & Hhas)%existsb_exists.
    apply list_elem_of_In, list_elem_of_fmap in Hp as (q & -> & _).
    destruct (deleted_facts k q) as [Hgone _]. congruence.
  - intros Hnone. rewrite Hps'. rewrite <-(list_fmap_id (providers s)) at 2.
    apply list_fmap_ext. intros i p Hp. apply deleted_facts.
    apply not_true_is_false. intros Hhas.
    assert (held = true) as Hheld; [|congruence].
    apply existsb_exists. exists p. split; [|done].
    apply list_elem_of_In. by eapply list_elem_of_lookup_2.
Qed.

Lemma X28_delete_witness :
  let s := Injector.constructor
             (Some (mkConfig (Some [Provider.memory 25 (Injector.stored (VString "light") 25);
                                    Provider.memory 75 ∅])
                             None None None None None None None)) in
  result (Injector.delete 9 "theme" s) = Ok true ∧
  result (Injector.has "theme" (after (Injector.delete 9 "theme" s))) = Ok false.
Proof.
  intros s.
  destruct (X28_delete 9 "theme" s) as (Hr & _ & _ & Hhas & _).
  - intros p Hp. repeat (apply elem_of_cons in Hp as [->|Hp]; [reflexivity|]).
    by apply elem_of_nil in Hp.
  - split; [exact Hr|exact Hhas].
Defined.

Lemma removeNamed_None n ps :
  n ∉ name <$> ps → Injector.removeNamed n ps = None.
Proof.
  induction ps as [|p ps IH]; intros Hn; [done|].
  cbn [Injector.removeNamed]. rewrite fmap_cons in Hn.
  destruct (String.eqb_spec (name p) n) as [<-|_]; [set_solver|].
  rewrite IH by set_solver. done.
Qed.

Lemma removeNamed_Some n ps :
  n ∈ name <$> ps →
  ∃ before p rest,
    ps = before ++ p :: rest ∧ name p = n ∧ n ∉ name <$> before ∧
    Injector.removeNamed n ps = Some (before ++ rest).
Proof.
  induction ps as [|p ps IH]; intros Hn; [by apply elem_of_nil in Hn|].
  cbn [Injector.removeNamed].
  destruct (String.eqb_spec (name p) n) as [Heq|Hne].
  - exists [], p, ps. split_and!; [done|done|apply not_elem_of_nil|done].
  - rewrite fmap_cons in Hn. apply elem_of_cons in Hn as [Hn|Hn]; [done|].
    destruct (IH Hn) as (before & q & rest & -> & Hq & Hbefore & ->).
    exists (p :: before), q, rest. split_and!; [done|done| |done].
    rewrite fmap_cons. set_solver.
Qed.

(** X29. [removeProvider] takes out the first provider registered under the
    name and only that one: it answers [false] and changes nothing when no
    provider has the name; otherwise it answers [true], the providers before
    the first match and all those after it (later ones of the same name
    included) stay in order, and the cache keeps what it held.  A provider
    added with [addProvider] goes last, and removing it by a name no other
    provider has gives back the list as it was. *)
Theorem X29_remove_provider (n : string) (s : PreferenceInjector) :
  let r := Injector.removeProvider n s in
  (n ∉ name <$> providers s → result r = Ok false ∧ after r = s) ∧
  (n ∈ name <$> providers s →
     result r = Ok true ∧ cache (after r) = cache s ∧
     ∃ before p rest,
       providers s = before ++ p :: rest ∧ name p = n ∧ n ∉ name <$> before ∧
       providers (after r) = before ++ rest) ∧
  (∀ p, providers (after (Injector.addProvider p s)) = providers s ++ [p]) ∧
  (∀ p, name p = n → n ∉ name <$> providers s →
     providers (after (Injector.removeProvider n (after (Injector.addProvider p s)))) =
       providers s).
Proof.
  intros r. subst r. unfold Injector.removeProvider. split_and!.
  - intros Hn. by rewrite removeNamed_None.
  - intros Hn. destruct (removeNamed_Some n (providers s) Hn)
      as (before & p & rest & Hps & Hp & Hbefore & ->).
    split_and!; [done..|]. by exists before, p, rest.
  - done.
  - intros p Hp Hn. cbn [Injector.addProvider after providers Injector.withProviders].
    destruct (removeNamed_Some n (providers s ++ [p]))
      as (before & q & rest & Hps & Hq & Hbefore & ->).
    { rewrite fmap_app. set_solver. }
    cbn [after providers Injector.withProviders].
    assert (length before = length (providers s)) as Hlen.
    { destruct (Nat.lt_trichotomy (length before) (length (providers s)))
        as [Hlt|[Heq|Hgt]]; [|done|].
      - exfalso. apply Hn.
        assert (providers s !! length before = Some q) as Hat.
        { rewrite <-(lookup_app_l _ [p]) by done. rewrite Hps.
          by rewrite list_lookup_middle. }
        apply list_elem_of_fmap. exists q. split; [done|].
        by eapply list_elem_of_lookup_2.
      - exfalso. apply (f_equal length) in Hps.
        rewrite !length_app in Hps. simpl in Hps. lia. }
    apply app_inj_1 in Hps as [<- Hrest]; [|done].
    injection Hrest as _ <-. by rewrite app_nil_r.
Qed.

End injector_removal.

(** ** PreferenceInjector: what a read leaves in the cache *)

Section injector_cache.

Ltac run_cached :=
  cbv beta iota zeta delta
    [mbind Method_bind mret Method_ret option_bind
     Injector.read Injector.await Injector.throw
     Injector.log Injector.cacheGet Injector.cacheSet
     result after effects app].

Lemma lru_get_settings now key l :
  LRUCache.maxSize (LRUCache.get now key l).2 = LRUCache.maxSize l ∧
  LRUCache.defaultTTL (LRUCache.get now key l).2 = LRUCache.defaultTTL l.
Proof.
  unfold LRUCache.get. destruct (LRUCache.cache l !! key) as [entry|]; [|done].
  by destruct (now >? expiresAt entry)%Z.
Qed.

(** X30. A value read through the cache is served from the cache for as
    long as the cache is left as it is and the entry has not expired.  When
    a [get] that uses an LRU cache of capacity at least 1, whose recency
    array lists exactly its keys, misses the cache, finds the key in some
    provider and returns the resolved value, a [get] of the key
    that uses the cache, on an injector whose cache is still the one that
    call left (no [set] or [delete] of the key and no other use of the cache
    in between), no later than the read instant plus the time to live of the
    resolved record (the default of the cache when the record has none or
    0), returns that same value and writes one GET entry with the source
    ["cache"], whatever the providers of that injector hold or answer and
    whatever decryption the later call asks for. *)
Theorem X30_get_fills_cache (now now' : Z) (k : string)
    (options options' : option GetOptions) (s s2 : PreferenceInjector)
    (l : LRUCache.t) (results : list PreferenceMetadata) (v : PreferenceValue) :
  cache s = LRU l →
  LRUCache.consistent l →
  (1 ≤ LRUCache.maxSize l)%nat →
  notFalse (options ≫= useCache) = true →
  Injector.collected now k options s = Some results →
  results ≠ [] →
  result (Injector.get now k options s) = Ok v →
  cache s2 = cache (after (Injector.get now k options s)) →
  notFalse (options' ≫= useCache) = true →
  ∃ resolved,
    ConflictResolver.resolve results (conflictResolution s) = Ok resolved ∧
    ((now' ≤ now + LRUCache.ttlOrDefault (ttl resolved) l)%Z →
     result (Injector.get now' k options' s2) = Ok v ∧
     effects (Injector.get now' k options' s2) =
       [Logged {| auditTimestamp := now'; action := GET; auditKey := k;
                  auditValue := Some v; auditOldValue := None;
                  auditProvider := "cache" |}]).
Proof.
  intros Hcache Hcons Hmax Hon Hcollected Hne Hr Hc2 Hon'.
  unfold Injector.collected in Hcollected. rewrite Hon in Hcollected.
  destruct (Cache_get now k (cache s)).1 eqn:Hmiss; [done|].
  destruct (Injector.gather k (providers s) []) as [results'|] eqn:Hgather; [|done].
  injection Hcollected as ->.
  pose proof (get_miss now k options s results) as Hget.
  rewrite Hon in Hget. cbv zeta in Hget.
  specialize (Hget Hmiss Hgather Hne).
  destruct (ConflictResolver.resolve results (conflictResolution s)) as [resolved|e];
    [|destruct Hget; congruence].
  exists resolved. split; [done|]. intros Hlive.
  destruct (Injector.returnedValue _ _ _) as [v'|e]; [|destruct Hget; congruence].
  destruct Hget as [Hv Hc]. assert (v' = v) as -> by congruence.
  rewrite Hcache in Hc. cbn [Cache_get] in Hc.
  destruct (LRUCache.get now k l) as [hit l'] eqn:Hl. cbn [snd Cache_set] in Hc.
  pose proof (get_consistent now k l Hcons) as Hcons'.
  destruct (lru_get_settings now k l) as [Hmax' Httl].
  rewrite Hl in Hcons', Hmax', Httl. cbn [snd] in Hcons', Hmax', Httl.
  assert (LRUCache.cache (LRUCache.set now k (Injector.withValue resolved v)
                            (ttl resolved) l') !! k =
          Some (mkEntry (Injector.withValue resolved v)
                  (now + LRUCache.ttlOrDefault (ttl resolved) l)%Z)) as Hentry.
  { rewrite set_lookup_self by (done || lia). unfold LRUCache.ttlOrDefault.
    by rewrite Httl. }
  assert (∃ c', Cache_get now' k (cache s2) = (Some (Injector.withValue resolved v), c'))
    as [c' Hhit].
  { rewrite Hc2, Hc. cbn [Cache_get]. unfold LRUCache.get. rewrite Hentry.
    cbn [expiresAt entryValue]. rewrite Z.gtb_ltb.
    destruct (Z.ltb_spec (now + LRUCache.ttlOrDefault (ttl resolved) l) now'); [lia|].
    by eexists. }
  unfold Injector.get. rewrite Hon'. run_cached. rewrite Hhit. run_cached. by cbn.
Qed.

Lemma X30_get_fills_cache_witness :
  let s := Injector.constructor
             (Some (mkConfig (Some [Provider.memory 50 (Injector.stored (VString "dark") 50)])
                             None (Some true) None None None None None)) in
  let s2 := Injector.withProviders (after (Injector.get 0 "theme" None s))
              [Provider.broken "file" 0] in
  result (Injector.get 0 "theme" None s) = Ok (VString "dark") ∧
  result (Injector.get 3600000 "theme" None s2) = Ok (VString "dark").
Proof.
  intros s s2.
  assert (result (Injector.get 0 "theme" None s) = Ok (VString "dark")) as Hr
    by reflexivity.
  split; [exact Hr|].
  destruct (X30_get_fills_cache 0 3600000 "theme" None None s s2
              (LRUCache.new 1000 3600000)
              [ConflictResolver.record "memory" 50 0 (VString "dark")]
              (VString "dark")) as (resolved & Hres & Hserve).
  - reflexivity.
  - apply consistent_new.
  - cbn [LRUCache.new LRUCache.maxSize]. lia.
  - reflexivity.
  - reflexivity.
  - done.
  - exact Hr.
  - reflexivity.
  - reflexivity.
  - injection Hres as <-. apply Hserve. cbn. lia.
Defined.

End injector_cache.
